(** * CircleCalc: the geometry engine, the ASCII rasterizer and the console
      session of [area_calc.py]

    The development embeds the functions of [src/area_calc.py]
    ([calculate_circle_properties], [draw_circle_ascii], [main]) and the
    arithmetic of [visualize_circle] in [src/matplot_visualize.py], and proves
    the properties the specification states about them.

    Numbers are modelled as Python has them:
    - [int] is [Z] (unbounded);
    - [float] is the IEEE-754 binary64 type, here Rocq's primitive [float],
      whose operations are specified by [SpecFloat] through [FloatAxioms];
    - the mixed operations of Python ([int / int], [float + int],
      [int(float)], [math.sqrt], [float / float]) are written out with the
      exceptions CPython raises where the IEEE result would be an infinity or
      a NaN;
    - [float ** 2] is CPython's [float_pow], which hands the square to [pow]
      of the C library. What [pow] returns is not fixed by the language: the
      development takes it as a parameter and assumes of it only that it
      rounds faithfully ([faithful_pow]). *)

From Stdlib Require Import Reals Lra Psatz.
From Stdlib Require Import ZArith Lia List String Ascii Bool Floats.
Import ListNotations.

Local Open Scope string_scope.
Local Open Scope Z_scope.

(** ** Exceptions and the result of a call *)

Module Py.

(** The exceptions that the modelled code can raise, each with its message. *)
Inductive exception : Type :=
| ValueError (msg : string)
| OverflowError (msg : string)
| ZeroDivisionError (msg : string).

(** A call either raises or returns. *)
Inductive result (A : Type) : Type :=
| Raise (e : exception)
| Return (a : A).

Arguments Raise {A} e.
Arguments Return {A} a.

Definition bind {A B : Type} (c : result A) (k : A -> result B) : result B :=
  match c with
  | Raise e => Raise e
  | Return a => k a
  end.

Definition returns {A : Type} (c : result A) : bool :=
  match c with
  | Raise _ => false
  | Return _ => true
  end.

End Py.

Import Py.

Declare Scope py_scope.
Delimit Scope py_scope with py.
Notation "x <- c ;; k" := (bind c (fun x => k))
  (at level 61, c at next level, right associativity) : py_scope.
Local Open Scope py_scope.

(** ** Python numbers *)

Definition is_infinite_sf (s : spec_float) : bool :=
  match s with
  | S754_infinity _ => true
  | _ => false
  end.

(** [float(z)] for an [int] [z], as in [float + int] and [float - int]: the
    nearest double (ties to even), [OverflowError] when that is an infinity. *)
Definition float_of_int (z : Z) : result float :=
  let s := binary_normalize prec emax z 0 false in
  if is_infinite_sf s
  then Raise (OverflowError "int too large to convert to float")
  else Return (SF2Prim s).

(** [a / b] for two [int]s (true division): the correctly rounded quotient. *)
Definition int_true_div (a b : Z) : result float :=
  if b =? 0 then Raise (ZeroDivisionError "division by zero")
  else if a =? 0 then Return (if b <? 0 then neg_zero else zero)
  else
    let '(q, e, l) := SFdiv_core_binary prec emax (Z.abs a) 0 (Z.abs b) 0 in
    let s := binary_round_aux prec emax (xorb (a <? 0) (b <? 0)) q e l in
    if is_infinite_sf s
    then Raise (OverflowError "integer division result too large for a float")
    else Return (SF2Prim s).

(** [a / b] for two [float]s. *)
Definition float_div (a b : float) : result float :=
  if (b =? 0)%float then Raise (ZeroDivisionError "float division by zero")
  else Return (a / b)%float.

(** [math.sqrt(v)]: a NaN result for an argument that is not NaN is a
    [ValueError]. *)
Definition math_sqrt (v : float) : result float :=
  let r := sqrt v in
  if is_nan r && negb (is_nan v)
  then Raise (ValueError "math domain error")
  else Return r.

(** [int(v)] for a [float] [v]: truncation toward zero. *)
Definition int_of_float (v : float) : result Z :=
  match Prim2SF v with
  | S754_nan => Raise (ValueError "cannot convert float NaN to integer")
  | S754_infinity _ =>
      Raise (OverflowError "cannot convert float infinity to integer")
  | S754_zero _ => Return 0
  | S754_finite s m e => Return (cond_Zopp s (Z.shiftl (Zpos m) e))
  end.

(** [range(lo, hi)]. *)
Definition py_range (lo hi : Z) : list Z :=
  map (fun i => lo + Z.of_nat i) (seq 0 (Z.to_nat (hi - lo))).

(** [math.pi]. *)
Definition pi : float := 0x1.921fb54442d18p+1%float.

(** ** The real numbers behind the doubles *)

(** [2 ^ e] as a real number. *)
Definition bpow (e : Z) : R := powerRZ 2 e.

(** The real number that a double stands for; the infinities and NaN, which
    stand for none, are sent to 0. *)
Definition SF2R (s : spec_float) : R :=
  match s with
  | S754_finite sx m e => (IZR (cond_Zopp sx (Zpos m)) * bpow e)%R
  | _ => 0%R
  end.

Definition value (f : float) : R := SF2R (Prim2SF f).

(** The doubles that stand for a real number: the zeros and the numbers. *)
Definition is_finite_sf (s : spec_float) : bool :=
  match s with
  | S754_zero _ | S754_finite _ _ _ => true
  | _ => false
  end.

Definition finite (f : float) : bool := is_finite_sf (Prim2SF f).

(** ** The power function of the C library *)

(** CPython computes [v ** 2.0] with [pow(v, 2.0)] of the C library, whose
    result may differ from the correctly rounded square in the last place.
    [pow2 v] stands for [pow(v, 2.0)]; what is assumed of it, for a positive
    finite [v], is that it rounds the exact square faithfully: it is not
    below a double that the square reaches, not above a double that reaches
    the square (so it is the square itself whenever that is a double), and
    it is the infinity once the square is [2 ^ 1024] or more. *)
Definition faithful_pow (pow2 : float -> float) : Prop :=
  forall v : float,
    (0 <? v)%float = true -> is_infinity v = false ->
    (forall g : float, finite g = true ->
       (value g <= value v * value v)%R -> (g <=? pow2 v)%float = true) /\
    (forall g : float, finite g = true ->
       (value v * value v <= value g)%R -> (pow2 v <=? g)%float = true) /\
    ((bpow emax <= value v * value v)%R -> pow2 v = infinity).

(** The [pow] that rounds every square to the nearest double, ties to even:
    one of the functions that [faithful_pow] admits. *)
Definition rounded_product (v : float) : float := (v * v)%float.

Section Program.

(** [pow(v, 2.0)] of the C library in use. *)
Variable pow2 : float -> float.

(** [v ** 2] for a [float] [v], after [float_pow] of CPython with the
    exponent 2: NaN and the infinities pass through, a zero gives [0.0], a
    negative base is replaced by its absolute value (the exponent is even),
    [1.0] gives [1.0], and every other base goes to [pow]; an infinite
    result of [pow] is the range error that CPython raises as
    [OverflowError]. *)
Definition float_square (v : float) : result float :=
  if is_nan v then Return v
  else if is_infinity v then Return (abs v)
  else if (v =? 0)%float then Return 0%float
  else
    let iv := if (v <? 0)%float then (- v)%float else v in
    if (iv =? 1)%float then Return 1%float
    else
      let ix := pow2 iv in
      if is_infinity ix
      then Raise (OverflowError "(34, 'Numerical result out of range')")
      else Return ix.

(** ** The geometry engine *)

(** The dictionary returned by [calculate_circle_properties]; its keys are the
    seven string literals of the source, here the field names. *)
Record CircleProperties : Type := {
  radius : float;
  angle_degrees : float;
  diameter : float;
  circumference : float;
  area : float;
  sector_area : float;
  arc_length : float
}.

(** The default value of the parameter [angle_degrees]. *)
Definition default_angle_degrees : float := 360%float.

Definition calculate_circle_properties
    (radius : float) (angle_degrees : option float)
    : result CircleProperties :=
  let angle_degrees :=
    match angle_degrees with
    | Some a => a
    | None => default_angle_degrees
    end in
  let diameter := (2 * radius)%float in
  let circumference := (2 * pi * radius)%float in
  r2 <- float_square radius ;;
  let area := (pi * r2)%float in
  let sector_area := ((angle_degrees / 360) * area)%float in
  let arc_length := ((angle_degrees / 360) * circumference)%float in
  Return {| radius := radius;
            angle_degrees := angle_degrees;
            diameter := diameter;
            circumference := circumference;
            area := area;
            sector_area := sector_area;
            arc_length := arc_length |}.

(** ** The ASCII rasterizer *)

Definition newline : string := String (ascii_of_nat 10) EmptyString.

(** The local constant [scale_x]. *)
Definition scale_x : Z := 2.

(** The two assignments of the inner loop body:
    [distance = sqrt((x/scale_x)**2 + y**2)] and
    [is_on_circle = abs(distance - radius) < 0.5]. *)
Definition distance (x y : Z) : result float :=
  q <- int_true_div x scale_x ;;
  q2 <- float_square q ;;
  y2 <- float_of_int (y ^ 2) ;;
  math_sqrt (q2 + y2)%float.

Definition is_on_circle (x y radius : Z) : result bool :=
  d <- distance x y ;;
  r <- float_of_int radius ;;
  Return (abs (d - r) <? 0.5)%float.

(** The inner loop: [line] grows by one character per [x]. *)
Fixpoint draw_line (xs : list Z) (y radius : Z) (line : string)
    : result string :=
  match xs with
  | [] => Return line
  | x :: xs' =>
      b <- is_on_circle x y radius ;;
      draw_line xs' y radius (line ++ (if b then "*" else " "))
  end.

(** The outer loop: [result] grows by one line per [y]. *)
Fixpoint draw_rows (ys : list Z) (radius : Z) (result : list string)
    : Py.result (list string) :=
  match ys with
  | [] => Return result
  | y :: ys' =>
      line <- draw_line (py_range (-2 * radius) (2 * radius + 1)) y radius "" ;;
      draw_rows ys' radius (result ++ [line])
  end.

(** The list [result] when the loops are over. *)
Definition ascii_rows (radius : Z) : result (list string) :=
  draw_rows (py_range (- radius) (radius + 1)) radius [].

(** [show_calculation] only switches [print] calls on; none of them touches
    [line] or [result], so the flag does not reach the returned string. *)
Definition draw_circle_ascii (radius : Z) (show_calculation : bool)
    : result string :=
  rows <- ascii_rows radius ;;
  Return (String.concat newline rows).

(** ** The plot: [visualize_circle] *)

(** The arithmetic of [visualize_circle]: the two percentages of its text
    box, the only statements of the function that can raise on floats (the
    quotients raise [ZeroDivisionError] on a zero divisor). The calls into
    matplotlib and numpy around them draw the figure and return. *)
Definition visualize_circle
    (radius angle diameter circumference arc_length area sector_area : float)
    : result (float * float) :=
  sector_ratio <- float_div sector_area area ;;
  let sector_percentage := (sector_ratio * 100)%float in
  arc_ratio <- float_div arc_length circumference ;;
  let arc_percentage := (arc_ratio * 100)%float in
  Return (sector_percentage, arc_percentage).

(** The call of [main]: every argument is the entry of [properties] under
    the key of the same name. *)
Definition visualize_properties (properties : CircleProperties)
    : result (float * float) :=
  visualize_circle
    (radius properties) (angle_degrees properties) (diameter properties)
    (circumference properties) (arc_length properties) (area properties)
    (sector_area properties).

(** ** The session layer: [main] *)

(** A line typed at a prompt, classified by what the builtin [float] makes of
    it: the empty line, the text of a number, or anything else. *)
Inductive console_line : Type :=
| Blank
| Numeral (v : float)
| Malformed.

(** [float(line)]. *)
Definition py_float (line : console_line) : result float :=
  match line with
  | Numeral v => Return v
  | Blank | Malformed => Raise (ValueError "could not convert string to float")
  end.

(** [line or default] on strings: only the empty string is falsy. *)
Definition line_or (line default : console_line) : console_line :=
  match line with
  | Blank => default
  | _ => line
  end.

(** The body of the [try] block of [main]: the two prompts with their
    checks, the engine, the rasterizer on [int(radius)], the plot. *)
Definition main_try (radius_line angle_line : console_line)
    : result (CircleProperties * string) :=
  radius <- py_float radius_line ;;
  if (radius <=? 0)%float
  then Raise (ValueError "Radius must be positive")
  else
    angle <- py_float (line_or angle_line (Numeral 40%float)) ;;
    if ((angle <=? 0) || (360 <? angle))%float
    then Raise (ValueError "Angle must be between 0 and 360 degrees")
    else
      properties <- calculate_circle_properties radius (Some angle) ;;
      r <- int_of_float radius ;;
      ascii_circle <- draw_circle_ascii r true ;;
      _ <- visualize_properties properties ;;
      Return (properties, ascii_circle).

(** What [main] leaves on the console at its end: the drawing under the
    report, the line [Error: msg] of the [except ValueError] clause, or the
    line of the [except Exception] clause. *)
Inductive report : Type :=
| Shown (properties : CircleProperties) (ascii_circle : string)
| ErrorLine (msg : string)
| UnexpectedLine (e : exception).

Definition main (radius_line angle_line : console_line) : report :=
  match main_try radius_line angle_line with
  | Return (properties, ascii_circle) => Shown properties ascii_circle
  | Raise (ValueError msg) => ErrorLine msg
  | Raise e => UnexpectedLine e
  end.

(** ** Reading a grid *)

(** What the cell test answers, [false] standing in where it raises. *)
Definition filled (x y radius : Z) : bool :=
  match is_on_circle x y radius with
  | Return b => b
  | Raise _ => false
  end.

(** The character drawn for a cell. *)
Definition cell_char (b : bool) : ascii := if b then "*"%char else " "%char.

(** The line that the inner loop builds for the columns [xs] of row [y]. *)
Fixpoint row_string (xs : list Z) (y radius : Z) : string :=
  match xs with
  | [] => EmptyString
  | x :: xs' => String (cell_char (filled x y radius)) (row_string xs' y radius)
  end.

(** The rows of the drawing of a radius whose cells are all computed. *)
Definition grid (radius : Z) : list string :=
  map (fun y => row_string (py_range (-2 * radius) (2 * radius + 1)) y radius)
      (py_range (- radius) (radius + 1)).

End Program.

(** ** Observations used in the statements *)

(** Python's [==] on floats. *)
Definition float_eq (a b : float) : bool := (a =? b)%float.

Definition is_value_error {A : Type} (c : result A) : bool :=
  match c with
  | Raise (ValueError _) => true
  | _ => false
  end.

(** ** Ranges of doubles used in the proofs *)

(** A zero, or a number of the format whose magnitude is below [2 ^ k]. *)
Definition sf_within (k : Z) (s : spec_float) : Prop :=
  match s with
  | S754_zero _ => True
  | S754_finite _ p e =>
      bounded prec emax p e = true /\ Zpos (digits2_pos p) + e <= k
  | _ => False
  end.

(** A zero of either sign, a positive number or the positive infinity: the
    arguments on which [sqrt] is not a NaN. *)
Definition sf_nonneg (s : spec_float) : Prop :=
  match s with
  | S754_zero _ | S754_infinity false | S754_finite false _ _ => True
  | _ => False
  end.

(** A positive number [f] with [2 ^ (lo - 1) <= f < 2 ^ hi]. *)
Definition in_range (lo hi : Z) (f : float) : Prop :=
  match Prim2SF f with
  | S754_finite false m e => lo <= Zpos (digits2_pos m) + e <= hi
  | _ => False
  end.

(** ** Reading a drawing *)

Definition newline_char : ascii := ascii_of_nat 10.

Fixpoint no_newline (s : string) : Prop :=
  match s with
  | EmptyString => True
  | String c s' => c <> newline_char /\ no_newline s'
  end.

(** [text.split("\n")]: the rows of a returned drawing. *)
Fixpoint split_lines (text : string) : list string :=
  match text with
  | EmptyString => [EmptyString]
  | String c rest =>
      if Ascii.eqb c newline_char then EmptyString :: split_lines rest
      else
        match split_lines rest with
        | [] => [String c EmptyString]
        | row :: rows => String c row :: rows
        end
  end.

(** The character at column [x] of row [y] in the rows of a drawing of
    [radius]: row [y] is the row of index [y + radius], column [x] its
    character of index [x + 2 * radius]; nothing outside the grid. *)
Definition cell_at (rows : list string) (radius x y : Z) : option ascii :=
  if (x + 2 * radius <? 0) || (y + radius <? 0) then None
  else
    match nth_error rows (Z.to_nat (y + radius)) with
    | Some row => String.get (Z.to_nat (x + 2 * radius)) row
    | None => None
    end.

(** The cell test over the integers, for a radius [>= 1]:
    [|sqrt((x/2)^2 + y^2) - r| < 1/2] is [r - 1/2 < sqrt(x^2/4 + y^2) < r + 1/2],
    that is [(2r-1)^2 < x^2 + 4y^2 < (2r+1)^2]. *)
Definition on_circle_exact (x y radius : Z) : bool :=
  ((2 * radius - 1) ^ 2 <? x ^ 2 + 4 * y ^ 2) &&
  (x ^ 2 + 4 * y ^ 2 <? (2 * radius + 1) ^ 2).

(** The cell test as the specification words it, over the real numbers:
    [|sqrt((x/2)^2 + y^2) - r| < 0.5]. *)
Definition on_circle_real (x y radius : Z) : Prop :=
  (Rabs (R_sqrt.sqrt ((IZR x / 2) * (IZR x / 2) + IZR y * IZR y) - IZR radius)
     < / 2)%R.

(** A computed double within [1e-9], relatively, of a positive real
    number. *)
Definition within_1e9 (computed : float) (exact : R) : Prop :=
  (Rabs (value computed - exact) <= / 1000000000 * exact)%R.

(** The seven rows drawn for radius 3. *)
Definition radius_3_rows : list string :=
  [ "   *******   ";
    " **       ** ";
    "**         **";
    "*           *";
    "**         **";
    " **       ** ";
    "   *******   " ].

(** ** Tactics *)

(** The constants of the binary64 format, as numerals for [lia]. *)
Ltac unfold_format := unfold fexp, SpecFloat.emin, prec, emax in *.

(** * Binary64 arithmetic, from its specification *)

(** ** Digits *)

Lemma digits2_pos_size (p : positive) : digits2_pos p = Pos.size p.
Proof. induction p; simpl; congruence. Qed.

Lemma Zdigits2_log2 (m : Z) : 0 < m -> Zdigits2 m = Z.log2 m + 1.
Proof.
  destruct m as [|p|p]; try lia. intros _. simpl.
  destruct p; simpl; rewrite ?digits2_pos_size; lia.
Qed.

Lemma Zdigits2_nonneg (m : Z) : 0 <= Zdigits2 m.
Proof. destruct m; simpl; lia. Qed.

Lemma Zdigits2_pos (m : Z) : 0 < m -> 0 < Zdigits2 m.
Proof. destruct m; simpl; lia. Qed.

Lemma Zdigits2_shiftr (m n : Z) :
  0 <= m -> 0 <= n -> Zdigits2 (Z.shiftr m n) = Z.max 0 (Zdigits2 m - n).
Proof.
  intros Hm Hn.
  destruct (Z.eq_dec m 0) as [->|Hm0].
  { rewrite Z.shiftr_0_l. simpl. lia. }
  assert (Hpos : 0 < m) by lia.
  pose proof (Z.log2_nonneg m) as Hl.
  rewrite (Zdigits2_log2 m Hpos).
  destruct (Z_lt_le_dec (Z.log2 m) n) as [Hlt|Hge].
  - rewrite Z.shiftr_eq_0 by lia. simpl. lia.
  - assert (Hs : 0 < Z.shiftr m n).
    { pose proof (Z.shiftr_nonneg m n) as [_ H0]. specialize (H0 Hm).
      destruct (Z.eq_dec (Z.shiftr m n) 0) as [E|E]; [|lia].
      apply Z.shiftr_eq_0_iff in E. lia. }
    rewrite (Zdigits2_log2 _ Hs), Z.log2_shiftr by lia. lia.
Qed.

Lemma Zdigits2_shiftl (m n : Z) :
  0 < m -> 0 <= n -> Zdigits2 (Z.shiftl m n) = Zdigits2 m + n.
Proof.
  intros Hm Hn.
  assert (Hs : 0 < Z.shiftl m n).
  { rewrite Z.shiftl_mul_pow2 by lia. apply Z.mul_pos_pos; [lia|].
    apply Z.pow_pos_nonneg; lia. }
  rewrite (Zdigits2_log2 _ Hs), (Zdigits2_log2 _ Hm), Z.log2_shiftl by lia. lia.
Qed.

Lemma Zdigits2_succ (m : Z) :
  0 <= m -> Zdigits2 m <= Zdigits2 (m + 1) <= Zdigits2 m + 1.
Proof.
  intros Hm.
  destruct (Z.eq_dec m 0) as [->|Hm0]; [simpl; lia|].
  rewrite (Zdigits2_log2 m), (Zdigits2_log2 (m + 1)) by lia.
  pose proof (Z.log2_succ_le m). pose proof (Z.log2_le_mono m (m + 1)).
  unfold Z.succ in *. lia.
Qed.

Lemma Zdigits2_mul (a b : Z) :
  0 < a -> 0 < b ->
  Zdigits2 a + Zdigits2 b - 1 <= Zdigits2 (a * b) <= Zdigits2 a + Zdigits2 b.
Proof.
  intros Ha Hb.
  assert (Hab : 0 < a * b) by (apply Z.mul_pos_pos; lia).
  rewrite !Zdigits2_log2 by lia.
  pose proof (Z.log2_mul_below a b Ha Hb).
  pose proof (Z.log2_mul_above a b). lia.
Qed.

Lemma Zdigits2_le (a b : Z) : 0 <= a -> a <= b -> Zdigits2 a <= Zdigits2 b.
Proof.
  intros Ha Hab.
  destruct (Z.eq_dec a 0) as [->|Ha0]; [apply Zdigits2_nonneg|].
  rewrite !Zdigits2_log2 by lia.
  pose proof (Z.log2_le_mono a b). lia.
Qed.

Lemma Zdigits2_lt_pow2 (m k : Z) : 0 <= k -> 0 <= m < 2 ^ k -> Zdigits2 m <= k.
Proof.
  intros Hk [Hm Hlt].
  destruct (Z.eq_dec m 0) as [->|Hm0]; [simpl; lia|].
  rewrite Zdigits2_log2 by lia.
  assert (Z.log2 m < k); [|lia].
  apply Z.log2_lt_pow2; lia.
Qed.

(** ** Shifting to the right with sticky bits *)

Lemma iter_pos_nat {A : Type} (f : A -> A) (p : positive) (x : A) :
  iter_pos f p x = Nat.iter (Pos.to_nat p) f x.
Proof.
  revert x. induction p as [p IH|p IH|]; intros x.
  - rewrite Pos2Nat.inj_xI. cbn [iter_pos]. rewrite !IH.
    replace (S (2 * Pos.to_nat p)) with (Pos.to_nat p + S (Pos.to_nat p))%nat by lia.
    now rewrite Nat.iter_add, Nat.iter_succ_r.
  - rewrite Pos2Nat.inj_xO. cbn [iter_pos]. rewrite !IH.
    replace (2 * Pos.to_nat p)%nat with (Pos.to_nat p + Pos.to_nat p)%nat by lia.
    now rewrite Nat.iter_add.
  - reflexivity.
Qed.

Lemma shr_1_m (mrs : shr_record) :
  0 <= shr_m mrs -> shr_m (shr_1 mrs) = Z.div2 (shr_m mrs).
Proof.
  destruct mrs as [m r s]. simpl. intros Hm.
  destruct m as [|[p|p|]|p]; simpl; try reflexivity; lia.
Qed.

Lemma shr_m_iter (n : nat) (mrs : shr_record) :
  0 <= shr_m mrs ->
  shr_m (Nat.iter n shr_1 mrs) = Z.shiftr (shr_m mrs) (Z.of_nat n).
Proof.
  intros Hm. induction n as [|n IH].
  - simpl. now rewrite Z.shiftr_0_r.
  - rewrite Nat.iter_succ, shr_1_m.
    + rewrite IH, Z.div2_spec, Z.shiftr_shiftr by lia. f_equal. lia.
    + rewrite IH. now apply Z.shiftr_nonneg.
Qed.

Lemma shr_spec (mrs : shr_record) (e n : Z) :
  0 <= shr_m mrs ->
  shr_m (fst (shr mrs e n)) = Z.shiftr (shr_m mrs) (Z.max 0 n) /\
  snd (shr mrs e n) = e + Z.max 0 n.
Proof.
  intros Hm. destruct n as [|p|p]; simpl.
  - rewrite Z.shiftr_0_r. split; [reflexivity|lia].
  - rewrite iter_pos_nat, shr_m_iter by assumption.
    rewrite positive_nat_Z. split; reflexivity.
  - rewrite Z.shiftr_0_r. split; [reflexivity|lia].
Qed.

Lemma shr_record_of_loc_m (m : Z) (l : location) :
  shr_m (shr_record_of_loc m l) = m.
Proof. destruct l as [|[]]; reflexivity. Qed.

Lemma shr_fexp_spec (m e : Z) (l : location) :
  0 <= m ->
  let n := fexp prec emax (Zdigits2 m + e) - e in
  shr_m (fst (shr_fexp prec emax m e l)) = Z.shiftr m (Z.max 0 n) /\
  snd (shr_fexp prec emax m e l) = e + Z.max 0 n.
Proof.
  intros Hm n. unfold shr_fexp.
  pose proof (shr_spec (shr_record_of_loc m l) e n) as H.
  rewrite shr_record_of_loc_m in H. now apply H.
Qed.

Lemma round_nearest_even_bounds (m : Z) (l : location) :
  m <= round_nearest_even m l <= m + 1.
Proof.
  unfold round_nearest_even.
  destruct l as [|[]]; try lia. destruct (Z.even m); lia.
Qed.

(** ** Rounding *)

(** The sign and the shape of a rounded value. *)
Lemma binary_round_aux_sign (s : bool) (m e : Z) (l : location) :
  0 <= m ->
  binary_round_aux prec emax s m e l = S754_zero s \/
  binary_round_aux prec emax s m e l = S754_infinity s \/
  exists p e', binary_round_aux prec emax s m e l = S754_finite s p e'.
Proof.
  intros Hm. unfold binary_round_aux.
  destruct (shr_fexp prec emax m e l) as [mrs1 e1] eqn:E1.
  pose proof (shr_fexp_spec m e l Hm) as [Hm1 _]. rewrite E1 in Hm1. simpl in Hm1.
  pose proof (round_nearest_even_bounds (shr_m mrs1) (loc_of_shr_record mrs1)) as Hr.
  assert (H1 : 0 <= shr_m mrs1) by (rewrite Hm1; now apply Z.shiftr_nonneg).
  set (m2 := round_nearest_even (shr_m mrs1) (loc_of_shr_record mrs1)) in *.
  destruct (shr_fexp prec emax m2 e1 loc_Exact) as [mrs2 e2] eqn:E2.
  pose proof (shr_fexp_spec m2 e1 loc_Exact ltac:(lia)) as [Hm3 _].
  rewrite E2 in Hm3. simpl in Hm3.
  assert (H3 : 0 <= shr_m mrs2) by (rewrite Hm3; apply Z.shiftr_nonneg; lia).
  destruct (shr_m mrs2) as [|p|p]; [now left| |lia].
  right. destruct (e2 <=? emax - prec); [right; eauto|now left].
Qed.

(** Rounding a mantissa that carries at least the digits of the format:
    the result is a zero, an infinity (only from a magnitude at or beyond
    [emax]) or a number of the format whose magnitude grew by one at most. *)
Lemma binary_round_aux_cases (s : bool) (m e : Z) (l : location) :
  0 <= m -> e <= fexp prec emax (Zdigits2 m + e) ->
  binary_round_aux prec emax s m e l = S754_zero s \/
  (binary_round_aux prec emax s m e l = S754_infinity s /\
   emax <= Zdigits2 m + e) \/
  exists p e',
    binary_round_aux prec emax s m e l = S754_finite s p e' /\
    bounded prec emax p e' = true /\
    Zpos (digits2_pos p) + e' <= Z.max (Zdigits2 m + e + 1) (emin + prec).
Proof.
  intros Hm HP. unfold binary_round_aux.
  destruct (shr_fexp prec emax m e l) as [mrs1 e1] eqn:E1.
  pose proof (shr_fexp_spec m e l Hm) as [Hm1 He1]. rewrite E1 in Hm1, He1.
  simpl in Hm1, He1.
  pose proof (round_nearest_even_bounds (shr_m mrs1) (loc_of_shr_record mrs1)) as Hr.
  assert (H1 : 0 <= shr_m mrs1) by (rewrite Hm1; now apply Z.shiftr_nonneg).
  set (m2 := round_nearest_even (shr_m mrs1) (loc_of_shr_record mrs1)) in *.
  destruct (shr_fexp prec emax m2 e1 loc_Exact) as [mrs2 e2] eqn:E2.
  pose proof (shr_fexp_spec m2 e1 loc_Exact ltac:(lia)) as [Hm3 He2].
  rewrite E2 in Hm3, He2. simpl in Hm3, He2.
  assert (Hd1 : Zdigits2 (shr_m mrs1) =
                Z.max 0 (Zdigits2 m - Z.max 0 (fexp prec emax (Zdigits2 m + e) - e))).
  { rewrite Hm1. apply Zdigits2_shiftr; lia. }
  assert (Hd2 : Zdigits2 (shr_m mrs1) <= Zdigits2 m2 <= Zdigits2 (shr_m mrs1) + 1).
  { pose proof (Zdigits2_succ (shr_m mrs1) H1).
    pose proof (Zdigits2_le (shr_m mrs1) m2 H1 ltac:(lia)).
    pose proof (Zdigits2_le m2 (shr_m mrs1 + 1) ltac:(lia) ltac:(lia)). lia. }
  assert (Hd3 : Zdigits2 (shr_m mrs2) =
                Z.max 0 (Zdigits2 m2 - Z.max 0 (fexp prec emax (Zdigits2 m2 + e1) - e1))).
  { rewrite Hm3. apply Zdigits2_shiftr; lia. }
  assert (H3 : 0 <= shr_m mrs2) by (rewrite Hm3; apply Z.shiftr_nonneg; lia).
  pose proof (Zdigits2_nonneg m) as Hd.
  destruct (shr_m mrs2) as [|p|p] eqn:Ep; [now left| |lia].
  right. simpl in Hd3.
  destruct (e2 <=? emax - prec) eqn:Ee.
  - right. exists p, e2. split; [reflexivity|]. split.
    + unfold bounded, canonical_mantissa. rewrite Ee, andb_true_r.
      apply Z.eqb_eq. apply Z.leb_le in Ee. unfold_format. lia.
    + apply Z.leb_le in Ee. unfold_format. lia.
  - left. split; [reflexivity|]. apply Z.leb_gt in Ee. unfold_format. lia.
Qed.

Lemma digits2_pos_iter_xO (m d : positive) :
  digits2_pos (Pos.iter xO m d) = (digits2_pos m + d)%positive.
Proof.
  induction d as [|d IH] using Pos.peano_ind.
  - simpl. lia.
  - rewrite Pos.iter_succ. simpl. rewrite IH. lia.
Qed.

Lemma shl_align_spec (mx : positive) (ex ex' : Z) :
  let '(mz, ez) := shl_align mx ex ex' in
  ez = Z.min ex ex' /\ Zpos (digits2_pos mz) + ez = Zpos (digits2_pos mx) + ex.
Proof.
  unfold shl_align. destruct (ex' - ex) as [|d|d] eqn:E.
  - lia.
  - lia.
  - rewrite digits2_pos_iter_xO. lia.
Qed.

Lemma binary_round_cases (s : bool) (mx : positive) (ex : Z) :
  binary_round prec emax s mx ex = S754_zero s \/
  (binary_round prec emax s mx ex = S754_infinity s /\
   emax <= Zpos (digits2_pos mx) + ex) \/
  exists p e',
    binary_round prec emax s mx ex = S754_finite s p e' /\
    bounded prec emax p e' = true /\
    Zpos (digits2_pos p) + e' <=
      Z.max (Zpos (digits2_pos mx) + ex + 1) (emin + prec).
Proof.
  unfold binary_round.
  pose proof (shl_align_spec mx ex (fexp prec emax (Zpos (digits2_pos mx) + ex))) as H.
  destruct (shl_align mx ex (fexp prec emax (Zpos (digits2_pos mx) + ex))) as [mz ez].
  destruct H as [Hez Hd].
  pose proof (binary_round_aux_cases s (Zpos mz) ez loc_Exact) as H.
  simpl Zdigits2 in H. rewrite Hd in H. apply H; lia.
Qed.

(** The nearest double of an integer. *)
Lemma binary_normalize_int_cases (z : Z) :
  (z = 0 /\ binary_normalize prec emax z 0 false = S754_zero false) \/
  (z <> 0 /\
   (binary_normalize prec emax z 0 false = S754_zero (z <? 0) \/
    (binary_normalize prec emax z 0 false = S754_infinity (z <? 0) /\
     emax <= Zdigits2 z) \/
    exists p e',
      binary_normalize prec emax z 0 false = S754_finite (z <? 0) p e' /\
      bounded prec emax p e' = true /\
      Zpos (digits2_pos p) + e' <= Z.max (Zdigits2 z + 1) (emin + prec))).
Proof.
  destruct z as [|p|p]; [now left| |]; right; (split; [lia|]); simpl.
  - pose proof (binary_round_cases false p 0) as H. rewrite !Z.add_0_r in H. exact H.
  - pose proof (binary_round_cases true p 0) as H. rewrite !Z.add_0_r in H. exact H.
Qed.

(** ** The predicates of [PrimFloat] read on the specification *)

Lemma SFcompare_refl (s : spec_float) :
  s <> S754_nan -> SFcompare s s = Some Eq.
Proof.
  destruct s as [[]|[]| |[] m e]; simpl; try congruence;
    intros _; rewrite Z.compare_refl, Pos.compare_cont_refl; reflexivity.
Qed.

Lemma is_nan_spec (f : float) :
  is_nan f = match Prim2SF f with S754_nan => true | _ => false end.
Proof.
  unfold is_nan. rewrite eqb_spec. unfold SFeqb.
  destruct (Prim2SF f) eqn:E; try reflexivity;
    rewrite SFcompare_refl by congruence; reflexivity.
Qed.

Lemma is_infinity_spec (f : float) :
  is_infinity f = is_infinite_sf (Prim2SF f).
Proof.
  unfold is_infinity. rewrite eqb_spec, abs_spec. unfold SFeqb.
  change (Prim2SF infinity) with (S754_infinity false).
  destruct (Prim2SF f) as [[]|[]| |[] m e]; reflexivity.
Qed.

(** ** Comparisons *)

Lemma Prim2SF_zero : Prim2SF 0%float = S754_zero false.
Proof. reflexivity. Qed.

Lemma ltb_zero_positive (r : float) :
  (0 <? r)%float = true ->
  Prim2SF r = S754_infinity false \/ exists m e, Prim2SF r = S754_finite false m e.
Proof.
  rewrite ltb_spec, Prim2SF_zero. unfold SFltb.
  destruct (Prim2SF r) as [s|[]| |[] m e]; simpl; try discriminate; eauto.
Qed.

Lemma SFeqb_finite_eq (x : spec_float) (s : bool) (m : positive) (e : Z) :
  SFeqb x (S754_finite s m e) = true -> x = S754_finite s m e.
Proof.
  unfold SFeqb. destruct x as [sx|sx| |sx mx ex]; simpl.
  - destruct s; discriminate.
  - destruct sx; discriminate.
  - discriminate.
  - destruct sx, s; try discriminate;
      destruct (Z.compare_spec ex e) as [->| |]; try discriminate;
      destruct (Pos.compare_cont Eq mx m) eqn:E; try discriminate;
      apply (Pos.compare_eq mx m) in E; now subst.
Qed.

Lemma float_eq_360 (a : float) : float_eq a 360 = true -> a = 360%float.
Proof.
  unfold float_eq. rewrite eqb_spec. intros H. apply Prim2SF_inj.
  change (Prim2SF 360) with (S754_finite false 6333186975989760 (-44)) in *.
  now apply SFeqb_finite_eq.
Qed.

(** ** Multiplying by one *)

Lemma Prim2SF_one : Prim2SF 1%float = S754_finite false 4503599627370496 (-52).
Proof. reflexivity. Qed.

Lemma binary_round_aux_one (s : bool) (m : positive) (e : Z) :
  bounded prec emax m e = true ->
  binary_round_aux prec emax s (Zpos (4503599627370496 * m)) (-52 + e) loc_Exact =
  S754_finite s m e.
Proof.
  intros Hb. unfold bounded, canonical_mantissa in Hb.
  apply andb_true_iff in Hb. destruct Hb as [Hc He].
  apply Z.eqb_eq in Hc.
  change (4503599627370496 * m)%positive with (Pos.iter xO m 52).
  unfold binary_round_aux, shr_fexp.
  cbn [Zdigits2]. rewrite digits2_pos_iter_xO.
  replace (Zpos (digits2_pos m + 52) + (-52 + e)) with (Zpos (digits2_pos m) + e) by lia.
  rewrite Hc. replace (e - (-52 + e)) with 52 by lia.
  cbn [shr shr_record_of_loc iter_pos Pos.iter shr_1 shr_m shr_r shr_s orb
       loc_of_shr_record round_nearest_even Zdigits2].
  replace (Zpos (digits2_pos m) + (-52 + e + 52)) with (Zpos (digits2_pos m) + e) by lia.
  rewrite Hc. replace (e - (-52 + e + 52)) with 0 by lia.
  cbn [shr shr_record_of_loc shr_m].
  replace (-52 + e + 52) with e by lia. now rewrite He.
Qed.

Lemma SFmul_one_l (x : spec_float) :
  valid_binary x = true ->
  SFmul prec emax (S754_finite false 4503599627370496 (-52)) x = x.
Proof.
  destruct x as [sx|sx| |sx m e]; try reflexivity.
  intros Hb. cbn [SFmul xorb]. now apply binary_round_aux_one.
Qed.

Lemma mul_one_l (x : float) : (1 * x)%float = x.
Proof.
  apply Prim2SF_inj. rewrite mul_spec, Prim2SF_one.
  apply SFmul_one_l, Prim2SF_valid.
Qed.


(** * The Python operations within the double range *)

Lemma Zdigits2_abs (z : Z) : Zdigits2 (Z.abs z) = Zdigits2 z.
Proof. destruct z; reflexivity. Qed.

(** [float(z)] returns for an integer below [2 ^ (emax - 1)]. *)
Lemma float_of_int_within (z k : Z) :
  Zdigits2 z <= k -> k < emax ->
  exists f, float_of_int z = Return f /\
            sf_within (Z.max (k + 1) (emin + prec)) (Prim2SF f) /\
            (0 <= z -> sf_nonneg (Prim2SF f)).
Proof.
  intros Hk Hmax. unfold float_of_int.
  destruct (binary_normalize_int_cases z) as [[-> E]|[Hz [E|[[E Hinf]|(p & e' & E & Hb & Hd)]]]];
    rewrite E; cbn [is_infinite_sf].
  - exists zero. repeat split; exact I.
  - exists (SF2Prim (S754_zero (z <? 0))). split; [reflexivity|].
    rewrite Prim2SF_SF2Prim by reflexivity. split; [exact I|intros; exact I].
  - lia.
  - exists (SF2Prim (S754_finite (z <? 0) p e')). split; [reflexivity|].
    rewrite Prim2SF_SF2Prim by exact Hb. cbn [sf_within sf_nonneg]. split.
    + split; [exact Hb|]. unfold_format. lia.
    + intros H0. destruct (Z.ltb_spec z 0); [lia|exact I].
Qed.

(** The quotient core on a divisor [2]. *)
Lemma SFdiv_core_binary_by_2 (a q e : Z) (l : location) :
  0 < a ->
  SFdiv_core_binary prec emax a 0 2 0 = (q, e, l) ->
  0 <= q /\ e <= fexp prec emax (Zdigits2 q + e) /\
  Zdigits2 q + e = Zdigits2 a - 1.
Proof.
  intros Ha. unfold SFdiv_core_binary.
  change (Zdigits2 2) with 2.
  set (d := Zdigits2 a).
  assert (Hd : 0 < d) by (apply Zdigits2_pos; lia).
  set (e0 := Z.min (fexp prec emax (d + 0 - (2 + 0))) (0 - 0)).
  assert (He0 : e0 <= 0) by (subst e0; lia).
  set (m' := match 0 - 0 - e0 with
             | 0 => a | Z.pos _ => Z.shiftl a (0 - 0 - e0) | Z.neg _ => 0 end).
  assert (Hm' : m' = Z.shiftl a (- e0)).
  { subst m'. replace (0 - 0 - e0) with (- e0) by lia.
    destruct (- e0) eqn:E; [now rewrite Z.shiftl_0_r|reflexivity|lia]. }
  destruct (Z.div_eucl m' 2) as [q0 r0] eqn:Ediv.
  intros H. inversion H; subst q e l. clear H.
  assert (Hq : q0 = Z.shiftr m' 1).
  { rewrite <- Z.div2_spec, Z.div2_div. unfold Z.div. now rewrite Ediv. }
  assert (Hdm : Zdigits2 m' = d + - e0).
  { rewrite Hm'. apply Zdigits2_shiftl; lia. }
  assert (Hm0 : 0 < m').
  { rewrite Hm', Z.shiftl_mul_pow2 by lia. apply Z.mul_pos_pos; [lia|].
    apply Z.pow_pos_nonneg; lia. }
  assert (Hdq : Zdigits2 q0 = Z.max 0 (d + - e0 - 1)).
  { rewrite Hq, Zdigits2_shiftr, Hdm by lia. reflexivity. }
  split; [rewrite Hq; apply Z.shiftr_nonneg; lia|].
  rewrite Hdq. subst e0. unfold_format. lia.
Qed.

(** [x / scale_x] returns for an integer [x] below [2 ^ emax]. *)
Lemma int_true_div_scale_within (x k : Z) :
  Zdigits2 x <= k + 1 -> k < emax ->
  exists f, int_true_div x scale_x = Return f /\
            sf_within (Z.max (k + 1) (emin + prec)) (Prim2SF f).
Proof.
  intros Hk Hmax. unfold int_true_div, scale_x.
  change (2 =? 0) with false. cbv iota.
  destruct (Z.eqb_spec x 0) as [->|Hx].
  { exists zero. split; [reflexivity|exact I]. }
  destruct (SFdiv_core_binary prec emax (Z.abs x) 0 (Z.abs 2) 0) as [[q e] l] eqn:E.
  change (Z.abs 2) with 2 in E.
  apply SFdiv_core_binary_by_2 in E; [|lia]. destruct E as (Hq & HP & Hd).
  rewrite Zdigits2_abs in Hd.
  set (s := xorb (x <? 0) (2 <? 0)).
  destruct (binary_round_aux_cases s q e l Hq HP) as [E|[[E Hinf]|(p & e' & E & Hb & Hm)]];
    rewrite E; cbn [is_infinite_sf].
  - exists (SF2Prim (S754_zero s)). split; [reflexivity|].
    rewrite Prim2SF_SF2Prim by reflexivity. exact I.
  - lia.
  - exists (SF2Prim (S754_finite s p e')). split; [reflexivity|].
    rewrite Prim2SF_SF2Prim by exact Hb. cbn [sf_within]. split; [exact Hb|].
    unfold_format. lia.
Qed.


(** The sum of two non-negative doubles is non-negative. *)
Lemma SFadd_nonneg (a b : spec_float) :
  sf_nonneg a -> sf_nonneg b -> sf_nonneg (SFadd prec emax a b).
Proof.
  destruct a as [sa|[]| |[] ma ea]; simpl; try contradiction;
    destruct b as [sb|[]| |[] mb eb]; simpl; try contradiction; intros _ _;
    try exact I.
  - destruct sa, sb; exact I.
  - set (ez := Z.min ea eb).
    destruct (binary_round_cases false
                (fst (shl_align ma ea ez) + fst (shl_align mb eb ez)) ez)
      as [E|[[E _]|(p & e' & E & _)]]; rewrite E; exact I.
Qed.

(** The square root of a non-negative double is not a NaN. *)
Lemma SFsqrt_nonneg (a : spec_float) :
  sf_nonneg a -> SFsqrt prec emax a <> S754_nan.
Proof.
  destruct a as [sa|[]| |[] m e]; simpl; try contradiction; intros _;
    try discriminate.
  destruct (SFsqrt_core_binary prec emax (Zpos m) e) as [[mz ez] lz] eqn:E.
  assert (Hmz : 0 <= mz).
  { unfold SFsqrt_core_binary in E.
    set (m' := match _ with Z0 => _ | Zpos _ => _ | Zneg _ => _ end) in E.
    assert (Hm' : 0 <= m').
    { subst m'. destruct (e - 2 * _); try lia. apply Z.shiftl_nonneg. lia. }
    pose proof (Z.sqrtrem_spec m' Hm') as Hs.
    destruct (Z.sqrtrem m') as [q r]. inversion E; subst. lia. }
  destruct (binary_round_aux_sign false mz ez lz Hmz) as [H|[H|(p & e' & H)]];
    rewrite H; discriminate.
Qed.

Lemma math_sqrt_nonneg (v : float) :
  sf_nonneg (Prim2SF v) -> math_sqrt v = Return (sqrt v).
Proof.
  intros Hv. unfold math_sqrt.
  rewrite (is_nan_spec (sqrt v)), sqrt_spec.
  pose proof (SFsqrt_nonneg _ Hv) as H. unfold SF64sqrt.
  destruct (SFsqrt prec emax (Prim2SF v)); try reflexivity. congruence.
Qed.

Lemma Zdigits2_abs_lt_pow2 (z k : Z) : 0 <= k -> Z.abs z < 2 ^ k -> Zdigits2 z <= k.
Proof.
  intros Hk Hz. rewrite <- Zdigits2_abs. apply Zdigits2_lt_pow2; lia.
Qed.


(** ** Opposites *)

Lemma SFopp_involutive (s : spec_float) : SFopp (SFopp s) = s.
Proof. destruct s as [[]|[]| |[] m e]; reflexivity. Qed.

Lemma opp_involutive (f : float) : (- - f)%float = f.
Proof. apply Prim2SF_inj. now rewrite !opp_spec, SFopp_involutive. Qed.

Lemma SF2Prim_opp (s : spec_float) : SF2Prim (SFopp s) = (- SF2Prim s)%float.
Proof.
  destruct s as [[]|[]| |[] m e]; try reflexivity.
  cbn [SFopp negb SF2Prim]. now rewrite opp_involutive.
Qed.

Lemma is_infinite_sf_opp (s : spec_float) :
  is_infinite_sf (SFopp s) = is_infinite_sf s.
Proof. destruct s; reflexivity. Qed.

Lemma binary_round_aux_opp (s : bool) (m e : Z) (l : location) :
  binary_round_aux prec emax (negb s) m e l =
  SFopp (binary_round_aux prec emax s m e l).
Proof.
  unfold binary_round_aux.
  destruct (shr_fexp prec emax m e l) as [mrs1 e1].
  destruct (shr_fexp prec emax _ e1 loc_Exact) as [mrs2 e2].
  destruct (shr_m mrs2); try reflexivity.
  destruct (e2 <=? emax - prec); reflexivity.
Qed.

(** The quotient by [scale_x] of the mirrored column is the mirrored
    quotient. *)
Lemma int_true_div_scale_opp (x : Z) :
  x <> 0 ->
  int_true_div (- x) scale_x =
  match int_true_div x scale_x with
  | Raise e => Raise e
  | Return q => Return (- q)%float
  end.
Proof.
  intros Hx. unfold int_true_div, scale_x.
  change (2 =? 0) with false. cbv iota.
  destruct (Z.eqb_spec (- x) 0) as [H|_]; [lia|].
  destruct (Z.eqb_spec x 0) as [H|_]; [lia|].
  rewrite Z.abs_opp.
  destruct (SFdiv_core_binary prec emax (Z.abs x) 0 (Z.abs 2) 0) as [[q e] l].
  replace (xorb (- x <? 0) (2 <? 0)) with (negb (xorb (x <? 0) (2 <? 0))).
  2:{ change (2 <? 0) with false. rewrite !xorb_false_r.
      destruct (Z.ltb_spec x 0), (Z.ltb_spec (- x) 0); try reflexivity; lia. }
  rewrite binary_round_aux_opp, is_infinite_sf_opp.
  destruct (is_infinite_sf _); [reflexivity|]. now rewrite SF2Prim_opp.
Qed.

Lemma mul_finite_not_nan (x y : float) (s : bool) (m : positive) (e : Z) :
  Prim2SF x = S754_finite s m e -> is_nan y = false -> is_nan (x * y) = false.
Proof.
  intros Hx Hy. rewrite is_nan_spec in *. rewrite mul_spec, Hx.
  unfold SF64mul, SFmul.
  destruct (Prim2SF y) as [sy|sy| |sy my ey]; try reflexivity; try discriminate.
  destruct (binary_round_aux_sign (xorb s sy) (Zpos (m * my)) (e + ey) loc_Exact)
    as [H|[H|(p & e' & H)]]; [lia| | |]; rewrite H; reflexivity.
Qed.

Lemma float_eq_refl (x : float) : is_nan x = false -> float_eq x x = true.
Proof.
  rewrite is_nan_spec. unfold float_eq. rewrite eqb_spec. unfold SFeqb.
  intros H. rewrite SFcompare_refl; [reflexivity|].
  intros E. now rewrite E in H.
Qed.

Lemma Prim2SF_pi : Prim2SF pi = S754_finite false 7074237752028440 (-51).
Proof. reflexivity. Qed.

Lemma Prim2SF_two_pi :
  Prim2SF (2 * pi) = S754_finite false 7074237752028440 (-50).
Proof. reflexivity. Qed.

(** * Rounding errors, in real numbers *)

(** ** Powers of two *)

Lemma bpow_pos (e : Z) : (0 < bpow e)%R.
Proof. apply powerRZ_lt. lra. Qed.

Lemma bpow_add (a b : Z) : bpow (a + b) = (bpow a * bpow b)%R.
Proof. apply powerRZ_add. lra. Qed.

Lemma bpow_0 : bpow 0 = 1%R.
Proof. reflexivity. Qed.

Lemma bpow_1 : bpow 1 = 2%R.
Proof. unfold bpow. simpl. lra. Qed.

Lemma IZR_pow2 (n : Z) : 0 <= n -> IZR (2 ^ n) = bpow n.
Proof.
  revert n. apply natlike_ind.
  - reflexivity.
  - intros n Hn IH. rewrite Z.pow_succ_r by exact Hn.
    rewrite mult_IZR, IH. unfold Z.succ. rewrite bpow_add, bpow_1. lra.
Qed.

Lemma bpow_ge_1 (n : Z) : 0 <= n -> (1 <= bpow n)%R.
Proof.
  intros Hn. rewrite <- IZR_pow2 by exact Hn. apply IZR_le.
  pose proof (Z.pow_pos_nonneg 2 n). lia.
Qed.

Lemma bpow_le (a b : Z) : a <= b -> (bpow a <= bpow b)%R.
Proof.
  intros H. replace b with (a + (b - a)) by lia. rewrite bpow_add.
  pose proof (bpow_pos a). pose proof (bpow_ge_1 (b - a) ltac:(lia)). nra.
Qed.

Lemma Zdigits2_bounds (m : Z) :
  0 < m -> 2 ^ (Zdigits2 m - 1) <= m < 2 ^ Zdigits2 m.
Proof.
  intros Hm. rewrite Zdigits2_log2 by exact Hm.
  pose proof (Z.log2_spec m Hm) as H. unfold Z.succ in H.
  now replace (Z.log2 m + 1 - 1) with (Z.log2 m) by lia.
Qed.

Lemma Zdigits2_bounds_R (m : Z) :
  0 < m -> (bpow (Zdigits2 m - 1) <= IZR m < bpow (Zdigits2 m))%R.
Proof.
  intros Hm. pose proof (Zdigits2_bounds m Hm) as [H1 H2].
  pose proof (Zdigits2_pos m Hm).
  rewrite <- !IZR_pow2 by lia. split; [now apply IZR_le|now apply IZR_lt].
Qed.

Lemma shiftr_floor (m n : Z) :
  0 <= m -> 0 <= n ->
  Z.shiftr m n * 2 ^ n <= m < (Z.shiftr m n + 1) * 2 ^ n.
Proof.
  intros Hm Hn. rewrite Z.shiftr_div_pow2 by exact Hn.
  assert (Hp : 0 < 2 ^ n) by (apply Z.pow_pos_nonneg; lia).
  pose proof (Z.mul_div_le m (2 ^ n) Hp).
  pose proof (Z.mul_succ_div_gt m (2 ^ n) Hp). lia.
Qed.

Lemma shiftr_floor_R (m n : Z) :
  0 <= m -> 0 <= n ->
  (IZR (Z.shiftr m n) * bpow n <= IZR m /\
   IZR (m + 1) <= IZR (Z.shiftr m n + 1) * bpow n)%R.
Proof.
  intros Hm Hn. pose proof (shiftr_floor m n Hm Hn) as [H1 H2].
  rewrite <- IZR_pow2, <- !mult_IZR by exact Hn.
  split; apply IZR_le; lia.
Qed.

(** ** One rounding *)

(** Rounding a positive real [x] that lies between [m * 2^e] and
    [(m+1) * 2^e], in the range of the normal numbers: the result is a
    number of the format at one unit in the last place of [x] at most. *)
Lemma binary_round_aux_error (s : bool) (m e : Z) (l : location) (x : R) :
  0 < m -> e <= fexp prec emax (Zdigits2 m + e) ->
  emin + prec <= Zdigits2 m + e -> Zdigits2 m + e < emax ->
  (IZR m * bpow e <= x <= IZR (m + 1) * bpow e)%R ->
  exists p e',
    binary_round_aux prec emax s m e l = S754_finite s p e' /\
    (Rabs (IZR (Zpos p) * bpow e' - x) <= bpow (Zdigits2 m + e - prec))%R /\
    Zdigits2 m + e <= Zpos (digits2_pos p) + e' <= Zdigits2 m + e + 1.
Proof.
  intros Hm HP Hlo Hhi Hx. unfold binary_round_aux.
  destruct (shr_fexp prec emax m e l) as [mrs1 e1] eqn:E1.
  pose proof (shr_fexp_spec m e l ltac:(lia)) as [Hm1 He1]. rewrite E1 in Hm1, He1.
  simpl in Hm1, He1.
  pose proof (round_nearest_even_bounds (shr_m mrs1) (loc_of_shr_record mrs1)) as Hr.
  set (D := Zdigits2 m + e) in *.
  assert (Hf : fexp prec emax D = D - prec) by (unfold_format; lia).
  rewrite Hf in *.
  set (n1 := D - prec - e) in *.
  assert (Hn1 : 0 <= n1) by (subst n1; lia).
  rewrite Z.max_r in Hm1, He1 by exact Hn1.
  assert (He1' : e1 = D - prec) by (subst n1; lia).
  assert (H1 : 0 <= shr_m mrs1) by (rewrite Hm1; apply Z.shiftr_nonneg; lia).
  assert (Hd1 : Zdigits2 (shr_m mrs1) = prec).
  { rewrite Hm1, Zdigits2_shiftr by lia. subst n1 D. unfold_format. lia. }
  assert (H1pos : 0 < shr_m mrs1).
  { destruct (shr_m mrs1); simpl in Hd1; try lia. discriminate. }
  pose proof (Zdigits2_bounds _ H1pos) as Hb1. rewrite Hd1 in Hb1.
  pose proof (shiftr_floor_R m n1 ltac:(lia) Hn1) as [Hfl1 Hfl2].
  rewrite <- Hm1 in Hfl1, Hfl2.
  set (m1 := shr_m mrs1) in *.
  set (m2 := round_nearest_even m1 (loc_of_shr_record mrs1)) in *.
  assert (Hx1 : (IZR m1 * bpow e1 <= x <= IZR (m1 + 1) * bpow e1)%R).
  { replace e1 with (n1 + e) by lia. rewrite bpow_add.
    pose proof (bpow_pos e). pose proof (bpow_pos n1). split; nra. }
  destruct (shr_fexp prec emax m2 e1 loc_Exact) as [mrs2 e2] eqn:E2.
  pose proof (shr_fexp_spec m2 e1 loc_Exact ltac:(lia)) as [Hm3 He2].
  rewrite E2 in Hm3, He2. simpl in Hm3, He2.
  assert (Hd2 : prec <= Zdigits2 m2 <= prec + 1).
  { pose proof (Zdigits2_succ m1 H1).
    pose proof (Zdigits2_le m1 m2 H1 ltac:(lia)).
    pose proof (Zdigits2_le m2 (m1 + 1) ltac:(lia) ltac:(lia)). lia. }
  assert (Herr : (Rabs (IZR m2 * bpow e1 - x) <= bpow e1)%R).
  { pose proof (bpow_pos e1).
    assert (IZR m1 <= IZR m2 <= IZR (m1 + 1))%R by (split; apply IZR_le; lia).
    rewrite plus_IZR in *. apply Rabs_le. split; nra. }
  destruct (Z.eq_dec (Zdigits2 m2) prec) as [Hd|Hd].
  - (* no carry *)
    assert (Hn2 : fexp prec emax (Zdigits2 m2 + e1) - e1 = 0)
      by (rewrite Hd; unfold_format; lia).
    rewrite Hn2 in Hm3, He2. rewrite Z.shiftr_0_r in Hm3. simpl in He2.
    rewrite Hm3. destruct m2 as [|p|p] eqn:Ep;
      [cbn in Hd; unfold prec in Hd; lia| |lia].
    replace (e2 <=? emax - prec) with true
      by (symmetry; apply Z.leb_le; unfold_format; lia).
    exists p, e2. split; [reflexivity|].
    replace e2 with e1 by lia. split; [now rewrite He1' in *|].
    simpl in Hd. lia.
  - (* carry to the next power of two *)
    assert (Hd' : Zdigits2 m2 = prec + 1) by lia.
    assert (Hm2pos : 0 < m2) by lia.
    pose proof (Zdigits2_bounds m2 Hm2pos) as Hb2. rewrite Hd' in Hb2.
    replace (prec + 1 - 1) with prec in Hb2 by lia.
    assert (Em2 : m2 = 2 ^ prec) by lia.
    assert (Hn2 : fexp prec emax (Zdigits2 m2 + e1) - e1 = 1)
      by (rewrite Hd'; unfold_format; lia).
    rewrite Hn2 in Hm3, He2. simpl Z.max in Hm3, He2.
    assert (Em3 : shr_m mrs2 = 2 ^ (prec - 1)).
    { rewrite Hm3, Em2. reflexivity. }
    rewrite Em3. change (2 ^ (prec - 1)) with (Zpos 4503599627370496).
    replace (e2 <=? emax - prec) with true
      by (symmetry; apply Z.leb_le; unfold_format; lia).
    exists 4503599627370496%positive, e2. split; [reflexivity|]. split.
    + replace (IZR (Zpos 4503599627370496) * bpow e2)%R with (IZR m2 * bpow e1)%R.
      * now rewrite He1' in *.
      * rewrite Em2. replace e2 with (1 + e1) by lia.
        rewrite bpow_add, bpow_1. change (2 ^ prec) with 9007199254740992. lra.
    + change (Zpos (digits2_pos 4503599627370496)) with prec. lia.
Qed.

(** ** Products and quotients *)

Lemma canonical_of_valid (f : float) (s : bool) (m : positive) (e : Z) :
  Prim2SF f = S754_finite s m e ->
  fexp prec emax (Zpos (digits2_pos m) + e) = e /\ e <= emax - prec.
Proof.
  intros E. pose proof (Prim2SF_valid f) as H. rewrite E in H.
  unfold valid_binary, bounded, canonical_mantissa in H.
  apply andb_true_iff in H. destruct H as [H1 H2].
  split; [now apply Z.eqb_eq|now apply Z.leb_le].
Qed.

Lemma in_range_value_pos (lo hi : Z) (f : float) :
  in_range lo hi f -> (0 < value f)%R.
Proof.
  unfold in_range, value. destruct (Prim2SF f) as [| | |[] m e]; try contradiction.
  intros _. cbn [SF2R cond_Zopp]. pose proof (bpow_pos e).
  assert (0 < IZR (Zpos m))%R by (apply IZR_lt; lia). nra.
Qed.

Lemma in_range_weaken (lo hi lo' hi' : Z) (f : float) :
  lo' <= lo -> hi <= hi' -> in_range lo hi f -> in_range lo' hi' f.
Proof.
  unfold in_range. destruct (Prim2SF f) as [| | |[] m e]; try contradiction. lia.
Qed.

(** The unit in the last place of a positive real of magnitude [D] is at
    most [2^-52] times it. *)
Lemma ulp_relative (m e : Z) (x : R) :
  0 < m -> (IZR m * bpow e <= x)%R ->
  (bpow (Zdigits2 m + e - prec) <= bpow (-52) * x)%R.
Proof.
  intros Hm Hx. pose proof (Zdigits2_bounds_R m Hm) as [Hb _].
  replace (Zdigits2 m + e - prec) with (-52 + ((Zdigits2 m - 1) + e))
    by (unfold prec; lia).
  rewrite !bpow_add. pose proof (bpow_pos (-52)). pose proof (bpow_pos e).
  assert (bpow (Zdigits2 m - 1) * bpow e <= x)%R.
  { apply Rle_trans with (IZR m * bpow e)%R; [|exact Hx].
    apply Rmult_le_compat_r; lra. }
  apply Rmult_le_compat_l; lra.
Qed.

(** The product of two positive doubles, away from underflow and overflow. *)
Lemma mul_in_range (x y : float) (l1 h1 l2 h2 : Z) :
  in_range l1 h1 x -> in_range l2 h2 y ->
  emin + prec <= l1 + l2 - 1 -> h1 + h2 < emax ->
  in_range (l1 + l2 - 1) (h1 + h2 + 1) (x * y) /\
  (Rabs (value (x * y) - value x * value y) <= bpow (-52) * (value x * value y))%R.
Proof.
  intros Hx Hy Hlo Hhi. unfold in_range, value in *. rewrite mul_spec.
  destruct (Prim2SF x) as [| | |[] mx ex] eqn:Ex; try contradiction.
  destruct (Prim2SF y) as [| | |[] my ey] eqn:Ey; try contradiction.
  destruct (canonical_of_valid x _ _ _ Ex) as [Hcx _].
  destruct (canonical_of_valid y _ _ _ Ey) as [Hcy _].
  unfold SF64mul, SFmul. cbn [xorb SF2R cond_Zopp].
  pose proof (Zdigits2_mul (Zpos mx) (Zpos my) ltac:(lia) ltac:(lia)) as Hmul.
  change (Z.pos mx * Z.pos my) with (Z.pos (mx * my)) in Hmul.
  cbn [Zdigits2] in Hmul.
  set (X := (IZR (Zpos mx) * bpow ex * (IZR (Zpos my) * bpow ey))%R).
  assert (EX : X = (IZR (Zpos (mx * my)) * bpow (ex + ey))%R).
  { subst X. rewrite Pos2Z.inj_mul, mult_IZR, bpow_add. ring. }
  destruct (binary_round_aux_error false (Zpos (mx * my)) (ex + ey) loc_Exact X)
    as (p & e' & E & Herr & Hd).
  - lia.
  - cbn [Zdigits2]. unfold_format. lia.
  - cbn [Zdigits2]. lia.
  - cbn [Zdigits2]. lia.
  - rewrite EX, plus_IZR. pose proof (bpow_pos (ex + ey)). lra.
  - rewrite E. cbn [SF2R cond_Zopp]. cbn [Zdigits2] in Hd. split; [lia|].
    eapply Rle_trans; [exact Herr|].
    apply (ulp_relative (Zpos (mx * my)) (ex + ey) X); [lia|]. rewrite EX. lra.
Qed.



(** ** Magnitudes from comparisons *)


Lemma in_range_finite (lo hi : Z) (f : float) :
  in_range lo hi f -> is_nan f = false /\ is_infinity f = false.
Proof.
  unfold in_range. rewrite is_nan_spec, is_infinity_spec.
  destruct (Prim2SF f) as [| | |[] m e]; try contradiction. now split.
Qed.

(** A double between two positive normal doubles has its magnitude between
    theirs. *)
Lemma in_range_between (f lo hi : float) (mlo mhi : positive) (elo ehi : Z) :
  Prim2SF lo = S754_finite false mlo elo ->
  Prim2SF hi = S754_finite false mhi ehi ->
  emin < elo ->
  (lo <=? f)%float = true -> (f <=? hi)%float = true ->
  in_range (elo + prec) (ehi + prec) f.
Proof.
  intros Elo Ehi Hmin. rewrite !leb_spec, Elo, Ehi. unfold SFleb, in_range.
  destruct (Prim2SF f) as [sf|sf| |sf m e] eqn:Ef; cbn [SFcompare].
  - discriminate.
  - destruct sf; discriminate.
  - discriminate.
  - destruct sf; [discriminate|].
    destruct (canonical_of_valid f _ _ _ Ef) as [Hc _].
    destruct (Z.compare_spec elo e), (Z.compare_spec e ehi);
      try discriminate; intros _ _; unfold_format; lia.
Qed.

Lemma Rabs_le_both (x b : R) : (Rabs x <= b)%R -> (- b <= x <= b)%R.
Proof.
  intros H. pose proof (Rle_abs x). pose proof (Rle_abs (- x)) as H'.
  rewrite Rabs_Ropp in H'. lra.
Qed.


Lemma bpow_m50 : bpow (-50) = (4 * bpow (-52))%R.
Proof.
  replace (-50) with (2 + -52) by lia. rewrite bpow_add.
  replace 2 with (1 + 1) at 1 by lia. rewrite bpow_add, bpow_1. lra.
Qed.




Lemma in_range_pi : in_range 2 2 pi.
Proof. unfold in_range. vm_compute. split; discriminate. Qed.

Lemma in_range_two_pi : in_range 3 3 (2 * pi).
Proof. unfold in_range. vm_compute. split; discriminate. Qed.

(** ** The constant [pi] and the real number [PI] *)

Lemma bpow_m52 : bpow (-52) = (/ 4503599627370496)%R.
Proof. unfold bpow. simpl. lra. Qed.

Lemma bpow_m51 : bpow (-51) = (/ 2251799813685248)%R.
Proof. unfold bpow. simpl. lra. Qed.

Lemma value_pi : value pi = (7074237752028440 / 2251799813685248)%R.
Proof.
  unfold value. rewrite Prim2SF_pi. cbn [SF2R cond_Zopp]. rewrite bpow_m51. lra.
Qed.

Lemma value_two_pi : value (2 * pi) = (2 * value pi)%R.
Proof.
  unfold value. rewrite Prim2SF_two_pi, Prim2SF_pi. cbn [SF2R cond_Zopp].
  replace (-50) with (1 + -51) by lia. rewrite bpow_add, bpow_1. lra.
Qed.

Lemma value_two : value 2 = 2%R.
Proof.
  unfold value. change (Prim2SF 2) with (S754_finite false 4503599627370496 (-51)).
  cbn [SF2R cond_Zopp]. rewrite bpow_m51. lra.
Qed.

Lemma in_range_two : in_range 2 2 2.
Proof. unfold in_range. vm_compute. split; discriminate. Qed.

(** [math.pi] is the double nearest to the real [PI]: it is within half a
    unit in its last place, [2^-52]. *)
Lemma pi_is_close_to_PI : (Rabs (value pi - PI) <= bpow (-52))%R.
Proof.
  rewrite value_pi, bpow_m52.
  pose proof (PI_2_3_7_ineq 8) as [Hlo Hhi].
  unfold sum_f_R0, tg_alt, PI_2_3_7_tg, Ratan_seq in Hlo, Hhi.
  simpl in Hlo, Hhi.
  apply Rabs_le. split; lra.
Qed.

Lemma PI_gt_3 : (3 < PI)%R.
Proof.
  pose proof pi_is_close_to_PI as H. apply Rabs_le_both in H.
  rewrite value_pi, bpow_m52 in H. lra.
Qed.

Lemma tolerance_1e9 : (bpow (-50) <= / 1000000000)%R.
Proof. rewrite bpow_m50, bpow_m52. lra. Qed.

(** ** The fields against the real formulas *)

(** Two relative errors in a row. *)
Lemma close_trans (a b c e1 e2 : R) :
  (0 < c)%R -> (0 <= e1)%R -> (0 <= e2)%R ->
  (Rabs (a - b) <= e1 * b)%R -> (Rabs (b - c) <= e2 * c)%R ->
  (Rabs (a - c) <= (e1 + e2 + e1 * e2) * c)%R.
Proof.
  intros Hc He1 He2 Hab Hbc.
  apply Rabs_le_both in Hab. apply Rabs_le_both in Hbc. apply Rabs_le.
  assert (b <= (1 + e2) * c)%R by lra.
  assert (e1 * b <= e1 * ((1 + e2) * c))%R by (apply Rmult_le_compat_l; lra).
  split; nra.
Qed.

Lemma eps_facts : (0 < bpow (-52) <= / 1000)%R.
Proof. rewrite bpow_m52. lra. Qed.

(** * The order of the doubles and the order of the reals *)

(** The mantissa of a number of the format has 53 digits at most, and
    exactly 53 above the smallest exponent. *)
Lemma bounded_digits (m : positive) (e : Z) :
  bounded prec emax m e = true ->
  emin <= e <= emax - prec /\ Zpos (digits2_pos m) <= prec /\
  (emin < e -> Zpos (digits2_pos m) = prec).
Proof.
  unfold bounded, canonical_mantissa. intros H.
  apply andb_true_iff in H. destruct H as [H1 H2].
  apply Z.eqb_eq in H1. apply Z.leb_le in H2. unfold_format. lia.
Qed.

Lemma bounded_mantissa_R (m : positive) (e : Z) :
  bounded prec emax m e = true ->
  (IZR (Zpos m) < bpow prec)%R /\ (emin < e -> (bpow (prec - 1) <= IZR (Zpos m))%R).
Proof.
  intros H. destruct (bounded_digits m e H) as (_ & Hd & Hn).
  pose proof (Zdigits2_bounds_R (Zpos m) ltac:(lia)) as [Hlo Hhi].
  cbn [Zdigits2] in Hlo, Hhi. split.
  - eapply Rlt_le_trans; [exact Hhi|]. apply bpow_le. lia.
  - intros He. rewrite <- (Hn He). exact Hlo.
Qed.

(** Two positive numbers of the format compare as their exponents, then
    as their mantissas. *)
Lemma finite_lt_exponent (m1 m2 : positive) (e1 e2 : Z) :
  bounded prec emax m1 e1 = true -> bounded prec emax m2 e2 = true ->
  e1 < e2 -> (IZR (Zpos m1) * bpow e1 < IZR (Zpos m2) * bpow e2)%R.
Proof.
  intros H1 H2 He.
  destruct (bounded_mantissa_R m1 e1 H1) as [Hhi _].
  destruct (bounded_digits m1 e1 H1) as (Hr1 & _).
  destruct (bounded_mantissa_R m2 e2 H2) as [_ Hlo].
  specialize (Hlo ltac:(lia)).
  pose proof (bpow_pos e1). pose proof (bpow_pos e2).
  apply Rlt_le_trans with (bpow prec * bpow e1)%R.
  - apply Rmult_lt_compat_r; assumption.
  - apply Rle_trans with (bpow (prec - 1) * bpow e2)%R.
    + rewrite <- !bpow_add. apply bpow_le. lia.
    + apply Rmult_le_compat_r; lra.
Qed.

Lemma finite_compare_value (m1 m2 : positive) (e1 e2 : Z) :
  bounded prec emax m1 e1 = true -> bounded prec emax m2 e2 = true ->
  match match Z.compare e1 e2 with
        | Lt => Lt | Gt => Gt | Eq => Pos.compare_cont Eq m1 m2
        end with
  | Lt => (IZR (Zpos m1) * bpow e1 < IZR (Zpos m2) * bpow e2)%R
  | Eq => m1 = m2 /\ e1 = e2
  | Gt => (IZR (Zpos m2) * bpow e2 < IZR (Zpos m1) * bpow e1)%R
  end.
Proof.
  intros H1 H2. destruct (Z.compare_spec e1 e2) as [He|He|He].
  - subst e2. change (Pos.compare_cont Eq m1 m2) with (Pos.compare m1 m2).
    pose proof (bpow_pos e1).
    destruct (Pos.compare_spec m1 m2) as [Hm|Hm|Hm].
    + now split.
    + apply Rmult_lt_compat_r; [assumption|]. apply IZR_lt. lia.
    + apply Rmult_lt_compat_r; [assumption|]. apply IZR_lt. lia.
  - now apply finite_lt_exponent.
  - now apply finite_lt_exponent.
Qed.

Lemma pos_value (m : positive) (e : Z) : (0 < IZR (Zpos m) * bpow e)%R.
Proof.
  apply Rmult_lt_0_compat; [apply IZR_lt; lia|apply bpow_pos].
Qed.

Lemma neg_value (m : positive) (e : Z) :
  (IZR (- Zpos m) * bpow e = - (IZR (Zpos m) * bpow e))%R.
Proof. rewrite opp_IZR. ring. Qed.

(** [SFcompare] on two doubles that stand for real numbers is the
    comparison of these numbers. *)
Lemma SFcompare_value (a b : spec_float) :
  valid_binary a = true -> valid_binary b = true ->
  is_finite_sf a = true -> is_finite_sf b = true ->
  match SFcompare a b with
  | Some Lt => (SF2R a < SF2R b)%R
  | Some Eq => SF2R a = SF2R b
  | Some Gt => (SF2R b < SF2R a)%R
  | None => False
  end.
Proof.
  destruct a as [sa|sa| |sa ma ea]; try discriminate;
    destruct b as [sb|sb| |sb mb eb]; try discriminate;
    cbn [valid_binary is_finite_sf SFcompare SF2R]; intros Ha Hb _ _.
  - reflexivity.
  - pose proof (pos_value mb eb).
    destruct sb; cbn [cond_Zopp]; rewrite ?neg_value; lra.
  - pose proof (pos_value ma ea).
    destruct sa; cbn [cond_Zopp]; rewrite ?neg_value; lra.
  - pose proof (pos_value ma ea). pose proof (pos_value mb eb).
    pose proof (finite_compare_value ma mb ea eb Ha Hb) as Hc.
    destruct sa, sb; cbn [cond_Zopp]; rewrite ?neg_value.
    + destruct (ea ?= eb); [destruct (Pos.compare_cont Eq ma mb)| |];
        cbn [CompOpp]; try (destruct Hc as [-> ->]; reflexivity); lra.
    + lra.
    + lra.
    + destruct (ea ?= eb); [destruct (Pos.compare_cont Eq ma mb)| |];
        try (destruct Hc as [-> ->]; reflexivity); lra.
Qed.

Lemma finite_spec (f : float) :
  finite f = true -> valid_binary (Prim2SF f) = true /\ is_finite_sf (Prim2SF f) = true.
Proof. intros H. split; [apply Prim2SF_valid|exact H]. Qed.

(** Python's [<=] and [<] on two finite doubles are those of the reals. *)
Lemma leb_value (a b : float) :
  finite a = true -> finite b = true ->
  ((a <=? b)%float = true <-> (value a <= value b)%R).
Proof.
  intros Ha Hb. rewrite leb_spec. unfold SFleb, value.
  pose proof (SFcompare_value (Prim2SF a) (Prim2SF b) (Prim2SF_valid a)
                (Prim2SF_valid b) Ha Hb) as H.
  destruct (SFcompare (Prim2SF a) (Prim2SF b)) as [[]|]; split; intros; lra || discriminate || reflexivity || contradiction.
Qed.

Lemma ltb_value (a b : float) :
  finite a = true -> finite b = true ->
  ((a <? b)%float = true <-> (value a < value b)%R).
Proof.
  intros Ha Hb. rewrite ltb_spec. unfold SFltb, value.
  pose proof (SFcompare_value (Prim2SF a) (Prim2SF b) (Prim2SF_valid a)
                (Prim2SF_valid b) Ha Hb) as H.
  destruct (SFcompare (Prim2SF a) (Prim2SF b)) as [[]|]; split; intros; lra || discriminate || reflexivity || contradiction.
Qed.

(** * The value of a rounding *)

(** ** Shifting out zeros *)

Lemma shr_1_even (m : Z) :
  0 <= m -> Z.even m = true ->
  shr_1 (Build_shr_record m false false) = Build_shr_record (Z.div2 m) false false.
Proof. destruct m as [|[p|p|]|p]; cbn; intros; try reflexivity; try discriminate; lia. Qed.

Lemma shr_iter_exact (n : nat) (m : Z) :
  0 <= m -> m = Z.shiftr m (Z.of_nat n) * 2 ^ Z.of_nat n ->
  Nat.iter n shr_1 (Build_shr_record m false false) =
  Build_shr_record (Z.shiftr m (Z.of_nat n)) false false.
Proof.
  intros Hm. induction n as [|n IH]; intros Hdiv.
  - cbn [Nat.iter]. now rewrite Z.shiftr_0_r.
  - rewrite Nat.iter_succ.
    assert (Hs : Z.shiftr m (Z.of_nat n) = 2 * Z.shiftr m (Z.of_nat (S n))).
    { rewrite !Z.shiftr_div_pow2 in * by lia.
      rewrite Nat2Z.inj_succ, Z.pow_succ_r in Hdiv by lia.
      rewrite Nat2Z.inj_succ, Z.pow_succ_r by lia.
      set (k := 2 ^ Z.of_nat n) in *.
      assert (0 < k) by (apply Z.pow_pos_nonneg; lia).
      set (q := m / (2 * k)) in *.
      rewrite Hdiv at 1. replace (q * (2 * k)) with ((2 * q) * k) by ring.
      now rewrite Z.div_mul by lia. }
    rewrite IH.
    + rewrite shr_1_even.
      * f_equal. rewrite Hs, Z.div2_div, Z.mul_comm, Z.div_mul by lia. reflexivity.
      * apply Z.shiftr_nonneg. lia.
      * rewrite Hs. now rewrite Z.even_mul.
    + rewrite Hs. rewrite Hdiv at 1.
      rewrite Nat2Z.inj_succ, Z.pow_succ_r by lia. ring.
Qed.

Lemma shr_fexp_exact (m e : Z) :
  0 <= m ->
  m = Z.shiftr m (Z.max 0 (fexp prec emax (Zdigits2 m + e) - e)) *
      2 ^ Z.max 0 (fexp prec emax (Zdigits2 m + e) - e) ->
  loc_of_shr_record (fst (shr_fexp prec emax m e loc_Exact)) = loc_Exact.
Proof.
  intros Hm. unfold shr_fexp.
  set (n := fexp prec emax (Zdigits2 m + e) - e).
  cbn [shr_record_of_loc]. destruct n as [|p|p]; cbn [shr Z.max fst]; try reflexivity.
  change (Z.max 0 (Zpos p)) with (Zpos p). intros Hdiv.
  rewrite iter_pos_nat. rewrite <- (positive_nat_Z p) in Hdiv.
  now rewrite (shr_iter_exact _ _ Hm Hdiv).
Qed.

(** ** The rounded mantissa *)

(** [binary_round_aux] on a mantissa [m] that carries the digits of the
    format: with [n] the number of digits to drop, [m1] the mantissa
    without them and [e1] its exponent, the result is [r * 2 ^ e1] for
    [r = m1] or [r = m1 + 1], and [r = m1] when nothing is dropped. *)
Lemma binary_round_aux_value (s : bool) (m e : Z) (l : location) :
  0 <= m -> e <= fexp prec emax (Zdigits2 m + e) ->
  let n := fexp prec emax (Zdigits2 m + e) - e in
  let m1 := Z.shiftr m n in
  let e1 := e + n in
  exists r, m1 <= r <= m1 + 1 /\
    (l = loc_Exact -> m = m1 * 2 ^ n -> r = m1) /\
    (n = 0 -> r = round_nearest_even m l) /\
    (  (binary_round_aux prec emax s m e l = S754_zero s /\ r = 0)
    \/ (binary_round_aux prec emax s m e l = S754_infinity s /\
        (bpow emax <= IZR r * bpow e1)%R)
    \/ (exists p e', binary_round_aux prec emax s m e l = S754_finite s p e' /\
          bounded prec emax p e' = true /\
          (IZR (Zpos p) * bpow e' = IZR r * bpow e1)%R)).
Proof.
  intros Hm HP n m1 e1. unfold binary_round_aux.
  assert (Hn : Z.max 0 n = n) by (subst n; lia).
  destruct (shr_fexp prec emax m e l) as [mrs1 e1'] eqn:E1.
  assert (Hun : n = 0 -> shr_m mrs1 = m /\ loc_of_shr_record mrs1 = l).
  { intros Hn0. unfold shr_fexp in E1. fold n in E1. rewrite Hn0 in E1.
    cbn [shr] in E1. injection E1 as <- _.
    split; [apply shr_record_of_loc_m|destruct l as [|[]]; reflexivity]. }
  pose proof (shr_fexp_spec m e l Hm) as [Hm1 He1]. rewrite E1 in Hm1, He1.
  cbn [fst snd] in Hm1, He1. fold n in Hm1, He1. rewrite Hn in Hm1, He1.
  fold m1 in Hm1. fold e1 in He1. subst e1'.
  assert (H1 : 0 <= m1) by (apply Z.shiftr_nonneg; exact Hm).
  set (m2 := round_nearest_even (shr_m mrs1) (loc_of_shr_record mrs1)).
  pose proof (round_nearest_even_bounds (shr_m mrs1) (loc_of_shr_record mrs1)) as Hr.
  fold m2 in Hr. rewrite Hm1 in Hr.
  exists m2. split; [exact Hr|]. split.
  { intros -> Hdiv. subst m2.
    pose proof (shr_fexp_exact m e Hm) as Hex. fold n in Hex. rewrite Hn in Hex.
    fold m1 in Hex. specialize (Hex Hdiv). rewrite E1 in Hex. cbn [fst] in Hex.
    rewrite Hex, Hm1. reflexivity. }
  split.
  { intros Hn0. destruct (Hun Hn0) as [H1' H2']. subst m2. now rewrite H1', H2'. }
  clear Hun.
  (* the digits of the truncated and of the rounded mantissa *)
  assert (Hd1 : Zdigits2 m1 = Z.max 0 (Zdigits2 m - n)).
  { unfold m1. apply Zdigits2_shiftr; lia. }
  pose proof (Zdigits2_nonneg m) as Hdm. clearbody m1.
  assert (He1 : emin <= e1) by (subst e1 n; unfold_format; lia).
  assert (Hd1' : Zdigits2 m1 <= prec) by (subst n; unfold_format; lia).
  assert (Hbig : emin < e1 -> Zdigits2 m1 = prec) by (subst e1 n; unfold_format; lia).
  assert (Hd2 : Zdigits2 m1 <= Zdigits2 m2 <= Zdigits2 m1 + 1).
  { pose proof (Zdigits2_succ m1 H1).
    pose proof (Zdigits2_le m1 m2 H1 ltac:(lia)).
    pose proof (Zdigits2_le m2 (m1 + 1) ltac:(lia) ltac:(lia)). lia. }
  set (n2 := fexp prec emax (Zdigits2 m2 + e1) - e1).
  assert (Hn2 : Z.max 0 n2 = 0 \/ (Z.max 0 n2 = 1 /\ m2 = 2 ^ prec)).
  { destruct (Z_le_gt_dec (Zdigits2 m2) prec) as [Hle|Hgt].
    - left. subst n2. unfold_format. lia.
    - right. assert (Hd54 : Zdigits2 m2 = prec + 1) by lia.
      split; [subst n2; unfold_format; lia|].
      assert (0 < m2).
      { destruct (Z.eq_dec m2 0) as [E|E]; [rewrite E in Hd54; cbn in Hd54; unfold prec in Hd54; lia|lia]. }
      pose proof (Zdigits2_bounds m2 ltac:(lia)) as Hb2. rewrite Hd54 in Hb2.
      replace (prec + 1 - 1) with prec in Hb2 by lia.
      assert (0 < m1).
      { destruct (Z.eq_dec m1 0) as [E|E]; [|lia].
        rewrite E in Hd1'. exfalso. rewrite E in Hr.
        assert (m2 <= 1) by lia.
        assert (2 ^ prec <= 1) by lia. unfold prec in *. lia. }
      pose proof (Zdigits2_bounds m1 ltac:(lia)) as Hb1.
      assert (2 ^ Zdigits2 m1 <= 2 ^ prec) by (apply Z.pow_le_mono_r; lia).
      lia. }
  destruct (shr_fexp prec emax m2 e1 loc_Exact) as [mrs2 e2] eqn:E2.
  pose proof (shr_fexp_spec m2 e1 loc_Exact ltac:(lia)) as [Hm3 He2].
  rewrite E2 in Hm3, He2. cbn [fst snd] in Hm3, He2. fold n2 in Hm3, He2.
  (* nothing is lost by the second shift *)
  assert (Hval : shr_m mrs2 * 2 ^ (e2 - e1) = m2 /\ e1 <= e2 <= e1 + 1 /\
                 Zdigits2 (shr_m mrs2) <= prec /\
                 (emin < e2 -> 0 < m2 -> Zdigits2 (shr_m mrs2) = prec)).
  { destruct Hn2 as [H0|[H1' Hpow]].
    - rewrite H0 in Hm3, He2. rewrite Z.shiftr_0_r in Hm3.
      rewrite Hm3, He2. replace (e1 + 0 - e1) with 0 by lia.
      split; [lia|]. split; [lia|].
      assert (Zdigits2 m2 <= prec) by (subst n2; unfold_format; lia).
      split; [assumption|]. intros Hlt _. replace (e1 + 0) with e1 in Hlt by lia.
      specialize (Hbig Hlt). lia.
    - rewrite H1' in Hm3, He2. rewrite Hm3, He2, Hpow.
      replace (e1 + 1 - e1) with 1 by lia.
      split; [reflexivity|]. split; [lia|]. split; [reflexivity|].
      intros _ _. reflexivity. }
  destruct Hval as (Hval & He12 & Hd3 & Hd3').
  assert (H3 : 0 <= shr_m mrs2) by (rewrite Hm3; apply Z.shiftr_nonneg; lia).
  assert (HvalR : (IZR (shr_m mrs2) * bpow e2 = IZR m2 * bpow e1)%R).
  { rewrite <- Hval, mult_IZR, IZR_pow2 by lia.
    replace e2 with ((e2 - e1) + e1) at 1 by lia. rewrite bpow_add. ring. }
  destruct (shr_m mrs2) as [|p|p] eqn:Ep; [left|right|lia].
  - split; [reflexivity|]. lia.
  - destruct (e2 <=? emax - prec) eqn:Ee.
    + right. exists p, e2. split; [reflexivity|]. split; [|exact HvalR].
      unfold bounded, canonical_mantissa. rewrite Ee, andb_true_r.
      apply Z.eqb_eq. apply Z.leb_le in Ee. cbn [Zdigits2] in Hd3, Hd3'.
      assert (0 < m2) by lia.
      destruct (Z_le_gt_dec e2 emin) as [Hs|Hs].
      * unfold_format. lia.
      * specialize (Hd3' ltac:(lia) ltac:(lia)). unfold_format. lia.
    + left. split; [reflexivity|]. apply Z.leb_gt in Ee.
      rewrite <- HvalR. cbn [Zdigits2] in Hd3'.
      assert (0 < m2) by lia.
      specialize (Hd3' ltac:(unfold_format; lia) ltac:(lia)).
      pose proof (Zdigits2_bounds_R (Zpos p) ltac:(lia)) as [Hlo _].
      cbn [Zdigits2] in Hlo. rewrite Hd3' in Hlo.
      pose proof (bpow_pos e2).
      apply Rle_trans with (bpow (prec - 1) * bpow e2)%R.
      * rewrite <- bpow_add. apply bpow_le. unfold_format. lia.
      * apply Rmult_le_compat_r; lra.
Qed.

(** ** The grid of the format *)

Lemma bpow_lt (a b : Z) : a < b -> (bpow a < bpow b)%R.
Proof.
  intros H. replace b with ((b - a) + a) by lia. rewrite bpow_add.
  pose proof (bpow_pos a). pose proof (bpow_le 1 (b - a) ltac:(lia)) as H1.
  rewrite bpow_1 in H1.
  assert (2 * bpow a <= bpow (b - a) * bpow a)%R by (apply Rmult_le_compat_r; lra).
  lra.
Qed.

Lemma truncation_bounds (m e : Z) :
  0 <= m -> e <= fexp prec emax (Zdigits2 m + e) ->
  let n := fexp prec emax (Zdigits2 m + e) - e in
  let m1 := Z.shiftr m n in
  let e1 := e + n in
  0 <= m1 /\ emin <= e1 /\
  (emin < e1 -> (bpow (prec - 1) <= IZR m1)%R) /\
  (IZR m1 * bpow e1 <= IZR m * bpow e < IZR (m1 + 1) * bpow e1)%R /\
  ((IZR m * bpow e = IZR m1 * bpow e1)%R -> m = m1 * 2 ^ n).
Proof.
  intros Hm HP n m1 e1.
  assert (Hn : 0 <= n) by (subst n; lia).
  assert (H1 : 0 <= m1) by (apply Z.shiftr_nonneg; exact Hm).
  assert (Hd1 : Zdigits2 m1 = Z.max 0 (Zdigits2 m - n)).
  { unfold m1. apply Zdigits2_shiftr; lia. }
  pose proof (shiftr_floor_R m n Hm Hn) as [Hlo Hhi]. fold m1 in Hlo, Hhi.
  pose proof (Zdigits2_nonneg m) as Hdm.
  pose proof (bpow_pos e) as Hpe.
  split; [exact H1|]. split; [subst e1 n; unfold_format; lia|]. split.
  { intros He1.
    assert (Hd : Zdigits2 m1 = prec).
    { clearbody m1. subst e1 n. unfold_format. lia. }
    assert (0 < m1).
    { destruct (Z.eq_dec m1 0) as [E|E]; [|lia]. rewrite E in Hd. cbn in Hd.
      unfold prec in Hd. lia. }
    pose proof (Zdigits2_bounds_R m1 ltac:(lia)) as [Hb _]. now rewrite Hd in Hb. }
  unfold e1. rewrite !bpow_add. split.
  - split.
    + rewrite (Rmult_comm (bpow e)), <- Rmult_assoc.
      apply Rmult_le_compat_r; lra.
    + rewrite (Rmult_comm (bpow e)), <- Rmult_assoc.
      apply Rmult_lt_compat_r; [lra|].
      eapply Rlt_le_trans; [|exact Hhi]. apply IZR_lt. lia.
  - intros Heq. apply eq_IZR. rewrite mult_IZR, IZR_pow2 by lia.
    apply (Rmult_eq_reg_r (bpow e)); [|lra]. rewrite Heq. ring.
Qed.

(** No number of the format lies strictly between two neighbours of its
    grid. *)
Lemma grid_gap (g : spec_float) (m1 e1 : Z) :
  valid_binary g = true -> is_finite_sf g = true ->
  0 <= m1 -> emin <= e1 -> (emin < e1 -> (bpow (prec - 1) <= IZR m1)%R) ->
  (SF2R g < IZR (m1 + 1) * bpow e1)%R -> (SF2R g <= IZR m1 * bpow e1)%R.
Proof.
  intros Hv Hf Hm1 He1 Hbig Hlt.
  pose proof (bpow_pos e1) as Hp1.
  assert (Hnn : (0 <= IZR m1 * bpow e1)%R).
  { apply Rmult_le_pos; [apply IZR_le; lia|lra]. }
  destruct g as [sg|sg| |sg mg eg]; try discriminate; cbn [SF2R] in *; try lra.
  pose proof (pos_value mg eg) as Hpos.
  destruct sg; cbn [cond_Zopp] in *; [rewrite neg_value; lra|].
  cbn [valid_binary] in Hv.
  destruct (bounded_digits mg eg Hv) as (Heg & _).
  destruct (bounded_mantissa_R mg eg Hv) as [Hmg _].
  pose proof (bpow_pos eg) as Hpg.
  destruct (Z_le_gt_dec e1 eg) as [Hle|Hgt].
  - assert (Hg : (IZR (Zpos mg) * bpow eg = IZR (Zpos mg * 2 ^ (eg - e1)) * bpow e1)%R).
    { rewrite mult_IZR, IZR_pow2 by lia.
      replace eg with ((eg - e1) + e1) at 1 by lia. rewrite bpow_add. ring. }
    rewrite Hg in *. apply Rmult_lt_reg_r in Hlt; [|exact Hp1].
    apply lt_IZR in Hlt. apply Rmult_le_compat_r; [lra|]. apply IZR_le. lia.
  - specialize (Hbig ltac:(lia)).
    apply Rlt_le. apply Rlt_le_trans with (bpow prec * bpow eg)%R.
    + apply Rmult_lt_compat_r; assumption.
    + apply Rle_trans with (bpow (prec - 1) * bpow e1)%R.
      * rewrite <- !bpow_add. apply bpow_le. lia.
      * apply Rmult_le_compat_r; lra.
Qed.

(** A number of the format is below [2 ^ emax]. *)
Lemma finite_below_emax (g : spec_float) :
  valid_binary g = true -> (SF2R g < bpow emax)%R.
Proof.
  pose proof (bpow_pos emax).
  destruct g as [sg|sg| |sg mg eg]; cbn [SF2R valid_binary]; try lra.
  intros Hv. destruct (bounded_digits mg eg Hv) as (Heg & _).
  destruct (bounded_mantissa_R mg eg Hv) as [Hmg _].
  pose proof (pos_value mg eg). pose proof (bpow_pos eg).
  destruct sg; cbn [cond_Zopp]; [rewrite neg_value; lra|].
  apply Rlt_le_trans with (bpow prec * bpow eg)%R.
  - apply Rmult_lt_compat_r; assumption.
  - rewrite <- bpow_add. apply bpow_le. lia.
Qed.

Lemma SFleb_value (a b : spec_float) :
  valid_binary a = true -> valid_binary b = true ->
  is_finite_sf a = true -> is_finite_sf b = true ->
  (SFleb a b = true <-> (SF2R a <= SF2R b)%R).
Proof.
  intros Ha Hb Fa Fb. unfold SFleb.
  pose proof (SFcompare_value a b Ha Hb Fa Fb) as H.
  destruct (SFcompare a b) as [[]|]; split; intros;
    lra || discriminate || reflexivity || contradiction.
Qed.

(** ** Rounding to nearest is faithful *)

(** The nearest double of [m * 2 ^ e] is not below a double that
    [m * 2 ^ e] reaches and not above a double that reaches it, and it is
    the infinity from [2 ^ emax] on. *)
Lemma binary_round_aux_faithful (m e : Z) :
  0 <= m -> e <= fexp prec emax (Zdigits2 m + e) ->
  let f := binary_round_aux prec emax false m e loc_Exact in
  (forall g, valid_binary g = true -> is_finite_sf g = true ->
     (SF2R g <= IZR m * bpow e)%R -> SFleb g f = true) /\
  (forall g, valid_binary g = true -> is_finite_sf g = true ->
     (IZR m * bpow e <= SF2R g)%R -> SFleb f g = true) /\
  ((bpow emax <= IZR m * bpow e)%R -> f = S754_infinity false).
Proof.
  intros Hm HP f.
  destruct (truncation_bounds m e Hm HP) as (H1 & He1 & Hbig & [Hlo Hhi] & Hex).
  destruct (binary_round_aux_value false m e loc_Exact Hm HP)
    as (r & Hr & Hrex & _ & Hcases).
  fold f in Hcases.
  set (n := fexp prec emax (Zdigits2 m + e) - e) in *.
  set (m1 := Z.shiftr m n) in *. set (e1 := e + n) in *.
  clearbody m1 e1 n.
  pose proof (bpow_pos e1) as Hp1.
  assert (Hr1 : (IZR m1 * bpow e1 <= IZR r * bpow e1)%R).
  { apply Rmult_le_compat_r; [lra|]. apply IZR_le. lia. }
  assert (Hr2 : (IZR r * bpow e1 <= IZR (m1 + 1) * bpow e1)%R).
  { apply Rmult_le_compat_r; [lra|]. apply IZR_le. lia. }
  (* a double at or above the value is at or above the rounded value *)
  assert (Hup : forall g, valid_binary g = true -> is_finite_sf g = true ->
                  (IZR m * bpow e <= SF2R g)%R -> (IZR r * bpow e1 <= SF2R g)%R).
  { intros g Hv Hf Hg.
    destruct (Rle_lt_or_eq_dec _ _ Hlo) as [Hstrict|Heq].
    - destruct (Rlt_le_dec (SF2R g) (IZR (m1 + 1) * bpow e1)) as [Hc|Hc]; [|lra].
      pose proof (grid_gap g m1 e1 Hv Hf H1 He1 Hbig Hc). lra.
    - rewrite (Hrex eq_refl (Hex (eq_sym Heq))). lra. }
  assert (Hzero : SF2R (S754_zero false) = 0%R) by reflexivity.
  split; [|split].
  - intros g Hv Hf Hg.
    assert (Hgv : (SF2R g <= IZR r * bpow e1)%R).
    { pose proof (grid_gap g m1 e1 Hv Hf H1 He1 Hbig ltac:(lra)). lra. }
    destruct Hcases as [[-> Hr0]|[[-> _]|(p & e' & -> & Hb & Hval)]].
    + apply SFleb_value; try reflexivity; try assumption.
      rewrite Hzero. rewrite Hr0 in Hgv. lra.
    + destruct g as [sg|sg| |sg mg eg]; try discriminate; reflexivity.
    + apply SFleb_value; try reflexivity; try assumption.
      cbn [SF2R cond_Zopp]. lra.
  - intros g Hv Hf Hg. specialize (Hup g Hv Hf Hg).
    destruct Hcases as [[-> Hr0]|[[-> Hinf]|(p & e' & -> & Hb & Hval)]].
    + apply SFleb_value; try reflexivity; try assumption.
      rewrite Hzero. rewrite Hr0 in Hup. lra.
    + pose proof (finite_below_emax g Hv). lra.
    + apply SFleb_value; try reflexivity; try assumption.
      cbn [SF2R cond_Zopp]. lra.
  - intros Hbig'.
    destruct Hcases as [[-> Hr0]|[[-> _]|(p & e' & Hf & Hb & Hval)]].
    + exfalso. rewrite Hr0 in Hr.
      assert (m1 = 0) by lia. subst m1.
      assert (emin < e1 -> False).
      { intros Hc. specialize (Hbig Hc). pose proof (bpow_pos (prec - 1)). lra. }
      assert (e1 = emin) by lia.
      assert (bpow e1 < bpow emax)%R by (apply bpow_lt; unfold_format; lia).
      replace (IZR (0 + 1)) with 1%R in Hhi by reflexivity.
      lra.
    + reflexivity.
    + exfalso.
      assert (Hgv : (SF2R (S754_finite false p e') < bpow emax)%R)
        by (apply finite_below_emax; exact Hb).
      cbn [SF2R cond_Zopp] in Hgv.
      specialize (Hup (S754_finite false p e') Hb eq_refl).
      cbn [SF2R cond_Zopp] in Hup.
      (* the rounded value is at least the truncated one, which is at
         least [2 ^ emax] on the grid *)
      assert (Hg : (bpow emax <= IZR m1 * bpow e1)%R).
      { assert (Hv : valid_binary (S754_finite false 4503599627370496 (emax - prec)) = true)
          by reflexivity.
        destruct (Rlt_le_dec (IZR m1 * bpow e1) (bpow emax)) as [Hc|Hc]; [|exact Hc].
        exfalso.
        (* [2 ^ emax] is on the grid of [e1] *)
        assert (He1' : e1 <= emax).
        { destruct (Z_le_gt_dec e1 emax) as [Hle|Hgt]; [exact Hle|exfalso].
          assert (bpow emax < bpow e1 * 1)%R
            by (rewrite Rmult_1_r; apply bpow_lt; lia).
          specialize (Hbig ltac:(unfold_format; lia)).
          pose proof (bpow_ge_1 (prec - 1) ltac:(unfold prec; lia)).
          assert (bpow e1 * 1 <= IZR m1 * bpow e1)%R.
          { rewrite (Rmult_comm (IZR m1)). apply Rmult_le_compat_l; lra. }
          lra. }
        assert (Hpow : bpow emax = (IZR (2 ^ (emax - e1)) * bpow e1)%R).
        { rewrite IZR_pow2 by lia. rewrite <- bpow_add. f_equal. lia. }
        rewrite Hpow in Hc. apply Rmult_lt_reg_r in Hc; [|exact Hp1].
        apply lt_IZR in Hc.
        assert (IZR (m1 + 1) * bpow e1 <= bpow emax)%R.
        { rewrite Hpow. apply Rmult_le_compat_r; [lra|]. apply IZR_le. lia. }
        lra. }
      lra.
Qed.

Lemma valid_bounded (v : float) (s : bool) (m : positive) (e : Z) :
  Prim2SF v = S754_finite s m e -> bounded prec emax m e = true.
Proof. intros E. pose proof (Prim2SF_valid v) as H. now rewrite E in H. Qed.

(** The product of a positive double by itself, as a rounding. *)
Lemma square_as_rounding (v : float) (m : positive) (e : Z) :
  Prim2SF v = S754_finite false m e ->
  Prim2SF (v * v) = binary_round_aux prec emax false (Zpos (m * m)) (e + e) loc_Exact /\
  e + e <= fexp prec emax (Zdigits2 (Zpos (m * m)) + (e + e)) /\
  (value v * value v = IZR (Zpos (m * m)) * bpow (e + e))%R.
Proof.
  intros Ev. rewrite mul_spec, Ev. unfold value. rewrite Ev.
  split; [reflexivity|]. split.
  - destruct (bounded_digits m e (valid_bounded v _ _ _ Ev)) as (He & Hd & Hn).
    pose proof (Zdigits2_mul (Zpos m) (Zpos m) ltac:(lia) ltac:(lia)) as Hmul.
    change (Z.pos m * Z.pos m) with (Z.pos (m * m)) in Hmul.
    cbn [Zdigits2] in *.
    destruct (Z_le_gt_dec e emin) as [Hs|Hs].
    + unfold_format. lia.
    + specialize (Hn ltac:(lia)). unfold_format. lia.
  - cbn [SF2R cond_Zopp]. rewrite Pos2Z.inj_mul, mult_IZR, bpow_add. ring.
Qed.

(** Rounding the square to the nearest double is one of the faithful
    [pow]. *)
Lemma rounded_product_faithful : faithful_pow rounded_product.
Proof.
  intros v Hv Hi. unfold rounded_product.
  destruct (ltb_zero_positive v Hv) as [E|(m & e & E)].
  { rewrite is_infinity_spec, E in Hi. discriminate. }
  destruct (square_as_rounding v m e E) as (Ep & HP & Hval).
  destruct (binary_round_aux_faithful (Zpos (m * m)) (e + e) ltac:(lia) HP)
    as (Hlo & Hhi & Hinf).
  rewrite <- Ep, <- Hval in *.
  split; [|split].
  - intros g Hg Hle. rewrite leb_spec. apply Hlo; [apply Prim2SF_valid|exact Hg|exact Hle].
  - intros g Hg Hle. rewrite leb_spec. apply Hhi; [apply Prim2SF_valid|exact Hg|exact Hle].
  - intros Hbig. apply Prim2SF_inj. now rewrite (Hinf Hbig).
Qed.

(** * The square of CPython over a faithful [pow] *)

(** ** The branches of [float_pow] *)

Lemma Prim2SF_finite_cases (v : float) (s : bool) (m : positive) (e : Z) :
  Prim2SF v = S754_finite s m e ->
  is_nan v = false /\ is_infinity v = false /\ (v =? 0)%float = false /\
  (v <? 0)%float = s /\ Prim2SF (- v) = S754_finite (negb s) m e.
Proof.
  intros E. rewrite is_nan_spec, is_infinity_spec, eqb_spec, ltb_spec, opp_spec, E.
  rewrite Prim2SF_zero. destruct s; repeat split; reflexivity.
Qed.

(** The base that [float_pow] hands to [pow]: the absolute value. *)
Lemma float_square_finite (pw : float -> float) (v : float)
    (s : bool) (m : positive) (e : Z) :
  Prim2SF v = S754_finite s m e ->
  float_square pw v =
    (if (abs v =? 1)%float then Return 1%float
     else if is_infinity (pw (abs v))
          then Raise (OverflowError "(34, 'Numerical result out of range')")
          else Return (pw (abs v))) /\
  Prim2SF (abs v) = S754_finite false m e.
Proof.
  intros E. destruct (Prim2SF_finite_cases v s m e E) as (Hn & Hi & Hz & Hl & Ho).
  assert (Ha : Prim2SF (abs v) = S754_finite false m e) by (now rewrite abs_spec, E).
  split; [|exact Ha].
  unfold float_square. rewrite Hn, Hi, Hz, Hl.
  assert (Hiv : (if s then (- v)%float else v) = abs v).
  { apply Prim2SF_inj. rewrite Ha. destruct s; [exact Ho|exact E]. }
  cbv zeta. rewrite Hiv. reflexivity.
Qed.

Lemma float_square_opp (pw : float -> float) (f : float) :
  float_square pw (- f) = float_square pw f.
Proof.
  destruct (Prim2SF f) as [s|s| |s m e] eqn:E.
  - unfold float_square.
    assert (Hn : is_nan f = false) by (now rewrite is_nan_spec, E).
    assert (Hi : is_infinity f = false) by (now rewrite is_infinity_spec, E).
    assert (Hz : (f =? 0)%float = true) by (rewrite eqb_spec, E; now destruct s).
    assert (Hn' : is_nan (- f) = false) by (rewrite is_nan_spec, opp_spec, E; reflexivity).
    assert (Hi' : is_infinity (- f) = false)
      by (rewrite is_infinity_spec, opp_spec, E; reflexivity).
    assert (Hz' : (- f =? 0)%float = true)
      by (rewrite eqb_spec, opp_spec, E; now destruct s).
    now rewrite Hn, Hi, Hz, Hn', Hi', Hz'.
  - unfold float_square.
    assert (Hn : is_nan f = false) by (now rewrite is_nan_spec, E).
    assert (Hi : is_infinity f = true) by (now rewrite is_infinity_spec, E).
    assert (Hn' : is_nan (- f) = false) by (rewrite is_nan_spec, opp_spec, E; reflexivity).
    assert (Hi' : is_infinity (- f) = true)
      by (rewrite is_infinity_spec, opp_spec, E; reflexivity).
    rewrite Hn, Hi, Hn', Hi'. f_equal. apply Prim2SF_inj.
    now rewrite !abs_spec, opp_spec, E.
  - unfold float_square.
    assert (Hn : is_nan f = true) by (now rewrite is_nan_spec, E).
    assert (Hn' : is_nan (- f) = true) by (rewrite is_nan_spec, opp_spec, E; reflexivity).
    rewrite Hn, Hn'. f_equal. apply Prim2SF_inj. now rewrite opp_spec, E.
  - destruct (Prim2SF_finite_cases f s m e E) as (_ & _ & _ & _ & Ho).
    destruct (float_square_finite pw f s m e E) as [-> Ha].
    destruct (float_square_finite pw (- f) (negb s) m e Ho) as [-> Ha'].
    assert (Habs : abs (- f) = abs f) by (apply Prim2SF_inj; now rewrite Ha, Ha').
    now rewrite Habs.
Qed.

(** On a positive radius. *)
Lemma float_square_positive (pw : float -> float) (r : float) :
  (0 <? r)%float = true ->
  float_square pw r =
    (if is_infinity r then Return r
     else if (r =? 1)%float then Return 1%float
     else if is_infinity (pw r)
          then Raise (OverflowError "(34, 'Numerical result out of range')")
          else Return (pw r)) /\
  is_nan r = false.
Proof.
  intros Hr. destruct (ltb_zero_positive r Hr) as [E|(m & e & E)].
  - assert (Hn : is_nan r = false) by (now rewrite is_nan_spec, E).
    assert (Hi : is_infinity r = true) by (now rewrite is_infinity_spec, E).
    unfold float_square. rewrite Hn, Hi. split; [|reflexivity]. f_equal.
    apply Prim2SF_inj. now rewrite abs_spec, E.
  - destruct (Prim2SF_finite_cases r false m e E) as (Hn & Hi & _).
    destruct (float_square_finite pw r false m e E) as [-> Ha].
    assert (Habs : abs r = r) by (apply Prim2SF_inj; now rewrite Ha, E).
    rewrite Habs, Hi. now split.
Qed.

(** ** What faithfulness gives *)

Lemma positive_finite (a : float) (m : positive) (e : Z) :
  Prim2SF a = S754_finite false m e ->
  (0 <? a)%float = true /\ is_infinity a = false /\ finite a = true /\
  (0 < value a)%R.
Proof.
  intros E. rewrite ltb_spec, is_infinity_spec, Prim2SF_zero. unfold finite, value.
  rewrite E. repeat split. cbn [SF2R cond_Zopp]. apply pos_value.
Qed.

(** The result of a faithful [pow] is a zero, a positive number or the
    positive infinity. *)
Lemma pow_nonneg (pw : float -> float) (a : float) (m : positive) (e : Z) :
  faithful_pow pw -> Prim2SF a = S754_finite false m e ->
  sf_nonneg (Prim2SF (pw a)).
Proof.
  intros Hpw E. destruct (positive_finite a m e E) as (H0 & Hi & _ & Hv).
  destruct (Hpw a H0 Hi) as (Hlo & _ & _).
  specialize (Hlo 0%float eq_refl).
  assert (Hz : value 0 = 0%R) by reflexivity. rewrite Hz in Hlo.
  specialize (Hlo ltac:(nra)). rewrite leb_spec, Prim2SF_zero in Hlo.
  unfold SFleb in Hlo.
  destruct (Prim2SF (pw a)) as [s|[]| |[] p e']; cbn in *; try discriminate; exact I.
Qed.

(** The double [2 ^ (E + 52)]. *)
Lemma Prim2SF_power (E : Z) :
  emin <= E <= emax - prec ->
  Prim2SF (SF2Prim (S754_finite false 4503599627370496 E)) =
  S754_finite false 4503599627370496 E.
Proof.
  intros HE. apply Prim2SF_SF2Prim. cbn [valid_binary].
  unfold bounded, canonical_mantissa. apply andb_true_iff. split.
  - apply Z.eqb_eq. change (Zpos (digits2_pos 4503599627370496)) with 53.
    unfold_format. lia.
  - apply Z.leb_le. lia.
Qed.

Lemma value_below_magnitude (m : positive) (e k : Z) :
  Zpos (digits2_pos m) + e <= k -> (IZR (Zpos m) * bpow e < bpow k)%R.
Proof.
  intros Hk. pose proof (Zdigits2_bounds_R (Zpos m) ltac:(lia)) as [_ Hhi].
  cbn [Zdigits2] in Hhi. pose proof (bpow_pos e).
  apply Rlt_le_trans with (bpow (Zpos (digits2_pos m)) * bpow e)%R.
  - apply Rmult_lt_compat_r; assumption.
  - rewrite <- bpow_add. now apply bpow_le.
Qed.

Lemma value_above_magnitude (m : positive) (e : Z) :
  (bpow (Zpos (digits2_pos m) + e - 1) <= IZR (Zpos m) * bpow e)%R.
Proof.
  pose proof (Zdigits2_bounds_R (Zpos m) ltac:(lia)) as [Hlo _].
  cbn [Zdigits2] in Hlo. pose proof (bpow_pos e).
  replace (Zpos (digits2_pos m) + e - 1) with ((Zpos (digits2_pos m) - 1) + e) by lia.
  rewrite bpow_add. apply Rmult_le_compat_r; lra.
Qed.

(** A faithful [pow] keeps the square of a number below [2 ^ k] below
    [2 ^ (2k)]. *)
Lemma pow_within (pw : float -> float) (a : float) (m : positive) (e k : Z) :
  faithful_pow pw -> Prim2SF a = S754_finite false m e ->
  Zpos (digits2_pos m) + e <= k -> 2 * k < emax ->
  sf_within (Z.max (2 * k + 1) (emin + prec)) (Prim2SF (pw a)) /\
  sf_nonneg (Prim2SF (pw a)).
Proof.
  intros Hpw E Hk Hmax. pose proof (pow_nonneg pw a m e Hpw E) as Hnn.
  split; [|exact Hnn].
  destruct (positive_finite a m e E) as (H0 & Hi & _ & Hv).
  destruct (Hpw a H0 Hi) as (_ & Hhi & _).
  set (K := Z.max (2 * k) (emin + prec - 1)).
  set (g := SF2Prim (S754_finite false 4503599627370496 (K - 52))).
  assert (Eg : Prim2SF g = S754_finite false 4503599627370496 (K - 52)).
  { apply Prim2SF_power. subst K. unfold_format. lia. }
  assert (Hg : value g = bpow K).
  { unfold value. rewrite Eg. cbn [SF2R cond_Zopp].
    change (IZR 4503599627370496) with (IZR (2 ^ 52)). rewrite IZR_pow2 by lia.
    rewrite <- bpow_add. f_equal. lia. }
  specialize (Hhi g ltac:(unfold finite; rewrite Eg; reflexivity)).
  assert (Hx : (value a * value a <= value g)%R).
  { rewrite Hg. unfold value in *. rewrite E in *. cbn [SF2R cond_Zopp] in *.
    pose proof (value_below_magnitude m e k Hk) as Hlt.
    apply Rle_trans with (bpow k * bpow k)%R.
    - apply Rmult_le_compat; lra.
    - rewrite <- bpow_add. apply bpow_le. subst K. lia. }
  specialize (Hhi Hx). rewrite leb_spec, Eg in Hhi. unfold SFleb in Hhi.
  pose proof (Prim2SF_valid (pw a)) as Hval.
  destruct (Prim2SF (pw a)) as [s|[]| |[] p e'];
    cbn [sf_nonneg SFcompare] in *; try discriminate; try contradiction;
    cbn [sf_within]; try exact I.
  split; [exact Hval|].
  destruct (bounded_digits p e' Hval) as (_ & Hd & _).
  destruct (Z.compare_spec e' (K - 52)) as [He|He|He]; try discriminate;
    subst K; unfold_format; lia.
Qed.

(** [v ** 2] returns when the square stays below [2 ^ (emax - 1)]. *)
Lemma float_square_within (pw : float -> float) (v : float) (k : Z) :
  faithful_pow pw -> sf_within k (Prim2SF v) -> 2 * k < emax ->
  exists f, float_square pw v = Return f /\
            sf_within (Z.max (2 * k + 1) (emin + prec)) (Prim2SF f) /\
            sf_nonneg (Prim2SF f).
Proof.
  intros Hpw Hv Hk.
  destruct (Prim2SF v) as [s|s| |s m e] eqn:E; cbn [sf_within] in Hv;
    try contradiction.
  - exists 0%float. split; [|split; exact I].
    unfold float_square.
    assert (Hn : is_nan v = false) by (now rewrite is_nan_spec, E).
    assert (Hi : is_infinity v = false) by (now rewrite is_infinity_spec, E).
    assert (Hz : (v =? 0)%float = true) by (rewrite eqb_spec, E; now destruct s).
    now rewrite Hn, Hi, Hz.
  - destruct Hv as [Hb Hd].
    destruct (float_square_finite pw v s m e E) as [-> Ha].
    destruct (abs v =? 1)%float eqn:E1.
    + exists 1%float. split; [reflexivity|].
      rewrite eqb_spec, Ha, Prim2SF_one in E1. apply SFeqb_finite_eq in E1.
      injection E1 as -> ->. rewrite Prim2SF_one. cbn [sf_within sf_nonneg].
      split; [|exact I]. split; [reflexivity|].
      change (Zpos (digits2_pos 4503599627370496)) with 53 in *. unfold_format. lia.
    + destruct (pow_within pw (abs v) m e k Hpw Ha Hd Hk) as [Hw Hnn].
      exists (pw (abs v)). rewrite is_infinity_spec.
      destruct (Prim2SF (pw (abs v))) as [s'|s'| |s' p e']; cbn [sf_within] in Hw;
        try contradiction; cbn [is_infinite_sf]; split; try reflexivity; split; assumption.
Qed.

(** Two positive numbers of the format with the same value are the same. *)
Lemma finite_value_inj (m1 m2 : positive) (e1 e2 : Z) :
  bounded prec emax m1 e1 = true -> bounded prec emax m2 e2 = true ->
  (IZR (Zpos m1) * bpow e1 = IZR (Zpos m2) * bpow e2)%R ->
  m1 = m2 /\ e1 = e2.
Proof.
  intros H1 H2 Hv. pose proof (finite_compare_value m1 m2 e1 e2 H1 H2) as Hc.
  destruct (e1 ?= e2); [destruct (Pos.compare_cont Eq m1 m2)| |];
    try exact Hc; lra.
Qed.

(** A faithful [pow] returns the exact square whenever that is a double. *)
Lemma pow_exact (pw : float -> float) (a p : float) (m mp : positive) (e ep : Z) :
  faithful_pow pw -> Prim2SF a = S754_finite false m e ->
  Prim2SF p = S754_finite false mp ep ->
  value p = (value a * value a)%R -> pw a = p.
Proof.
  intros Hpw E Ep Hval.
  destruct (positive_finite a m e E) as (H0 & Hi & _ & Hv).
  destruct (positive_finite p mp ep Ep) as (_ & _ & Hfp & _).
  destruct (Hpw a H0 Hi) as (Hlo & Hhi & _).
  specialize (Hlo p Hfp ltac:(lra)). specialize (Hhi p Hfp ltac:(lra)).
  assert (Hf : finite (pw a) = true).
  { rewrite leb_spec, Ep in Hlo, Hhi. unfold SFleb, finite in *.
    destruct (Prim2SF (pw a)) as [s|[]| |s q eq]; cbn in *; try discriminate; reflexivity. }
  apply leb_value in Hlo; [|exact Hfp|exact Hf].
  apply leb_value in Hhi; [|exact Hf|exact Hfp].
  assert (Heq : value (pw a) = value p) by lra.
  apply Prim2SF_inj. unfold value in Heq. rewrite Ep in *.
  pose proof (Prim2SF_valid (pw a)) as Hvalid. pose proof (valid_bounded p _ _ _ Ep) as Hbp.
  pose proof (pos_value mp ep) as Hpos.
  destruct (Prim2SF (pw a)) as [s|s| |s q eq]; cbn [SF2R] in Heq;
    try discriminate Hf; cbn [cond_Zopp] in *; try lra.
  destruct s; cbn [cond_Zopp] in Heq.
  - rewrite neg_value in Heq. pose proof (pos_value q eq). lra.
  - destruct (finite_value_inj q mp eq ep Hvalid Hbp Heq) as [-> ->]. reflexivity.
Qed.

(** * The cell test *)

(** Every cell of the grid of a radius below [2 ^ 510] is computed without
    an exception. *)
Lemma distance_returns (pw : float -> float) (x y r : Z) :
  faithful_pow pw ->
  0 <= r < 2 ^ 510 -> Z.abs x <= 2 * r -> Z.abs y <= r ->
  exists d, distance pw x y = Return d.
Proof.
  intros Hpw Hr Hx Hy.
  assert (H511 : 2 ^ 511 = 2 * 2 ^ 510) by (now rewrite <- Z.pow_succ_r).
  assert (H1020 : 2 ^ 1020 = 2 ^ 510 * 2 ^ 510) by (now rewrite <- Z.pow_add_r).
  assert (HP : 0 < 2 ^ 510) by (now apply Z.pow_pos_nonneg).
  set (P := 2 ^ 510) in *.
  destruct (int_true_div_scale_within x 510) as (q & Eq & Hq).
  { apply Zdigits2_abs_lt_pow2; [lia|]. change (510 + 1) with 511. lia. }
  { reflexivity. }
  change (Z.max (510 + 1) (emin + prec)) with 511 in Hq.
  destruct (float_square_within pw q 511 Hpw Hq) as (q2 & Eq2 & _ & Hq2);
    [reflexivity|].
  destruct (float_of_int_within (y ^ 2) 1020) as (fy & Ey & _ & Hfy).
  { apply Zdigits2_abs_lt_pow2; [lia|]. rewrite Z.pow_2_r, H1020. nia. }
  { reflexivity. }
  specialize (Hfy ltac:(rewrite Z.pow_2_r; nia)).
  unfold distance. rewrite Eq. cbn [bind]. rewrite Eq2. cbn [bind].
  rewrite Ey. cbn [bind].
  exists (sqrt (q2 + fy)). apply math_sqrt_nonneg.
  rewrite add_spec. now apply SFadd_nonneg.
Qed.

Lemma is_on_circle_returns (pw : float -> float) (x y r : Z) :
  faithful_pow pw ->
  0 <= r < 2 ^ 510 -> Z.abs x <= 2 * r -> Z.abs y <= r ->
  exists b, is_on_circle pw x y r = Return b.
Proof.
  intros Hpw Hr Hx Hy.
  destruct (distance_returns pw x y r Hpw Hr Hx Hy) as (d & Ed).
  destruct (float_of_int_within r 510) as (fr & Er & _).
  { apply Zdigits2_abs_lt_pow2; lia. }
  { reflexivity. }
  unfold is_on_circle. rewrite Ed. cbn [bind]. rewrite Er. cbn [bind]. eauto.
Qed.

(** ** Mirroring *)

Lemma distance_mirror_x (pw : float -> float) (x y : Z) :
  distance pw (- x) y = distance pw x y.
Proof.
  destruct (Z.eq_dec x 0) as [->|Hx]; [reflexivity|].
  unfold distance. rewrite (int_true_div_scale_opp x Hx).
  destruct (int_true_div x scale_x) as [e|q]; [reflexivity|].
  cbn [bind]. now rewrite float_square_opp.
Qed.

Lemma distance_mirror_y (pw : float -> float) (x y : Z) :
  distance pw x (- y) = distance pw x y.
Proof.
  unfold distance. now replace ((- y) ^ 2) with (y ^ 2) by (rewrite !Z.pow_2_r; lia).
Qed.

Lemma is_on_circle_mirror_x (pw : float -> float) (x y r : Z) :
  is_on_circle pw (- x) y r = is_on_circle pw x y r.
Proof. unfold is_on_circle. now rewrite distance_mirror_x. Qed.

Lemma is_on_circle_mirror_y (pw : float -> float) (x y r : Z) :
  is_on_circle pw x (- y) r = is_on_circle pw x y r.
Proof. unfold is_on_circle. now rewrite distance_mirror_y. Qed.

Section Drawing.

Variable pw : float -> float.
Hypothesis Hpw : faithful_pow pw.

(** * The drawing as a grid pw *)

(** ** Ranges *)

Lemma py_range_length (lo hi : Z) :
  List.length (py_range lo hi) = Z.to_nat (hi - lo).
Proof. unfold py_range. now rewrite length_map, length_seq. Qed.

Lemma py_range_nth_error (lo hi : Z) (i : nat) :
  (i < Z.to_nat (hi - lo))%nat ->
  nth_error (py_range lo hi) i = Some (lo + Z.of_nat i).
Proof.
  intros Hi. unfold py_range. rewrite nth_error_map, nth_error_seq.
  destruct (Nat.ltb_spec i (Z.to_nat (hi - lo))); [reflexivity|lia].
Qed.

Lemma py_range_In (lo hi x : Z) : In x (py_range lo hi) <-> lo <= x < hi.
Proof.
  unfold py_range. rewrite in_map_iff. split.
  - intros (i & <- & Hi). apply in_seq in Hi. lia.
  - intros Hx. exists (Z.to_nat (x - lo)). split; [lia|]. apply in_seq. lia.
Qed.

Lemma py_range_empty (lo hi : Z) : hi <= lo -> py_range lo hi = [].
Proof.
  intros H. unfold py_range. now replace (Z.to_nat (hi - lo)) with 0%nat by lia.
Qed.

Lemma py_range_cons (lo hi : Z) :
  lo < hi -> py_range lo hi = lo :: py_range (lo + 1) hi.
Proof.
  intros H. unfold py_range.
  replace (Z.to_nat (hi - lo)) with (S (Z.to_nat (hi - (lo + 1)))) by lia.
  cbn [seq map]. f_equal; [lia|].
  rewrite <- seq_shift, map_map. apply map_ext. intros i. lia.
Qed.

(** ** Strings *)

Lemma append_char (l rest : string) (c : ascii) :
  (l ++ String c EmptyString) ++ rest = l ++ String c rest.
Proof. induction l as [|a l IH]; simpl; [reflexivity|now rewrite IH]. Qed.

Lemma row_string_length (xs : list Z) (y r : Z) :
  String.length (row_string pw xs y r) = List.length xs.
Proof. induction xs as [|x xs IH]; simpl; [reflexivity|now rewrite IH]. Qed.

Lemma row_string_get (xs : list Z) (y r : Z) (i : nat) :
  String.get i (row_string pw xs y r) =
  option_map (fun x => cell_char (filled pw x y r)) (nth_error xs i).
Proof.
  revert i. induction xs as [|x xs IH]; intros [|i]; simpl; try reflexivity.
  apply IH.
Qed.

Lemma row_string_no_newline (xs : list Z) (y r : Z) :
  no_newline (row_string pw xs y r).
Proof.
  induction xs as [|x xs IH]; simpl; [exact I|]. split; [|exact IH].
  unfold cell_char. destruct (filled pw x y r); discriminate.
Qed.

Lemma split_lines_single (row : string) :
  no_newline row -> split_lines row = [row].
Proof.
  induction row as [|c row IH]; simpl; [reflexivity|]. intros [Hc Hrow].
  destruct (Ascii.eqb_spec c newline_char) as [E|_]; [contradiction|].
  now rewrite IH.
Qed.

Lemma split_lines_row (row rest : string) :
  no_newline row ->
  split_lines (row ++ String newline_char rest) = row :: split_lines rest.
Proof.
  induction row as [|c row IH]; simpl.
  - intros _. reflexivity.
  - intros [Hc Hrow].
    destruct (Ascii.eqb_spec c newline_char) as [E|_]; [contradiction|].
    now rewrite IH.
Qed.

Lemma split_lines_concat (rows : list string) :
  rows <> [] -> Forall no_newline rows ->
  split_lines (String.concat newline rows) = rows.
Proof.
  induction rows as [|row rows IH]; [congruence|]. intros _ Hall.
  inversion Hall as [|? ? Hrow Hrows]; subst.
  destruct rows as [|row' rows'].
  - simpl. now apply split_lines_single.
  - change (String.concat newline (row :: row' :: rows'))
      with (row ++ String newline_char (String.concat newline (row' :: rows'))).
    rewrite split_lines_row by assumption. f_equal. apply IH; [congruence|assumption].
Qed.

(** ** The loops *)

Lemma draw_line_eq (xs : list Z) (y r : Z) (line : string) :
  (forall x, In x xs -> exists b, is_on_circle pw x y r = Return b) ->
  draw_line pw xs y r line = Return (line ++ row_string pw xs y r).
Proof.
  revert line. induction xs as [|x xs IH]; intros line H; simpl.
  - f_equal. induction line as [|a l IHl]; simpl; [reflexivity|now rewrite <- IHl].
  - destruct (H x (or_introl eq_refl)) as [b Eb].
    unfold filled. rewrite Eb. cbn [bind].
    rewrite IH by (intros x' Hx'; apply H; now right).
    f_equal. destruct b; apply append_char.
Qed.

Lemma draw_line_raises (xs : list Z) (x y r : Z) (line : string) (e : exception) :
  is_on_circle pw x y r = Raise e -> draw_line pw (x :: xs) y r line = Raise e.
Proof. intros H. simpl. now rewrite H. Qed.

Lemma draw_rows_eq (ys : list Z) (r : Z) (acc : list string) :
  (forall y x, In y ys -> In x (py_range (-2 * r) (2 * r + 1)) ->
               exists b, is_on_circle pw x y r = Return b) ->
  draw_rows pw ys r acc =
  Return (acc ++ map (fun y => row_string pw (py_range (-2 * r) (2 * r + 1)) y r) ys)%list.
Proof.
  revert acc. induction ys as [|y ys IH]; intros acc H; simpl.
  - now rewrite app_nil_r.
  - rewrite draw_line_eq by (intros x Hx; apply (H y x); [now left|exact Hx]).
    cbn [bind append]. rewrite IH by (intros y' x Hy' Hx; apply H; [now right|exact Hx]).
    now rewrite <- app_assoc.
Qed.

Lemma ascii_rows_eq (r : Z) :
  r < 2 ^ 510 -> ascii_rows pw r = Return (grid pw r).
Proof.
  intros Hr. unfold ascii_rows. rewrite draw_rows_eq; [reflexivity|].
  intros y x Hy Hx. apply py_range_In in Hy, Hx.
  apply is_on_circle_returns; try exact Hpw; lia.
Qed.

Lemma grid_length (r : Z) : List.length (grid pw r) = Z.to_nat (2 * r + 1).
Proof. unfold grid. rewrite length_map, py_range_length. f_equal. lia. Qed.

Lemma grid_row_length (r : Z) :
  Forall (fun row => String.length row = Z.to_nat (4 * r + 1)) (grid pw r).
Proof.
  unfold grid. apply Forall_map, Forall_forall. intros y _.
  rewrite row_string_length, py_range_length. f_equal. lia.
Qed.

Lemma grid_no_newline (r : Z) : Forall no_newline (grid pw r).
Proof.
  unfold grid. apply Forall_map, Forall_forall. intros y _.
  apply row_string_no_newline.
Qed.

Lemma grid_cell (r x y : Z) :
  - 2 * r <= x <= 2 * r -> - r <= y <= r ->
  cell_at (grid pw r) r x y = Some (cell_char (filled pw x y r)).
Proof.
  intros Hx Hy. unfold cell_at, grid.
  destruct (Z.ltb_spec (x + 2 * r) 0); [lia|].
  destruct (Z.ltb_spec (y + r) 0); [lia|]. cbn [orb].
  rewrite nth_error_map, py_range_nth_error by lia. cbn [option_map].
  rewrite row_string_get, py_range_nth_error by lia. cbn [option_map].
  do 3 f_equal; lia.
Qed.

Lemma draw_circle_ascii_eq (r : Z) (show : bool) :
  r < 2 ^ 510 ->
  draw_circle_ascii pw r show = Return (String.concat newline (grid pw r)).
Proof.
  intros Hr. unfold draw_circle_ascii. now rewrite ascii_rows_eq.
Qed.

Lemma split_lines_grid (r : Z) :
  0 <= r -> split_lines (String.concat newline (grid pw r)) = grid pw r.
Proof.
  intros Hr. apply split_lines_concat; [|apply grid_no_newline].
  intros E. pose proof (grid_length r) as H. rewrite E in H. cbn [List.length] in H. lia.
Qed.

(** ** What a returned drawing is *)

Lemma draw_line_inv (xs : list Z) (y r : Z) (line s : string) :
  draw_line pw xs y r line = Return s -> s = line ++ row_string pw xs y r.
Proof.
  revert line. induction xs as [|x xs IH]; intros line; simpl.
  - intros [= <-]. induction line as [|a l IHl]; simpl; [reflexivity|now rewrite <- IHl].
  - unfold filled. destruct (is_on_circle pw x y r) as [e|b]; cbn [bind]; [discriminate|].
    intros H. apply IH in H. rewrite H. destruct b; apply append_char.
Qed.

Lemma draw_rows_inv (ys : list Z) (r : Z) (acc rows : list string) :
  draw_rows pw ys r acc = Return rows ->
  rows = (acc ++ map (fun y => row_string pw (py_range (-2 * r) (2 * r + 1)) y r) ys)%list.
Proof.
  revert acc. induction ys as [|y ys IH]; intros acc; cbn [draw_rows map].
  - intros [= <-]. now rewrite List.app_nil_r.
  - destruct (draw_line pw (py_range (-2 * r) (2 * r + 1)) y r "") as [e|line] eqn:E;
      cbn [bind]; [discriminate|].
    apply draw_line_inv in E. cbn [append] in E. subst line.
    intros H. apply IH in H. now rewrite <- List.app_assoc in H.
Qed.

Lemma draw_circle_ascii_inv (r : Z) (show : bool) (text : string) :
  draw_circle_ascii pw r show = Return text ->
  text = String.concat newline (grid pw r).
Proof.
  unfold draw_circle_ascii, ascii_rows.
  destruct (draw_rows pw (py_range (- r) (r + 1)) r []) as [e|rows] eqn:E;
    cbn [bind]; [discriminate|].
  apply draw_rows_inv in E. cbn [app] in E. subst rows. now intros [= <-].
Qed.

Lemma first_cell_raises (r : Z) (show : bool) (e : exception) :
  0 <= r -> is_on_circle pw (-2 * r) (- r) r = Raise e ->
  draw_circle_ascii pw r show = Raise e.
Proof.
  intros Hr H. unfold draw_circle_ascii, ascii_rows.
  rewrite (py_range_cons (- r)) by lia. cbn [draw_rows].
  rewrite (py_range_cons (-2 * r)) by lia.
  now rewrite (draw_line_raises _ _ _ _ _ e H).
Qed.


End Drawing.

(** * The engine over a faithful [pow] *)

(** ** The error of [pow] *)

Lemma Prim2SF_canonical (m : positive) (e : Z) :
  Zpos (digits2_pos m) = prec -> emin <= e <= emax - prec ->
  Prim2SF (SF2Prim (S754_finite false m e)) = S754_finite false m e.
Proof.
  intros Hd He. apply Prim2SF_SF2Prim. cbn [valid_binary].
  unfold bounded, canonical_mantissa. apply andb_true_iff. split.
  - apply Z.eqb_eq. rewrite Hd. unfold_format. lia.
  - apply Z.leb_le. lia.
Qed.

(** The two neighbours, in the format, of a number [M * 2 ^ E] of the
    normal range. *)
Lemma neighbours (M E : Z) :
  0 < M -> E <= fexp prec emax (Zdigits2 M + E) ->
  emin + prec <= Zdigits2 M + E -> Zdigits2 M + E < emax ->
  exists g1 g2 : float,
    finite g1 = true /\ finite g2 = true /\
    (value g1 <= IZR M * bpow E <= value g2)%R /\
    (value g2 - value g1 = bpow (Zdigits2 M + E - prec))%R.
Proof.
  intros HM HP Hlo Hhi.
  destruct (truncation_bounds M E ltac:(lia) HP) as (H1 & He1 & Hbig & [Hl Hh] & _).
  set (n := fexp prec emax (Zdigits2 M + E) - E) in *.
  set (m1 := Z.shiftr M n) in *. set (e1 := E + n) in *.
  assert (Hn : 0 <= n) by (subst n; lia).
  assert (Hd1 : Zdigits2 m1 = prec).
  { unfold m1. rewrite Zdigits2_shiftr by lia. subst n. unfold_format. lia. }
  assert (He1' : e1 = Zdigits2 M + E - prec) by (subst e1 n; unfold_format; lia).
  assert (Hm1 : 0 < m1).
  { destruct (Z.eq_dec m1 0) as [Ez|Ez]; [|lia]. rewrite Ez in Hd1. cbn in Hd1.
    unfold prec in Hd1. lia. }
  clearbody m1 e1 n.
  pose proof (Zdigits2_bounds m1 Hm1) as Hb1. rewrite Hd1 in Hb1.
  pose proof (bpow_pos e1) as Hp1.
  destruct m1 as [|p1|p1]; try lia. cbn [Zdigits2] in Hd1.
  exists (SF2Prim (S754_finite false p1 e1)).
  assert (E1 : Prim2SF (SF2Prim (S754_finite false p1 e1)) = S754_finite false p1 e1).
  { apply Prim2SF_canonical; [exact Hd1|unfold_format; lia]. }
  destruct (Z_lt_le_dec (Zpos p1 + 1) (2 ^ prec)) as [Hs|Hs].
  - assert (Hd2 : Zdigits2 (Zpos p1 + 1) = prec).
    { pose proof (Zdigits2_le (Zpos p1) (Zpos p1 + 1) ltac:(lia) ltac:(lia)) as H.
      change (Zdigits2 (Zpos p1)) with (Zpos (digits2_pos p1)) in H. rewrite Hd1 in H.
      pose proof (Zdigits2_lt_pow2 (Zpos p1 + 1) prec ltac:(unfold prec; lia) ltac:(lia)).
      lia. }
    change (Zpos p1 + 1) with (Zpos (p1 + 1)) in *. cbn [Zdigits2] in Hd2.
    exists (SF2Prim (S754_finite false (p1 + 1) e1)).
    assert (E2 : Prim2SF (SF2Prim (S754_finite false (p1 + 1) e1)) =
                 S754_finite false (p1 + 1) e1).
    { apply Prim2SF_canonical; [exact Hd2|unfold_format; lia]. }
    unfold finite, value. rewrite E1, E2. cbn [is_finite_sf SF2R cond_Zopp].
    split; [reflexivity|]. split; [reflexivity|]. split; [lra|].
    rewrite <- He1'. rewrite Pos2Z.inj_add, plus_IZR. ring.
  - assert (Hp : Zpos p1 + 1 = 2 ^ prec) by lia.
    exists (SF2Prim (S754_finite false 4503599627370496 (e1 + 1))).
    assert (E2 : Prim2SF (SF2Prim (S754_finite false 4503599627370496 (e1 + 1))) =
                 S754_finite false 4503599627370496 (e1 + 1)).
    { apply Prim2SF_power. unfold_format. lia. }
    unfold finite, value. rewrite E1, E2. cbn [is_finite_sf SF2R cond_Zopp].
    assert (Hv2 : (IZR 4503599627370496 * bpow (e1 + 1) = IZR (Zpos p1 + 1) * bpow e1)%R).
    { rewrite Hp, bpow_add, bpow_1. change (2 ^ prec) with (2 * 4503599627370496).
      rewrite mult_IZR. ring. }
    rewrite Hv2. split; [reflexivity|]. split; [reflexivity|]. split; [lra|].
    rewrite <- He1'. rewrite plus_IZR. ring.
Qed.

(** A positive finite double below another finite one. *)
Lemma between_finite (f g1 g2 : float) :
  finite g1 = true -> finite g2 = true -> (0 < value g1)%R ->
  (g1 <=? f)%float = true -> (f <=? g2)%float = true ->
  finite f = true /\ (value g1 <= value f <= value g2)%R /\
  exists p e, Prim2SF f = S754_finite false p e.
Proof.
  intros H1 H2 Hpos Hlo Hhi.
  assert (Hf : finite f = true).
  { rewrite leb_spec in Hlo, Hhi. unfold SFleb, finite in *.
    destruct (Prim2SF f) as [s|[]| |s q eq]; try reflexivity.
    - destruct (Prim2SF g1) as [s1|s1| |s1 q1 e1]; try discriminate H1;
        cbn in Hlo; discriminate.
    - destruct (Prim2SF g2) as [s2|s2| |s2 q2 e2]; try discriminate H2;
        cbn in Hhi; discriminate.
    - destruct (Prim2SF g1); discriminate. }
  apply leb_value in Hlo; [|assumption..]. apply leb_value in Hhi; [|assumption..].
  split; [exact Hf|]. split; [lra|].
  unfold value, finite in *.
  destruct (Prim2SF f) as [s|s| |s q eq]; try discriminate Hf; cbn [SF2R] in *; try lra.
  destruct s; [|eauto]. cbn [cond_Zopp] in *. rewrite neg_value in Hlo.
  pose proof (pos_value q eq). lra.
Qed.

Lemma in_range_of_value (f : float) (p : positive) (e lo hi : Z) :
  Prim2SF f = S754_finite false p e ->
  (bpow (lo - 1) <= value f < bpow hi)%R -> in_range lo hi f.
Proof.
  intros E [Hlo Hhi]. unfold in_range, value in *. rewrite E in *.
  cbn [SF2R cond_Zopp] in *.
  pose proof (value_below_magnitude p e _ (Z.le_refl _)) as Hb.
  pose proof (value_above_magnitude p e) as Ha.
  split.
  - destruct (Z_le_gt_dec lo (Zpos (digits2_pos p) + e)) as [H|H]; [exact H|exfalso].
    pose proof (bpow_le (Zpos (digits2_pos p) + e) (lo - 1) ltac:(lia)). lra.
  - destruct (Z_le_gt_dec (Zpos (digits2_pos p) + e) hi) as [H|H]; [exact H|exfalso].
    pose proof (bpow_le hi (Zpos (digits2_pos p) + e - 1) ltac:(lia)). lra.
Qed.

Lemma in_range_value_bounds (lo hi : Z) (f : float) :
  in_range lo hi f -> (bpow (lo - 1) <= value f < bpow hi)%R.
Proof.
  unfold in_range, value. destruct (Prim2SF f) as [| | |[] p e]; try contradiction.
  intros H. cbn [SF2R cond_Zopp].
  pose proof (value_below_magnitude p e hi ltac:(lia)).
  pose proof (value_above_magnitude p e).
  pose proof (bpow_le (lo - 1) (Zpos (digits2_pos p) + e - 1) ltac:(lia)). lra.
Qed.

(** The square that a faithful [pow] returns, away from underflow and
    overflow: its magnitude and its error. *)
Lemma pow_in_range (pw : float -> float) (a : float) (l h : Z) :
  faithful_pow pw -> in_range l h a ->
  emin + prec <= l + l - 1 -> h + h < emax ->
  in_range (l + l - 1) (h + h + 1) (pw a) /\
  (Rabs (value (pw a) - value a * value a) <= bpow (-52) * (value a * value a))%R.
Proof.
  intros Hpw Ha Hlo Hhi.
  pose proof (in_range_value_bounds _ _ _ Ha) as [Hva1 Hva2].
  pose proof (in_range_value_pos _ _ _ Ha) as Hva.
  unfold in_range in Ha.
  destruct (Prim2SF a) as [| | |[] m e] eqn:E; try contradiction.
  destruct (positive_finite a m e E) as (H0 & Hi & _ & _).
  destruct (Hpw a H0 Hi) as (Hlow & Hupp & _).
  destruct (square_as_rounding a m e E) as (_ & HP & Hval).
  pose proof (Zdigits2_mul (Zpos m) (Zpos m) ltac:(lia) ltac:(lia)) as Hmul.
  change (Z.pos m * Z.pos m) with (Z.pos (m * m)) in Hmul. cbn [Zdigits2] in Hmul.
  destruct (neighbours (Zpos (m * m)) (e + e) ltac:(lia) HP)
    as (g1 & g2 & Hf1 & Hf2 & [Hg1 Hg2] & Hgap).
  { cbn [Zdigits2]. lia. }
  { cbn [Zdigits2]. lia. }
  rewrite <- Hval in Hg1, Hg2.
  (* the value of [g1] is positive: it is at least the power of two below *)
  set (x := (value a * value a)%R) in *.
  assert (Hx1 : (bpow (l + l - 2) <= x)%R).
  { subst x. replace (l + l - 2) with ((l - 1) + (l - 1)) by lia. rewrite bpow_add.
    pose proof (bpow_pos (l - 1)). apply Rmult_le_compat; lra. }
  assert (Hx2 : (x < bpow (h + h))%R).
  { subst x. rewrite bpow_add. pose proof (bpow_pos h).
    apply Rmult_le_0_lt_compat; lra. }
  set (c1 := SF2Prim (S754_finite false 4503599627370496 (l + l - 2 - 52))).
  assert (Ec1 : Prim2SF c1 = S754_finite false 4503599627370496 (l + l - 2 - 52))
    by (apply Prim2SF_power; unfold_format; lia).
  assert (Hc1 : value c1 = bpow (l + l - 2)).
  { unfold value. rewrite Ec1. cbn [SF2R cond_Zopp].
    change (IZR 4503599627370496) with (IZR (2 ^ 52)). rewrite IZR_pow2 by lia.
    rewrite <- bpow_add. f_equal. lia. }
  set (c2 := SF2Prim (S754_finite false 4503599627370496 (h + h - 52))).
  assert (Ec2 : Prim2SF c2 = S754_finite false 4503599627370496 (h + h - 52))
    by (apply Prim2SF_power; unfold_format; lia).
  assert (Hc2 : value c2 = bpow (h + h)).
  { unfold value. rewrite Ec2. cbn [SF2R cond_Zopp].
    change (IZR 4503599627370496) with (IZR (2 ^ 52)). rewrite IZR_pow2 by lia.
    rewrite <- bpow_add. f_equal. lia. }
  assert (Hfc1 : finite c1 = true) by (unfold finite; now rewrite Ec1).
  assert (Hfc2 : finite c2 = true) by (unfold finite; now rewrite Ec2).
  pose proof (bpow_pos (l + l - 2)) as Hpl.
  destruct (between_finite (pw a) c1 c2 Hfc1 Hfc2 ltac:(lra)
              (Hlow c1 Hfc1 ltac:(lra)) (Hupp c2 Hfc2 ltac:(lra)))
    as (Hf & [Hb1 Hb2] & p & e' & Ef).
  assert (Hl1 : (value g1 <= value (pw a))%R).
  { apply leb_value; [assumption..|]. apply Hlow; assumption. }
  assert (Hl2 : (value (pw a) <= value g2)%R).
  { apply leb_value; [assumption..|]. apply Hupp; assumption. }
  split.
  - (* the magnitude: [pw a] is below [2 ^ (2h)] or is that power *)
    unfold in_range. rewrite Ef.
    pose proof (value_above_magnitude p e') as Habove.
    pose proof (value_below_magnitude p e' _ (Z.le_refl _)) as Hbelow.
    rewrite Hc1 in Hb1. rewrite Hc2 in Hb2.
    unfold value in Hb1, Hb2. rewrite Ef in Hb1, Hb2. cbn [SF2R cond_Zopp] in Hb1, Hb2.
    split.
    + destruct (Z_le_gt_dec (l + l - 1) (Zpos (digits2_pos p) + e')) as [H|H];
        [exact H|exfalso].
      pose proof (bpow_le (Zpos (digits2_pos p) + e') (l + l - 2) ltac:(lia)). lra.
    + destruct (Z_le_gt_dec (Zpos (digits2_pos p) + e') (h + h + 1)) as [H|H];
        [exact H|exfalso].
      pose proof (bpow_le (h + h + 1) (Zpos (digits2_pos p) + e' - 1) ltac:(lia)).
      pose proof (bpow_lt (h + h) (h + h + 1) ltac:(lia)). lra.
  - apply Rle_trans with (bpow (Zdigits2 (Zpos (m * m)) + (e + e) - prec)).
    + apply Rabs_le. lra.
    + apply (ulp_relative (Zpos (m * m)) (e + e) x); [lia|]. subst x. lra.
Qed.

(** ** The fields against the real formulas *)

Lemma diameter_close (r : float) :
  in_range (-510) 510 r ->
  (Rabs (value (2 * r) - 2 * value r) <= bpow (-50) * (2 * value r))%R.
Proof.
  intros Hr.
  destruct (mul_in_range 2 r 2 2 _ _ in_range_two Hr
              ltac:(unfold_format; lia) ltac:(unfold_format; lia)) as [_ H].
  rewrite value_two in H. pose proof (in_range_value_pos _ _ _ Hr).
  pose proof eps_facts. rewrite bpow_m50.
  eapply Rle_trans; [exact H|]. nra.
Qed.

Lemma circumference_close (r : float) :
  in_range (-510) 510 r ->
  (Rabs (value (2 * pi * r) - 2 * PI * value r)
     <= bpow (-50) * (2 * PI * value r))%R.
Proof.
  intros Hr.
  destruct (mul_in_range (2 * pi) r 3 3 _ _ in_range_two_pi Hr
              ltac:(unfold_format; lia) ltac:(unfold_format; lia)) as [_ H].
  rewrite value_two_pi in H.
  pose proof (in_range_value_pos _ _ _ Hr) as Hv.
  pose proof pi_is_close_to_PI as Hpi. pose proof PI_gt_3 as H3.
  pose proof eps_facts as He.
  assert (Hb : (Rabs (2 * value pi * value r - 2 * PI * value r)
                  <= bpow (-52) * (2 * PI * value r))%R).
  { replace (2 * value pi * value r - 2 * PI * value r)%R
      with ((value pi - PI) * (2 * value r))%R by ring.
    rewrite Rabs_mult, (Rabs_pos_eq (2 * value r)) by lra.
    apply Rle_trans with (bpow (-52) * (2 * value r))%R.
    - apply Rmult_le_compat_r; lra.
    - apply Rmult_le_compat_l; [lra|nra]. }
  assert (Hc : (0 < 2 * PI * value r)%R) by nra.
  pose proof (close_trans _ _ _ (bpow (-52)) (bpow (-52))
                Hc ltac:(lra) ltac:(lra) H Hb) as Ht.
  eapply Rle_trans; [exact Ht|]. rewrite bpow_m50.
  apply Rmult_le_compat_r; nra.
Qed.

Lemma area_close (pw : float -> float) (r : float) :
  faithful_pow pw -> in_range (-510) 510 r ->
  in_range (-1020) 1024 (pi * pw r) /\
  (Rabs (value (pi * pw r) - PI * (value r * value r))
     <= bpow (-50) * (PI * (value r * value r)))%R.
Proof.
  intros Hpw Hr.
  destruct (pow_in_range pw r _ _ Hpw Hr
              ltac:(unfold_format; lia) ltac:(unfold_format; lia)) as [Hrr H1].
  destruct (mul_in_range pi (pw r) 2 2 _ _ in_range_pi Hrr
              ltac:(unfold_format; lia) ltac:(unfold_format; lia)) as [HA H2].
  split; [exact HA|].
  pose proof (in_range_value_pos _ _ _ Hr) as Hv.
  pose proof (in_range_value_pos _ _ _ Hrr) as Hvv.
  pose proof pi_is_close_to_PI as Hpi. pose proof PI_gt_3 as H3.
  pose proof eps_facts as He.
  set (eps := bpow (-52)) in *. set (v := value r) in *.
  set (w := value (pw r)) in *. set (p := value pi) in *.
  assert (Hvv2 : (0 < v * v)%R) by nra.
  apply Rabs_le_both in Hpi. apply Rabs_le_both in H1.
  (* the exact product of the two rounded factors against the real area *)
  assert (Hb : (Rabs (p * w - PI * (v * v)) <= (2 * eps) * (PI * (v * v)))%R).
  { apply Rabs_le.
    assert (w <= (1 + eps) * (v * v))%R by lra.
    assert ((1 - eps) * (v * v) <= w)%R by lra.
    assert (eps * w <= eps * ((1 + eps) * (v * v)))%R
      by (apply Rmult_le_compat_l; lra).
    assert (PI * w <= PI * ((1 + eps) * (v * v)))%R
      by (apply Rmult_le_compat_l; lra).
    assert (PI * ((1 - eps) * (v * v)) <= PI * w)%R
      by (apply Rmult_le_compat_l; lra).
    assert ((p - PI) * w <= eps * w)%R by (apply Rmult_le_compat_r; lra).
    assert (- (eps * w) <= (p - PI) * w)%R.
    { replace (- (eps * w))%R with ((- eps) * w)%R by ring.
      apply Rmult_le_compat_r; lra. }
    assert (eps * eps * (v * v) <= eps * / 1000 * (v * v))%R.
    { apply Rmult_le_compat_r; [lra|]. apply Rmult_le_compat_l; lra. }
    assert (eps * (v * v) <= eps * / 3 * (PI * (v * v)))%R by nra.
    split; nra. }
  assert (Hc : (0 < PI * (v * v))%R) by nra.
  pose proof (close_trans _ _ _ eps (2 * eps)
                Hc ltac:(lra) ltac:(lra) H2 Hb) as Ht.
  eapply Rle_trans; [exact Ht|]. unfold eps. rewrite bpow_m50. fold eps.
  apply Rmult_le_compat_r; nra.
Qed.

(** ** The square of a positive radius *)

Lemma pow_one (pw : float -> float) : faithful_pow pw -> pw 1%float = 1%float.
Proof.
  intros Hpw.
  apply (pow_exact pw 1 1 _ _ _ _ Hpw Prim2SF_one Prim2SF_one).
  assert (H1 : value 1 = 1%R).
  { unfold value. rewrite Prim2SF_one. cbn [SF2R cond_Zopp]. rewrite bpow_m52. lra. }
  rewrite H1. ring.
Qed.

(** Over a faithful [pow] the special case of the base [1.0] is no
    exception: [r ** 2] is what [pow] returns, unless that is infinite. *)
Lemma float_square_faithful (pw : float -> float) (r : float) :
  faithful_pow pw -> (0 <? r)%float = true ->
  float_square pw r =
    (if is_infinity r then Return r
     else if is_infinity (pw r)
          then Raise (OverflowError "(34, 'Numerical result out of range')")
          else Return (pw r)) /\
  is_nan r = false /\
  (forall r2, float_square pw r = Return r2 -> is_nan r2 = false).
Proof.
  intros Hpw Hr. destruct (float_square_positive pw r Hr) as [Hsq Hn].
  assert (H : float_square pw r =
    (if is_infinity r then Return r
     else if is_infinity (pw r)
          then Raise (OverflowError "(34, 'Numerical result out of range')")
          else Return (pw r))).
  { rewrite Hsq. destruct (is_infinity r); [reflexivity|].
    destruct (r =? 1)%float eqn:E1; [|reflexivity].
    rewrite eqb_spec, Prim2SF_one in E1. apply SFeqb_finite_eq in E1.
    rewrite <- Prim2SF_one in E1. apply Prim2SF_inj in E1. subst r.
    now rewrite (pow_one pw Hpw). }
  split; [exact H|]. split; [exact Hn|].
  intros r2. rewrite H.
  destruct (ltb_zero_positive r Hr) as [E|(m & e & E)].
  - rewrite is_infinity_spec, E. cbn [is_infinite_sf]. intros [= <-].
    now rewrite is_nan_spec, E.
  - rewrite (is_infinity_spec r), E. cbn [is_infinite_sf].
    pose proof (pow_nonneg pw r m e Hpw E) as Hnn.
    destruct (is_infinity (pw r)); [discriminate|]. intros [= <-].
    rewrite is_nan_spec. destruct (Prim2SF (pw r)); try reflexivity. contradiction.
Qed.

(** ** The sector fields divided back by the circle fields *)


(** * Exact operations *)

(** ** Rounding a number of the format *)

Lemma magnitude_bounds (m e : Z) :
  0 < m -> (bpow (Zdigits2 m + e - 1) <= IZR m * bpow e < bpow (Zdigits2 m + e))%R.
Proof.
  intros Hm. destruct m as [|p|p]; try lia. cbn [Zdigits2]. split.
  - apply value_above_magnitude.
  - apply value_below_magnitude. lia.
Qed.

Lemma magnitude_unique (m Z e K : Z) :
  0 < m -> 0 < Z -> (IZR m * bpow e = IZR Z * bpow K)%R ->
  Zdigits2 m + e = Zdigits2 Z + K.
Proof.
  intros Hm HZ Heq.
  pose proof (magnitude_bounds m e Hm) as [H1 H2].
  pose proof (magnitude_bounds Z K HZ) as [H3 H4]. rewrite Heq in H1, H2.
  destruct (Z.lt_trichotomy (Zdigits2 m + e) (Zdigits2 Z + K)) as [H|[H|H]];
    [exfalso|exact H|exfalso].
  - pose proof (bpow_le (Zdigits2 m + e) (Zdigits2 Z + K - 1) ltac:(lia)). lra.
  - pose proof (bpow_le (Zdigits2 Z + K) (Zdigits2 m + e - 1) ltac:(lia)). lra.
Qed.

Lemma dyadic_mantissa (m Z e K : Z) :
  e <= K -> (IZR m * bpow e = IZR Z * bpow K)%R -> m = Z * 2 ^ (K - e).
Proof.
  intros He Heq. apply eq_IZR. rewrite mult_IZR, IZR_pow2 by lia.
  pose proof (bpow_pos e). apply (Rmult_eq_reg_r (bpow e)); [|lra].
  rewrite Heq, Rmult_assoc, <- bpow_add. do 2 f_equal. lia.
Qed.

(** Rounding a number that is in the format returns it. *)
Lemma binary_round_aux_exact_R (s : bool) (m e Z K : Z) :
  0 < m -> e <= fexp prec emax (Zdigits2 m + e) ->
  0 < Z -> Zdigits2 Z <= prec -> emin <= K -> Zdigits2 Z + K <= emax ->
  (IZR m * bpow e = IZR Z * bpow K)%R ->
  exists p e',
    binary_round_aux prec emax s m e loc_Exact = S754_finite s p e' /\
    bounded prec emax p e' = true /\
    (IZR (Zpos p) * bpow e' = IZR m * bpow e)%R.
Proof.
  intros Hm HP HZ HdZ HK Hmax Heq.
  pose proof (magnitude_unique m Z e K Hm HZ Heq) as HD.
  assert (HeK : fexp prec emax (Zdigits2 m + e) <= K) by (unfold_format; lia).
  pose proof (dyadic_mantissa m Z e K ltac:(lia) Heq) as Hmz.
  destruct (binary_round_aux_value s m e loc_Exact ltac:(lia) HP)
    as (r & Hr & Hex & _ & Hcases).
  destruct (truncation_bounds m e ltac:(lia) HP) as (H1 & He1 & _ & [Hlo Hhi] & _).
  set (n := fexp prec emax (Zdigits2 m + e) - e) in *.
  assert (Hdiv : m = Z.shiftr m n * 2 ^ n).
  { rewrite Z.shiftr_div_pow2 by lia.
    replace (K - e) with ((K - e - n) + n) in Hmz by lia.
    rewrite Z.pow_add_r in Hmz by lia.
    assert (0 < 2 ^ n) by (apply Z.pow_pos_nonneg; lia).
    assert (Hm' : m = (Z * 2 ^ (K - e - n)) * 2 ^ n) by (rewrite Hmz at 1; ring).
    clearbody n. rewrite Hm'. now rewrite Z.div_mul by lia. }
  specialize (Hex eq_refl Hdiv). subst r.
  assert (Hval : (IZR (Z.shiftr m n) * bpow (e + n) = IZR m * bpow e)%R).
  { pose proof (f_equal IZR Hdiv) as HmR. rewrite mult_IZR, IZR_pow2 in HmR by lia.
    rewrite bpow_add, HmR. ring. }
  pose proof (magnitude_bounds m e Hm) as [_ Hlt].
  pose proof (bpow_le (Zdigits2 m + e) emax ltac:(lia)) as Hle.
  destruct Hcases as [[_ H0]|[[_ Hinf]|(p & e' & Hf & Hb & Hv)]].
  - exfalso. rewrite H0 in Hdiv. lia.
  - exfalso. rewrite Hval in Hinf. lra.
  - exists p, e'. split; [exact Hf|]. split; [exact Hb|]. now rewrite Hv, Hval.
Qed.

Lemma shift_pos_value (mx d : positive) :
  Zpos (Pos.iter xO mx d) = Zpos mx * 2 ^ Zpos d.
Proof.
  induction d as [|d IH] using Pos.peano_ind.
  - cbn [Pos.iter]. lia.
  - rewrite Pos.iter_succ, Pos2Z.inj_succ, Z.pow_succ_r by lia.
    rewrite Pos2Z.inj_xO, IH. ring.
Qed.

Lemma shl_align_value (mx : positive) (ex ex' : Z) :
  let '(mz, ez) := shl_align mx ex ex' in
  (IZR (Zpos mz) * bpow ez = IZR (Zpos mx) * bpow ex)%R.
Proof.
  unfold shl_align. destruct (ex' - ex) as [|d|d] eqn:E; try reflexivity.
  unfold shift_pos. rewrite shift_pos_value, mult_IZR, IZR_pow2 by lia.
  replace (bpow ex) with (bpow (Zpos d) * bpow ex')%R
    by (rewrite <- bpow_add; f_equal; lia).
  ring.
Qed.

Lemma binary_round_exact_R (s : bool) (mx : positive) (ex Z K : Z) :
  0 < Z -> Zdigits2 Z <= prec -> emin <= K -> Zdigits2 Z + K <= emax ->
  (IZR (Zpos mx) * bpow ex = IZR Z * bpow K)%R ->
  exists p e',
    binary_round prec emax s mx ex = S754_finite s p e' /\
    bounded prec emax p e' = true /\
    (IZR (Zpos p) * bpow e' = IZR (Zpos mx) * bpow ex)%R.
Proof.
  intros HZ HdZ HK Hmax Heq. unfold binary_round.
  pose proof (shl_align_spec mx ex (fexp prec emax (Zpos (digits2_pos mx) + ex))) as H.
  pose proof (shl_align_value mx ex (fexp prec emax (Zpos (digits2_pos mx) + ex))) as Hv.
  destruct (shl_align mx ex (fexp prec emax (Zpos (digits2_pos mx) + ex))) as [mz ez].
  destruct H as [Hez Hd]. rewrite <- Hv in Heq |- *.
  apply (binary_round_aux_exact_R s (Zpos mz) ez Z K); try assumption; try lia.
  cbn [Zdigits2]. rewrite Hd. lia.
Qed.

(** The double of a dyadic number with 53 digits at most. *)
Lemma binary_normalize_exact_R (M E Z K : Z) :
  0 <= Z -> Zdigits2 Z <= prec -> emin <= K -> Zdigits2 Z + K <= emax ->
  (IZR (Z.abs M) * bpow E = IZR Z * bpow K)%R ->
  let f := binary_normalize prec emax M E false in
  valid_binary f = true /\ is_finite_sf f = true /\ (SF2R f = IZR M * bpow E)%R /\
  (0 < M -> exists p e, f = S754_finite false p e) /\
  (M < 0 -> exists p e, f = S754_finite true p e).
Proof.
  intros HZ HdZ HK Hmax Heq f. subst f.
  assert (HZpos : M <> 0 -> 0 < Z).
  { intros HM. destruct (Z.eq_dec Z 0) as [->|]; [|lia]. exfalso.
    rewrite Rmult_0_l in Heq. pose proof (bpow_pos E).
    assert (0 < IZR (Z.abs M))%R by (apply IZR_lt; lia). nra. }
  destruct M as [|p|p]; cbn [binary_normalize Z.abs] in *.
  - repeat split; try lia. cbn. ring.
  - destruct (binary_round_exact_R false p E Z K (HZpos ltac:(lia)) HdZ HK Hmax Heq)
      as (q & e' & -> & Hb & Hv).
    cbn [valid_binary is_finite_sf SF2R cond_Zopp].
    repeat split; try assumption; try lia. eauto.
  - destruct (binary_round_exact_R true p E Z K (HZpos ltac:(lia)) HdZ HK Hmax Heq)
      as (q & e' & -> & Hb & Hv).
    cbn [valid_binary is_finite_sf SF2R cond_Zopp].
    repeat split; try assumption; try lia.
    + rewrite neg_value, Hv. change (Zneg p) with (- Zpos p). rewrite opp_IZR. ring.
    + eauto.
Qed.

Lemma dyadic_double (Z K : Z) :
  Zdigits2 Z <= prec -> emin <= K -> Zdigits2 Z + K <= emax ->
  exists f : float,
    finite f = true /\ value f = (IZR Z * bpow K)%R /\
    (0 < Z -> exists p e, Prim2SF f = S754_finite false p e).
Proof.
  intros HdZ HK Hmax.
  destruct (binary_normalize_exact_R Z K (Z.abs Z) K) as (Hv & Hf & Hval & Hpos & _);
    try lia.
  { now rewrite Zdigits2_abs. }
  { now rewrite Zdigits2_abs. }
  { reflexivity. }
  exists (SF2Prim (binary_normalize prec emax Z K false)).
  unfold finite, value. rewrite Prim2SF_SF2Prim by exact Hv.
  split; [exact Hf|]. split; [exact Hval|exact Hpos].
Qed.

(** ** Sums and differences *)

Lemma shl_align_min (mx : positive) (ex ez : Z) :
  ez <= ex ->
  (IZR (Zpos (fst (shl_align mx ex ez))) * bpow ez = IZR (Zpos mx) * bpow ex)%R.
Proof.
  intros He. pose proof (shl_align_value mx ex ez) as Hv.
  pose proof (shl_align_spec mx ex ez) as Hs.
  destruct (shl_align mx ex ez) as [mz ez']. cbn [fst].
  destruct Hs as [Hs _]. replace ez' with ez in Hv by lia. exact Hv.
Qed.

Lemma cond_Zopp_value (s : bool) (m : positive) (e : Z) :
  (IZR (cond_Zopp s (Zpos m)) * bpow e =
   (if s then -1 else 1) * (IZR (Zpos m) * bpow e))%R.
Proof. destruct s; cbn [cond_Zopp]; [rewrite neg_value|]; ring. Qed.

Lemma aligned_value (s : bool) (mx : positive) (ex ez : Z) :
  ez <= ex ->
  (IZR (cond_Zopp s (Zpos (fst (shl_align mx ex ez)))) * bpow ez =
   SF2R (S754_finite s mx ex))%R.
Proof.
  intros He. cbn [SF2R]. rewrite !cond_Zopp_value, shl_align_min by exact He.
  reflexivity.
Qed.

(** A sum that is in the format is computed exactly. *)
Lemma SFadd_exact (x y : spec_float) (Z K : Z) :
  valid_binary x = true -> valid_binary y = true ->
  is_finite_sf x = true -> is_finite_sf y = true ->
  0 <= Z -> Zdigits2 Z <= prec -> emin <= K -> Zdigits2 Z + K <= emax ->
  (Rabs (SF2R x + SF2R y) = IZR Z * bpow K)%R ->
  valid_binary (SFadd prec emax x y) = true /\
  is_finite_sf (SFadd prec emax x y) = true /\
  (SF2R (SFadd prec emax x y) = SF2R x + SF2R y)%R.
Proof.
  intros Hx Hy Fx Fy HZ HdZ HK Hmax Heq.
  destruct x as [sx|sx| |sx mx ex]; try discriminate;
    destruct y as [sy|sy| |sy my ey]; try discriminate.
  - destruct sx, sy; cbn; repeat split; ring.
  - cbn [SFadd SF2R]. repeat split; try assumption. ring.
  - cbn [SFadd SF2R]. repeat split; try assumption. ring.
  - cbn [SFadd]. set (ez := Z.min ex ey).
    set (M := cond_Zopp sx (Zpos (fst (shl_align mx ex ez))) +
              cond_Zopp sy (Zpos (fst (shl_align my ey ez)))).
    assert (HM : (IZR M * bpow ez =
                  SF2R (S754_finite sx mx ex) + SF2R (S754_finite sy my ey))%R).
    { subst M. rewrite plus_IZR, Rmult_plus_distr_r.
      rewrite !aligned_value by (subst ez; lia). reflexivity. }
    destruct (binary_normalize_exact_R M ez Z K HZ HdZ HK Hmax) as (Hv & Hf & Hval & _).
    { rewrite <- Heq, <- HM, Rabs_mult, abs_IZR.
      rewrite (Rabs_pos_eq (bpow ez)) by (pose proof (bpow_pos ez); lra). reflexivity. }
    rewrite <- HM. repeat split; assumption.
Qed.

Lemma SFsub_exact (x y : spec_float) (Z K : Z) :
  valid_binary x = true -> valid_binary y = true ->
  is_finite_sf x = true -> is_finite_sf y = true ->
  0 <= Z -> Zdigits2 Z <= prec -> emin <= K -> Zdigits2 Z + K <= emax ->
  (Rabs (SF2R x - SF2R y) = IZR Z * bpow K)%R ->
  valid_binary (SFsub prec emax x y) = true /\
  is_finite_sf (SFsub prec emax x y) = true /\
  (SF2R (SFsub prec emax x y) = SF2R x - SF2R y)%R.
Proof.
  intros Hx Hy Fx Fy HZ HdZ HK Hmax Heq.
  destruct x as [sx|sx| |sx mx ex]; try discriminate;
    destruct y as [sy|sy| |sy my ey]; try discriminate.
  - destruct sx, sy; cbn; repeat split; ring.
  - cbn [SFsub SF2R valid_binary is_finite_sf] in *. repeat split; try assumption.
    rewrite !cond_Zopp_value. destruct sy; cbn [negb]; ring.
  - cbn [SFsub SF2R]. repeat split; try assumption. ring.
  - cbn [SFsub]. set (ez := Z.min ex ey).
    set (M := cond_Zopp sx (Zpos (fst (shl_align mx ex ez))) -
              cond_Zopp sy (Zpos (fst (shl_align my ey ez)))).
    assert (HM : (IZR M * bpow ez =
                  SF2R (S754_finite sx mx ex) - SF2R (S754_finite sy my ey))%R).
    { subst M. rewrite minus_IZR, Rmult_minus_distr_r.
      rewrite !aligned_value by (subst ez; lia). reflexivity. }
    destruct (binary_normalize_exact_R M ez Z K HZ HdZ HK Hmax) as (Hv & Hf & Hval & _).
    { rewrite <- Heq, <- HM, Rabs_mult, abs_IZR.
      rewrite (Rabs_pos_eq (bpow ez)) by (pose proof (bpow_pos ez); lra). reflexivity. }
    rewrite <- HM. repeat split; assumption.
Qed.

(** ** The Python operations on small integers *)

Lemma Prim2SF_SF2Prim_finite (s : spec_float) :
  valid_binary s = true -> is_finite_sf s = true ->
  finite (SF2Prim s) = true /\ value (SF2Prim s) = SF2R s /\
  is_infinite_sf s = false.
Proof.
  intros Hv Hf. unfold finite, value. rewrite Prim2SF_SF2Prim by exact Hv.
  repeat split; try assumption. destruct s; try discriminate; reflexivity.
Qed.

(** [float(z)] is exact for an integer of 53 digits at most. *)
Lemma float_of_int_value (z : Z) :
  Zdigits2 z <= prec ->
  exists f, float_of_int z = Return f /\ finite f = true /\ value f = IZR z.
Proof.
  intros Hd.
  destruct (binary_normalize_exact_R z 0 (Z.abs z) 0) as (Hv & Hf & Hval & _).
  { lia. }
  { now rewrite Zdigits2_abs. }
  { unfold_format. lia. }
  { rewrite Zdigits2_abs. unfold_format. lia. }
  { reflexivity. }
  destruct (Prim2SF_SF2Prim_finite _ Hv Hf) as (H1 & H2 & H3).
  unfold float_of_int. cbv zeta. rewrite H3. eexists. split; [reflexivity|].
  split; [exact H1|]. rewrite H2, Hval, bpow_0. ring.
Qed.

Lemma SFdiv_core_binary_half (a : Z) :
  0 < a -> Zdigits2 a <= prec ->
  exists q e,
    SFdiv_core_binary prec emax a 0 2 0 = (q, e, loc_Exact) /\
    0 < q /\ e <= fexp prec emax (Zdigits2 q + e) /\
    (IZR q * bpow e = IZR a * bpow (-1))%R.
Proof.
  intros Ha Hd.
  destruct (SFdiv_core_binary prec emax a 0 2 0) as [[q e] l] eqn:E.
  destruct (SFdiv_core_binary_by_2 a q e l Ha E) as (Hq & HP & _).
  revert E. unfold SFdiv_core_binary. change (Zdigits2 2) with 2.
  pose proof (Zdigits2_pos a Ha) as Hd0.
  set (e0 := Z.min (fexp prec emax (Zdigits2 a + 0 - (2 + 0))) (0 - 0)).
  assert (He0 : e0 <= -2) by (subst e0; unfold_format; lia).
  replace (0 - 0 - e0) with (- e0) by lia.
  destruct (- e0) as [|k|k] eqn:Ek; try lia.
  rewrite Z.shiftl_mul_pow2 by lia.
  assert (Hpow : 2 ^ Zpos k = 2 * 2 ^ (Zpos k - 1)).
  { rewrite <- Z.pow_succ_r by lia. f_equal. lia. }
  assert (Hdiv : Z.div_eucl (a * 2 ^ Zpos k) 2 = (a * 2 ^ (Zpos k - 1), 0)).
  { pose proof (Z.div_eucl_eq (a * 2 ^ Zpos k) 2 ltac:(lia)) as Heq.
    pose proof (Z.mod_pos_bound (a * 2 ^ Zpos k) 2 ltac:(lia)) as Hb.
    unfold Z.modulo, Z.div in *.
    destruct (Z.div_eucl (a * 2 ^ Zpos k) 2) as [q' r']. cbn [fst snd] in *.
    rewrite Hpow in Heq. f_equal; lia. }
  rewrite Hdiv. intros [= <- <- <-].
  exists (a * 2 ^ (Zpos k - 1)), e0. split; [reflexivity|].
  assert (0 < 2 ^ (Zpos k - 1)) by (apply Z.pow_pos_nonneg; lia).
  split; [apply Z.mul_pos_pos; lia|]. split; [exact HP|].
  rewrite mult_IZR, IZR_pow2, Rmult_assoc, <- bpow_add by lia.
  do 2 f_equal. lia.
Qed.

(** [x / scale_x] is exact for an integer of 53 digits at most. *)
Lemma int_true_div_value (x : Z) :
  Zdigits2 x <= prec ->
  exists q, int_true_div x scale_x = Return q /\ finite q = true /\
            value q = (IZR x * bpow (-1))%R.
Proof.
  intros Hd. unfold int_true_div, scale_x. change (2 =? 0) with false. cbv iota.
  destruct (Z.eqb_spec x 0) as [->|Hx].
  - exists zero. split; [reflexivity|]. split; [reflexivity|].
    unfold value. cbn. ring.
  - change (2 <? 0) with false. rewrite xorb_false_r. change (Z.abs 2) with 2.
    destruct (SFdiv_core_binary_half (Z.abs x) ltac:(lia)
                ltac:(now rewrite Zdigits2_abs)) as (q & e & -> & Hq & HP & Hval).
    destruct (binary_round_aux_exact_R (x <? 0) q e (Z.abs x) (-1) Hq HP)
      as (p & e' & Hf & Hb & Hv).
    { lia. }
    { now rewrite Zdigits2_abs. }
    { unfold_format. lia. }
    { rewrite Zdigits2_abs. unfold_format. lia. }
    { exact Hval. }
    rewrite Hf. cbn [is_infinite_sf]. eexists. split; [reflexivity|].
    unfold finite, value. rewrite Prim2SF_SF2Prim by exact Hb.
    split; [reflexivity|]. cbn [SF2R]. rewrite cond_Zopp_value, Hv, Hval.
    destruct (Z.ltb_spec x 0).
    + rewrite Z.abs_neq, opp_IZR by lia. ring.
    + rewrite Z.abs_eq by lia. ring.
Qed.

Lemma abs_value (f : float) :
  finite f = true -> finite (abs f) = true /\ value (abs f) = Rabs (value f).
Proof.
  unfold finite, value. rewrite abs_spec.
  destruct (Prim2SF f) as [s|s| |s m e]; try discriminate; intros _;
    cbn [SFabs is_finite_sf SF2R].
  - split; [reflexivity|]. now rewrite Rabs_R0.
  - split; [reflexivity|]. pose proof (pos_value m e).
    rewrite !cond_Zopp_value.
    destruct s; [rewrite Rabs_left|rewrite Rabs_pos_eq]; lra.
Qed.

(** [v ** 2] is exact, over a faithful [pow], when the square is in the
    format. *)
Lemma float_square_value (pw : float -> float) (q : float) (z k : Z) :
  faithful_pow pw -> finite q = true -> value q = (IZR z * bpow k)%R ->
  Zdigits2 (z * z) <= prec -> emin <= k + k -> Zdigits2 (z * z) + (k + k) <= emax ->
  exists q2, float_square pw q = Return q2 /\ finite q2 = true /\
             value q2 = (IZR (z * z) * bpow (k + k))%R.
Proof.
  intros Hpw Hf Hv Hd Hk Hmax.
  assert (Hsq : (value q * value q = IZR (z * z) * bpow (k + k))%R).
  { rewrite Hv, mult_IZR, bpow_add. ring. }
  unfold finite in Hf.
  destruct (Prim2SF q) as [s|s| |s m e] eqn:E; try discriminate.
  - exists 0%float. split.
    + unfold float_square.
      assert (Hn : is_nan q = false) by (now rewrite is_nan_spec, E).
      assert (Hi : is_infinity q = false) by (now rewrite is_infinity_spec, E).
      assert (Hz : (q =? 0)%float = true) by (rewrite eqb_spec, E; now destruct s).
      now rewrite Hn, Hi, Hz.
    + split; [reflexivity|]. rewrite <- Hsq. unfold value. rewrite E. cbn. ring.
  - destruct (float_square_finite pw q s m e E) as [-> Ha].
    assert (Habs : value (abs q) = Rabs (value q)).
    { apply abs_value. unfold finite. now rewrite E. }
    assert (Hsq' : (value (abs q) * value (abs q) = IZR (z * z) * bpow (k + k))%R).
    { rewrite Habs, <- Hsq. unfold Rabs. destruct (Rcase_abs (value q)); ring. }
    assert (Hz : 0 < z * z).
    { destruct (Z.eq_dec z 0) as [->|]; [|nia]. exfalso.
      unfold value in Hv. rewrite E in Hv. cbn [SF2R] in Hv.
      rewrite cond_Zopp_value, Rmult_0_l in Hv. pose proof (pos_value m e).
      destruct s; lra. }
    destruct (dyadic_double (z * z) (k + k) Hd Hk Hmax) as (p & Hfp & Hvp & Hpp).
    destruct (Hpp Hz) as (mp & ep & Ep).
    assert (Hpw' : pw (abs q) = p).
    { apply (pow_exact pw (abs q) p m mp e ep Hpw Ha Ep). now rewrite Hvp, Hsq'. }
    destruct (abs q =? 1)%float eqn:E1.
    + exists 1%float. split; [reflexivity|]. split; [reflexivity|].
      rewrite eqb_spec, Ha, Prim2SF_one in E1. apply SFeqb_finite_eq in E1.
      rewrite <- Hsq'. unfold value. rewrite Ha, E1, Prim2SF_one.
      cbn [SF2R cond_Zopp]. rewrite bpow_m52. lra.
    + rewrite Hpw'. rewrite is_infinity_spec, Ep. cbn [is_infinite_sf].
      exists p. split; [reflexivity|]. split; [exact Hfp|exact Hvp].
Qed.

(** A sum that is in the format. *)
Lemma add_value (a b : float) (Z K : Z) :
  finite a = true -> finite b = true ->
  0 <= Z -> Zdigits2 Z <= prec -> emin <= K -> Zdigits2 Z + K <= emax ->
  (Rabs (value a + value b) = IZR Z * bpow K)%R ->
  finite (a + b) = true /\ value (a + b) = (value a + value b)%R.
Proof.
  intros Ha Hb HZ HdZ HK Hmax Heq. unfold finite, value in *. rewrite add_spec.
  destruct (SFadd_exact (Prim2SF a) (Prim2SF b) Z K (Prim2SF_valid a)
              (Prim2SF_valid b) Ha Hb HZ HdZ HK Hmax Heq) as (_ & H1 & H2).
  now split.
Qed.

Lemma sub_value (a b : float) (Z K : Z) :
  finite a = true -> finite b = true ->
  0 <= Z -> Zdigits2 Z <= prec -> emin <= K -> Zdigits2 Z + K <= emax ->
  (Rabs (value a - value b) = IZR Z * bpow K)%R ->
  finite (a - b) = true /\ value (a - b) = (value a - value b)%R.
Proof.
  intros Ha Hb HZ HdZ HK Hmax Heq. unfold finite, value in *. rewrite sub_spec.
  destruct (SFsub_exact (Prim2SF a) (Prim2SF b) Z K (Prim2SF_valid a)
              (Prim2SF_valid b) Ha Hb HZ HdZ HK Hmax Heq) as (_ & H1 & H2).
  now split.
Qed.

(** ** The square root *)

Lemma div2_bounds (e : Z) : 2 * Z.div2 e <= e <= 2 * Z.div2 e + 1.
Proof.
  rewrite Z.div2_div. pose proof (Z.div_mod e 2 ltac:(lia)).
  pose proof (Z.mod_pos_bound e 2 ltac:(lia)). lia.
Qed.

(** The mantissa that [SFsqrt] returns for a normal number of moderate
    size: with [e'] the exponent of the root and [m'] the aligned mantissa,
    it is the integer square root [q] of [m'], or [q + 1] when [m'] is
    beyond [q ^ 2 + q] (the root is then closer to [q + 1]). *)
Lemma SFsqrt_value (ms : positive) (es : Z) :
  Zpos (digits2_pos ms) = prec -> -200 <= es <= 200 ->
  let e' := Z.div2 es - 26 in
  let m' := Zpos ms * 2 ^ (es - 2 * e') in
  let q := Z.sqrt m' in
  let R := if m' - q * q <=? q then q else q + 1 in
  exists p e'',
    SFsqrt prec emax (S754_finite false ms es) = S754_finite false p e'' /\
    bounded prec emax p e'' = true /\
    (IZR (Zpos p) * bpow e'' = IZR R * bpow e')%R.
Proof.
  intros Hd Hes e' m' q R. cbn [SFsqrt]. unfold SFsqrt_core_binary.
  cbn [Zdigits2]. rewrite Hd.
  pose proof (div2_bounds es) as Hb. pose proof (div2_bounds (prec + es + 1)) as Hb'.
  assert (He' : Z.min (fexp prec emax (Z.div2 (prec + es + 1))) (Z.div2 es) = e').
  { subst e'. unfold_format. lia. }
  rewrite He'.
  assert (Hs : 52 <= es - 2 * e' <= 53) by (subst e'; lia).
  destruct (es - 2 * e') as [|s|s] eqn:Es; try lia.
  rewrite Z.shiftl_mul_pow2 by lia. fold m'.
  pose proof (Zdigits2_bounds (Zpos ms) ltac:(lia)) as Hms.
  cbn [Zdigits2] in Hms. rewrite Hd in Hms.
  change (2 ^ (prec - 1)) with (2 ^ 52) in Hms. change (2 ^ prec) with (2 ^ 53) in Hms.
  assert (Hm' : 2 ^ 104 <= m' < 2 ^ 106).
  { subst m'. destruct (Z.eq_dec (Zpos s) 52) as [E|E].
    - rewrite E. change (2 ^ 104) with (2 ^ 52 * 2 ^ 52).
      change (2 ^ 106) with (2 ^ 54 * 2 ^ 52). lia.
    - replace (Zpos s) with 53 by lia. change (2 ^ 104) with (2 ^ 51 * 2 ^ 53).
      change (2 ^ 106) with (2 ^ 53 * 2 ^ 53). lia. }
  pose proof (Z.sqrtrem_spec m' ltac:(lia)) as Hrem.
  pose proof (Z.sqrtrem_sqrt m') as Hfst.
  destruct (Z.sqrtrem m') as [q' rem]. cbn [fst] in Hfst. subst q'. fold q in Hrem.
  destruct Hrem as [Hm Hr].
  assert (Hq : 2 ^ 52 <= q < 2 ^ 53).
  { change (2 ^ 104) with (2 ^ 52 * 2 ^ 52) in Hm'.
    change (2 ^ 106) with (2 ^ 53 * 2 ^ 53) in Hm'. nia. }
  assert (Hdq : Zdigits2 q = prec).
  { pose proof (Zdigits2_lt_pow2 q 53 ltac:(lia) ltac:(lia)).
    pose proof (Zdigits2_le (2 ^ 52) q ltac:(lia) ltac:(lia)) as Hle.
    change (Zdigits2 (2 ^ 52)) with 53 in Hle. unfold prec. lia. }
  set (l := if rem =? 0 then loc_Exact
            else loc_Inexact (if rem <=? q then Lt else Gt)).
  assert (Hround : round_nearest_even q l = R).
  { subst l R. replace (m' - q * q) with rem by lia.
    destruct (Z.eqb_spec rem 0) as [E0|E0]; cbn [round_nearest_even].
    - subst rem. destruct (Z.leb_spec 0 q); [reflexivity|lia].
    - destruct (rem <=? q); reflexivity. }
  assert (HP : e' <= fexp prec emax (Zdigits2 q + e')).
  { rewrite Hdq. subst e'. unfold_format. lia. }
  destruct (binary_round_aux_value false q e' l ltac:(lia) HP)
    as (r & Hr' & _ & Hun & Hcases).
  assert (Hn0 : fexp prec emax (Zdigits2 q + e') - e' = 0).
  { rewrite Hdq. subst e'. unfold_format. lia. }
  rewrite Hn0 in *. specialize (Hun eq_refl). rewrite Hround in Hun. subst r.
  rewrite Z.shiftr_0_r in Hr'. replace (e' + 0) with e' in Hcases by lia.
  destruct Hcases as [[_ H0]|[[_ Hinf]|(p & e'' & Hf & Hbd & Hv)]].
  - exfalso. lia.
  - exfalso. assert (IZR R * bpow e' < bpow emax)%R; [|lra].
    apply Rlt_le_trans with (bpow 54 * bpow e')%R.
    + apply Rmult_lt_compat_r; [apply bpow_pos|].
      rewrite <- IZR_pow2 by lia. apply IZR_lt.
      change (2 ^ 54) with (2 * 2 ^ 53). lia.
    + rewrite <- bpow_add. apply bpow_le. subst e'. unfold_format. lia.
  - exists p, e''. now repeat split.
Qed.

(** The rounded root against the two thresholds [r - 1/2] and [r + 1/2],
    all in units of [1 / (2 W)]: the root of [N W^2] rounds below, at or
    above [(2r-1) W] and [(2r+1) W] as [N] lies below, at or above
    [(2r-1)^2] and [(2r+1)^2], provided the unit is fine enough. *)
Lemma sqrt_thresholds (N r W : Z) :
  1 <= r -> 0 <= N -> 2 * r + 1 <= W ->
  let m' := N * W * W in
  let q := Z.sqrt m' in
  let R := if m' - q * q <=? q then q else q + 1 in
  (N <= (2 * r - 1) ^ 2 -> R <= (2 * r - 1) * W) /\
  ((2 * r - 1) ^ 2 < N -> (2 * r - 1) * W < R) /\
  (N < (2 * r + 1) ^ 2 -> R < (2 * r + 1) * W) /\
  ((2 * r + 1) ^ 2 <= N -> (2 * r + 1) * W <= R).
Proof.
  intros Hr HN HW m' q R.
  assert (Hm0 : 0 <= m') by (subst m'; nia).
  pose proof (Z.sqrt_spec m' Hm0) as Hq. fold q in Hq. cbv zeta in Hq.
  unfold Z.succ in Hq.
  assert (Hq0 : 0 <= q) by (apply Z.sqrt_nonneg).
  set (A := (2 * r - 1) * W). set (B := (2 * r + 1) * W).
  assert (HA : A * A = (2 * r - 1) ^ 2 * W * W) by (subst A; ring).
  assert (HB : B * B = (2 * r + 1) ^ 2 * W * W) by (subst B; ring).
  assert (HA0 : 0 <= A) by (subst A; nia).
  assert (HB0 : 0 <= B) by (subst B; nia).
  assert (HWW : 0 < W * W) by nia.
  assert (Hm : m' = N * (W * W)) by (subst m'; ring).
  assert (HA' : A * A = (2 * r - 1) ^ 2 * (W * W)) by lia.
  assert (HB' : B * B = (2 * r + 1) ^ 2 * (W * W)) by lia.
  set (WW := W * W) in *.
  assert (HAW : A < WW) by (subst A WW; nia).
  assert (HBW : B <= WW) by (subst B WW; nia).
  clearbody A B WW m'. clear HA HB.
  split; [|split; [|split]].
  - intros H. assert (m' <= A * A) by (rewrite Hm, HA'; nia).
    assert (q <= A) by nia.
    subst R. destruct (Z.leb_spec (m' - q * q) q); [lia|].
    destruct (Z.eq_dec q A) as [E|E]; [|lia]. subst q. lia.
  - intros H. assert (A * A + WW <= m').
    { rewrite Hm, HA'. replace (N * WW) with ((N - 1) * WW + WW) by ring. nia. }
    assert (A <= q) by nia.
    subst R. destruct (Z.leb_spec (m' - q * q) q); [|lia].
    destruct (Z.eq_dec q A) as [E|E]; [|lia]. subst q. lia.
  - intros H. assert (m' + WW <= B * B).
    { rewrite Hm, HB'. replace ((2 * r + 1) ^ 2 * WW)
        with (((2 * r + 1) ^ 2 - 1) * WW + WW) by ring. nia. }
    assert (q < B) by nia.
    subst R. destruct (Z.leb_spec (m' - q * q) q); [lia|].
    destruct (Z.eq_dec q (B - 1)) as [E|E]; [|lia]. subst q. nia.
  - intros H. assert (B * B <= m') by (rewrite Hm, HB'; nia).
    assert (B <= q) by nia.
    subst R. destruct (Z.leb_spec (m' - q * q) q); lia.
Qed.

(** The root of [N / 4] against [r - 1/2] and [r + 1/2]. *)
Lemma sqrt_of_quarter (s : float) (N r : Z) :
  finite s = true -> value s = (IZR N * bpow (-2))%R ->
  0 <= N < 2 ^ 53 -> 1 <= r < 2 ^ 25 ->
  exists (d : float) (R e' : Z),
    math_sqrt s = Return d /\ finite d = true /\
    value d = (IZR R * bpow e')%R /\ 0 <= R /\ -54 <= e' <= -27 /\
    (N <= (2 * r - 1) ^ 2 -> (value d <= IZR r - / 2)%R) /\
    ((2 * r - 1) ^ 2 < N -> (IZR r - / 2 < value d)%R) /\
    (N < (2 * r + 1) ^ 2 -> (value d < IZR r + / 2)%R) /\
    ((2 * r + 1) ^ 2 <= N -> (IZR r + / 2 <= value d)%R).
Proof.
  intros Hf Hv HN Hr.
  assert (Hr1 : (1 <= IZR r)%R) by (apply IZR_le; lia).
  unfold finite, value in *.
  destruct (Prim2SF s) as [ss|ss| |ss ms es] eqn:E; try discriminate.
  - (* the root of a zero *)
    cbn [SF2R] in Hv.
    assert (N = 0).
    { apply eq_IZR. pose proof (bpow_pos (-2)). nra. }
    subst N. exists s, 0, (-27).
    assert (Es : sqrt s = s).
    { apply Prim2SF_inj. now rewrite sqrt_spec, E. }
    split.
    { rewrite math_sqrt_nonneg by (rewrite E; exact I). now rewrite Es. }
    rewrite E. cbn [is_finite_sf SF2R].
    split; [reflexivity|]. split; [ring|]. split; [lia|]. split; [lia|].
    repeat split; intros; try lra; nia.
  - cbn [SF2R] in Hv. rewrite cond_Zopp_value in Hv.
    pose proof (pos_value ms es) as Hpos. pose proof (bpow_pos (-2)) as Hp2.
    assert (HN0 : 0 < N).
    { destruct (Z_le_gt_dec N 0) as [H|H]; [exfalso|lia].
      assert (N = 0) by lia. subst N. rewrite Rmult_0_l in Hv. destruct ss; lra. }
    assert (HNpos : (0 < IZR N)%R) by (apply IZR_lt; lia).
    destruct ss; [exfalso; nra|]. rewrite Rmult_1_l in Hv.
    pose proof (valid_bounded s _ _ _ E) as Hb.
    pose proof (magnitude_unique (Zpos ms) N es (-2) ltac:(lia) HN0 Hv) as HD.
    cbn [Zdigits2] in HD.
    pose proof (Zdigits2_pos N HN0) as HdN.
    pose proof (Zdigits2_lt_pow2 N 53 ltac:(lia) ltac:(lia)) as HdN'.
    destruct (bounded_digits ms es Hb) as (Hes & Hdm & Hnorm).
    assert (Hes' : es = Zdigits2 N - 55 /\ Zpos (digits2_pos ms) = prec).
    { destruct (Z_le_gt_dec es emin) as [Hs|Hs].
      - exfalso. unfold_format. lia.
      - specialize (Hnorm ltac:(lia)). unfold_format. lia. }
    destruct Hes' as [Hes' Hd53].
    destruct (SFsqrt_value ms es Hd53 ltac:(lia)) as (p & e'' & Hsq & Hbp & Hval).
    set (e' := Z.div2 es - 26) in *.
    pose proof (div2_bounds es) as Hdiv.
    assert (He' : -54 <= e' <= -27) by (subst e'; lia).
    set (W := 2 ^ (-1 - e')).
    assert (HW : 2 ^ 26 <= W) by (subst W; apply Z.pow_le_mono_r; lia).
    assert (HW0 : 0 < W) by lia.
    assert (Hm' : Zpos ms * 2 ^ (es - 2 * e') = N * W * W).
    { rewrite (dyadic_mantissa (Zpos ms) N es (-2) ltac:(lia) Hv).
      subst W. rewrite <- !Z.mul_assoc, <- !Z.pow_add_r by lia.
      do 2 f_equal. lia. }
    rewrite Hm' in Hval.
    destruct (sqrt_thresholds N r W ltac:(lia) ltac:(lia) ltac:(lia))
      as (T1 & T2 & T3 & T4).
    set (R := if N * W * W - Z.sqrt (N * W * W) * Z.sqrt (N * W * W)
                   <=? Z.sqrt (N * W * W)
              then Z.sqrt (N * W * W) else Z.sqrt (N * W * W) + 1) in *.
    assert (HR0 : 0 <= R).
    { pose proof (Z.sqrt_nonneg (N * W * W)). subst R.
      destruct (_ <=? _); lia. }
    assert (HWe : (IZR W * bpow e' = / 2)%R).
    { subst W. rewrite IZR_pow2 by lia. rewrite <- bpow_add.
      replace (-1 - e' + e') with (-1) by lia.
      unfold bpow. simpl. lra. }
    pose proof (bpow_pos e') as Hpe.
    assert (Hthr : forall c : Z, (IZR (c * W) * bpow e' = IZR c * / 2)%R).
    { intros c. rewrite mult_IZR, Rmult_assoc, HWe. reflexivity. }
    clearbody R W e'.
    exists (sqrt s), R, e'.
    split.
    { apply math_sqrt_nonneg. rewrite E. exact I. }
    rewrite sqrt_spec, E. unfold SF64sqrt. rewrite Hsq.
    cbn [is_finite_sf SF2R cond_Zopp]. rewrite Hval.
    split; [reflexivity|]. split; [reflexivity|]. split; [exact HR0|].
    split; [exact He'|].
    assert (Ha : (IZR r - / 2 = IZR ((2 * r - 1) * W) * bpow e')%R).
    { rewrite Hthr, minus_IZR, mult_IZR. lra. }
    assert (Hb' : (IZR r + / 2 = IZR ((2 * r + 1) * W) * bpow e')%R).
    { rewrite Hthr, plus_IZR, mult_IZR. lra. }
    rewrite Ha, Hb'.
    repeat split; intros H.
    + apply Rmult_le_compat_r; [lra|]. apply IZR_le. auto.
    + apply Rmult_lt_compat_r; [lra|]. apply IZR_lt. auto.
    + apply Rmult_lt_compat_r; [lra|]. apply IZR_lt. auto.
    + apply Rmult_le_compat_r; [lra|]. apply IZR_le. auto.
Qed.

(** ** The comparison with [0.5] *)

Lemma value_half : value 0.5 = (/ 2)%R.
Proof.
  unfold value. change (Prim2SF 0.5) with (S754_finite false 4503599627370496 (-53)).
  cbn [SF2R cond_Zopp]. unfold bpow. simpl. lra.
Qed.

Lemma leb_not_ltb (g t : float) :
  finite g = true -> (g <=? t)%float = true -> (t <? g)%float = false.
Proof.
  intros Hg. rewrite leb_spec, ltb_spec. unfold finite, SFleb, SFltb in *.
  pose proof (Prim2SF_valid g) as Vg. pose proof (Prim2SF_valid t) as Vt.
  destruct (Prim2SF t) as [st|st| |st mt et] eqn:Et.
  - pose proof (SFcompare_value _ _ Vg Vt Hg eq_refl) as H1.
    pose proof (SFcompare_value _ _ Vt Vg eq_refl Hg) as H2.
    destruct (SFcompare (Prim2SF g) (S754_zero st)) as [[]|];
      destruct (SFcompare (S754_zero st) (Prim2SF g)) as [[]|];
      intros; try reflexivity; try discriminate; lra.
  - destruct (Prim2SF g) as [sg|sg| |sg mg eg]; try discriminate;
      destruct st; cbn; intros; try reflexivity; discriminate.
  - destruct (Prim2SF g); cbn; intros; discriminate.
  - pose proof (SFcompare_value _ _ Vg Vt Hg eq_refl) as H1.
    pose proof (SFcompare_value _ _ Vt Vg eq_refl Hg) as H2.
    destruct (SFcompare (Prim2SF g) (S754_finite st mt et)) as [[]|];
      destruct (SFcompare (S754_finite st mt et) (Prim2SF g)) as [[]|];
      intros; try reflexivity; try discriminate; lra.
Qed.

Lemma SFabs_opp (s : spec_float) : SFabs (SFopp s) = SFabs s.
Proof. destruct s; reflexivity. Qed.

(** The magnitude of a rounded integer is not below a double that the
    magnitude of the integer reaches. *)
Lemma binary_normalize_far (M E : Z) (g : spec_float) :
  valid_binary g = true -> is_finite_sf g = true ->
  (0 < SF2R g <= Rabs (IZR M * bpow E))%R ->
  SFleb g (SFabs (binary_normalize prec emax M E false)) = true.
Proof.
  intros Vg Fg [Hg0 Hg].
  assert (Hround : forall p : positive,
            (SF2R g <= IZR (Zpos p) * bpow E)%R ->
            SFleb g (binary_round prec emax false p E) = true /\
            SFabs (binary_round prec emax false p E) = binary_round prec emax false p E /\
            binary_round prec emax true p E = SFopp (binary_round prec emax false p E)).
  { intros p Hp. unfold binary_round.
    pose proof (shl_align_spec p E (fexp prec emax (Zpos (digits2_pos p) + E))) as Hs.
    pose proof (shl_align_value p E (fexp prec emax (Zpos (digits2_pos p) + E))) as Hv.
    destruct (shl_align p E (fexp prec emax (Zpos (digits2_pos p) + E))) as [mz ez].
    destruct Hs as [Hez Hd]. rewrite <- Hv in Hp.
    assert (HP : ez <= fexp prec emax (Zdigits2 (Zpos mz) + ez)).
    { cbn [Zdigits2]. rewrite Hd. lia. }
    destruct (binary_round_aux_faithful (Zpos mz) ez ltac:(lia) HP) as (Hlo & _ & _).
    split; [now apply Hlo|]. split.
    - destruct (binary_round_aux_sign false (Zpos mz) ez loc_Exact ltac:(lia))
        as [H|[H|(q & e' & H)]]; rewrite H; reflexivity.
    - apply (binary_round_aux_opp false). }
  pose proof (bpow_pos E) as HpE.
  destruct M as [|p|p]; cbn [binary_normalize].
  - exfalso. rewrite Rmult_0_l, Rabs_R0 in Hg. lra.
  - rewrite Rabs_pos_eq in Hg by (pose proof (pos_value p E); lra).
    destruct (Hround p Hg) as (H1 & H2 & _). now rewrite H2.
  - change (Zneg p) with (- Zpos p) in Hg. rewrite neg_value, Rabs_Ropp in Hg.
    rewrite Rabs_pos_eq in Hg by (pose proof (pos_value p E); lra).
    destruct (Hround p Hg) as (H1 & H2 & H3). now rewrite H3, SFabs_opp, H2.
Qed.

Lemma SFsub_far (x y g : spec_float) :
  valid_binary x = true -> valid_binary y = true ->
  is_finite_sf x = true -> is_finite_sf y = true ->
  valid_binary g = true -> is_finite_sf g = true ->
  (0 < SF2R g <= Rabs (SF2R x - SF2R y))%R ->
  SFleb g (SFabs (SFsub prec emax x y)) = true.
Proof.
  intros Vx Vy Fx Fy Vg Fg [Hg0 Hg].
  assert (Hfin : forall (s : bool) (m : positive) (e : Z),
            bounded prec emax m e = true ->
            (SF2R g <= IZR (Zpos m) * bpow e)%R ->
            SFleb g (SFabs (S754_finite s m e)) = true).
  { intros s m e Hb Hle. cbn [SFabs]. apply SFleb_value; try assumption; reflexivity. }
  destruct x as [sx|sx| |sx mx ex]; try discriminate;
    destruct y as [sy|sy| |sy my ey]; try discriminate.
  - exfalso. cbn [SF2R] in Hg. rewrite Rminus_0_r, Rabs_R0 in Hg. lra.
  - cbn [SFsub]. apply Hfin; [exact Vy|].
    cbn [SF2R] in Hg. rewrite cond_Zopp_value in Hg. pose proof (pos_value my ey).
    rewrite Rminus_0_l, Rabs_Ropp in Hg.
    destruct sy; [rewrite Rabs_left in Hg|rewrite Rabs_pos_eq in Hg]; lra.
  - cbn [SFsub]. apply Hfin; [exact Vx|].
    cbn [SF2R] in Hg. rewrite cond_Zopp_value in Hg. pose proof (pos_value mx ex).
    rewrite Rminus_0_r in Hg.
    destruct sx; [rewrite Rabs_left in Hg|rewrite Rabs_pos_eq in Hg]; lra.
  - cbn [SFsub]. apply binary_normalize_far; try assumption. split; [exact Hg0|].
    rewrite minus_IZR, Rmult_minus_distr_r, !aligned_value by lia. exact Hg.
Qed.

(** Far from each other: the test of the cell fails. *)
Lemma sub_far (a b : float) :
  finite a = true -> finite b = true ->
  (/ 2 <= Rabs (value a - value b))%R ->
  (abs (a - b) <? 0.5)%float = false.
Proof.
  intros Ha Hb H. apply leb_not_ltb; [reflexivity|].
  rewrite leb_spec, abs_spec, sub_spec.
  apply SFsub_far; try apply Prim2SF_valid; try assumption; try reflexivity.
  fold (value 0.5). rewrite value_half. unfold value in H. lra.
Qed.

(** Close to each other, with a difference in the format: the test of the
    cell succeeds. *)
Lemma sub_near (a b : float) (Z K : Z) :
  finite a = true -> finite b = true ->
  0 <= Z -> Zdigits2 Z <= prec -> emin <= K -> Zdigits2 Z + K <= emax ->
  (Rabs (value a - value b) = IZR Z * bpow K)%R ->
  (Rabs (value a - value b) < / 2)%R ->
  (abs (a - b) <? 0.5)%float = true.
Proof.
  intros Ha Hb HZ HdZ HK Hmax Heq Hlt.
  destruct (sub_value a b Z K Ha Hb HZ HdZ HK Hmax Heq) as [Hf Hv].
  destruct (abs_value (a - b) Hf) as [Hfa Hva].
  apply ltb_value; [exact Hfa|reflexivity|].
  now rewrite Hva, Hv, value_half.
Qed.

(** * The cell test is the exact inequality up to radius [2 ^ 25] *)

(** For a radius from 1 to [2 ^ 25 - 1], on every cell of its grid, the
    test [abs(sqrt((x/2)**2 + y**2) - r) < 0.5] computed in doubles over a
    faithful [pow] answers as the inequality over the real numbers:
    every intermediate value but the square root is exact, and the square
    root is rounded to the right side of [r - 1/2] and [r + 1/2]. *)
Lemma is_on_circle_exact (pw : float -> float) (x y r : Z) :
  faithful_pow pw ->
  1 <= r < 2 ^ 25 -> -2 * r <= x <= 2 * r -> - r <= y <= r ->
  is_on_circle pw x y r = Return (on_circle_exact x y r).
Proof.
  intros Hpw Hr Hx Hy.
  assert (H25 : 2 ^ 25 = 33554432) by reflexivity.
  assert (Hxx : 0 <= x * x < 2 ^ 52).
  { change (2 ^ 52) with (2 ^ 26 * 2 ^ 26). change (2 ^ 26) with 67108864. nia. }
  assert (Hyy : 0 <= y * y < 2 ^ 50).
  { change (2 ^ 50) with (2 ^ 25 * 2 ^ 25). rewrite H25. nia. }
  set (N := x ^ 2 + 4 * y ^ 2).
  assert (HN : 0 <= N < 2 ^ 53).
  { subst N. rewrite !Z.pow_2_r. change (2 ^ 53) with (2 ^ 52 + 4 * 2 ^ 50). lia. }
  (* x / scale_x *)
  destruct (int_true_div_value x) as (q & Eq & Fq & Vq).
  { apply Zdigits2_abs_lt_pow2; [unfold prec; lia|].
    unfold prec. change (2 ^ 53) with 9007199254740992. lia. }
  (* (x / scale_x) ** 2 *)
  destruct (float_square_value pw q x (-1) Hpw Fq Vq) as (q2 & Eq2 & Fq2 & Vq2).
  { apply Zdigits2_lt_pow2; [unfold prec; lia|]. unfold prec.
    change (2 ^ 53) with (2 * 2 ^ 52). lia. }
  { unfold_format. lia. }
  { pose proof (Zdigits2_lt_pow2 (x * x) 53 ltac:(lia)
                  ltac:(change (2 ^ 53) with (2 * 2 ^ 52); lia)).
    unfold_format. lia. }
  (* y ** 2 *)
  destruct (float_of_int_value (y ^ 2)) as (y2 & Ey2 & Fy2 & Vy2).
  { rewrite Z.pow_2_r. apply Zdigits2_lt_pow2; [unfold prec; lia|]. unfold prec.
    change (2 ^ 53) with (8 * 2 ^ 50). lia. }
  (* the sum *)
  assert (Vsum : (value q2 + value y2 = IZR N * bpow (-2))%R).
  { rewrite Vq2, Vy2. subst N. rewrite plus_IZR, !mult_IZR, !Z.pow_2_r, !mult_IZR.
    change (-1 + -1) with (-2). unfold bpow. simpl. lra. }
  destruct (add_value q2 y2 N (-2) Fq2 Fy2) as [Fs Vs].
  { lia. }
  { apply Zdigits2_lt_pow2; [unfold prec; lia|]. exact HN. }
  { unfold_format. lia. }
  { pose proof (Zdigits2_lt_pow2 N 53 ltac:(lia) HN). unfold_format. lia. }
  { rewrite Vsum. apply Rabs_pos_eq. apply Rmult_le_pos; [apply IZR_le; lia|].
    pose proof (bpow_pos (-2)). lra. }
  rewrite Vsum in Vs.
  (* the root *)
  destruct (sqrt_of_quarter (q2 + y2) N r Fs Vs HN Hr)
    as (d & R & e' & Ed & Fd & Vd & HR & He' & T1 & T2 & T3 & T4).
  (* the radius *)
  destruct (float_of_int_value r) as (rf & Er & Fr & Vr).
  { apply Zdigits2_lt_pow2; [unfold prec; lia|]. unfold prec.
    change (2 ^ 53) with (2 ^ 28 * 2 ^ 25). lia. }
  unfold is_on_circle, distance.
  rewrite Eq. cbn [bind]. rewrite Eq2. cbn [bind]. rewrite Ey2. cbn [bind].
  rewrite Ed. cbn [bind]. rewrite Er. cbn [bind]. f_equal.
  unfold on_circle_exact. fold N.
  destruct (Z.ltb_spec ((2 * r - 1) ^ 2) N) as [Hlo|Hlo]; cbn [andb].
  - destruct (Z.ltb_spec N ((2 * r + 1) ^ 2)) as [Hhi|Hhi].
    + (* inside: the difference is exact *)
      specialize (T2 Hlo). specialize (T3 Hhi).
      assert (Habs : (Rabs (value d - value rf) < / 2)%R).
      { rewrite Vr. apply Rabs_def1; lra. }
      pose proof (bpow_pos e') as Hpe.
      assert (Hdiff : (value d - value rf = IZR (R - r * 2 ^ (- e')) * bpow e')%R).
      { rewrite Vd, Vr, minus_IZR, mult_IZR, IZR_pow2 by lia.
        rewrite Rmult_minus_distr_r, Rmult_assoc, <- bpow_add.
        replace (- e' + e') with 0 by lia. rewrite bpow_0. ring. }
      set (D := R - r * 2 ^ (- e')) in *.
      assert (HabsD : (Rabs (value d - value rf) = IZR (Z.abs D) * bpow e')%R).
      { rewrite Hdiff, Rabs_mult, abs_IZR, (Rabs_pos_eq (bpow e')) by lra.
        reflexivity. }
      assert (HD : Z.abs D < 2 ^ 53).
      { apply lt_IZR. rewrite IZR_pow2 by lia.
        apply (Rmult_lt_reg_r (bpow e')); [exact Hpe|].
        rewrite <- HabsD, <- bpow_add.
        apply Rlt_le_trans with (/ 2)%R; [exact Habs|].
        replace (/ 2)%R with (bpow (-1)) by (unfold bpow; simpl; lra).
        apply bpow_le. lia. }
      apply (sub_near d rf (Z.abs D) e' Fd Fr); try assumption.
      * lia.
      * apply Zdigits2_lt_pow2; [unfold prec; lia|]. unfold prec. lia.
      * unfold_format. lia.
      * pose proof (Zdigits2_lt_pow2 (Z.abs D) 53 ltac:(lia) ltac:(lia)).
        unfold_format. lia.
    + specialize (T4 Hhi). apply sub_far; try assumption.
      rewrite Vr. rewrite Rabs_pos_eq; lra.
  - specialize (T1 Hlo). apply sub_far; try assumption.
    rewrite Vr. rewrite Rabs_left1; lra.
Qed.

(** * The cell test of the specification *)

(** For a radius [>= 1] the integer form decides the inequality over the
    real numbers. *)
Lemma on_circle_exact_spec (x y r : Z) :
  1 <= r -> on_circle_exact x y r = true <-> on_circle_real x y r.
Proof.
  intros Hr. unfold on_circle_exact, on_circle_real.
  set (S := (IZR x / 2 * (IZR x / 2) + IZR y * IZR y)%R).
  assert (HS : (0 <= S)%R) by (unfold S; nra).
  assert (Hr1 : (1 <= IZR r)%R) by (apply IZR_le; exact Hr).
  assert (HN : (IZR (x ^ 2 + 4 * y ^ 2) = 4 * S)%R).
  { unfold S. rewrite plus_IZR, mult_IZR, !Z.pow_2_r, !mult_IZR. field. }
  assert (Hlo : (IZR ((2 * r - 1) ^ 2) = 4 * ((IZR r - / 2) * (IZR r - / 2)))%R).
  { rewrite Z.pow_2_r, mult_IZR, minus_IZR, mult_IZR. field. }
  assert (Hhi : (IZR ((2 * r + 1) ^ 2) = 4 * ((IZR r + / 2) * (IZR r + / 2)))%R).
  { rewrite Z.pow_2_r, mult_IZR, plus_IZR, mult_IZR. field. }
  rewrite andb_true_iff, !Z.ltb_lt. split.
  - intros [H1 H2]. apply IZR_lt in H1, H2. rewrite HN in H1, H2.
    rewrite Hlo in H1. rewrite Hhi in H2.
    assert (Ha : (R_sqrt.sqrt S < R_sqrt.sqrt ((IZR r + / 2) * (IZR r + / 2)))%R)
      by (apply sqrt_lt_1_alt; lra).
    assert (Hb : (R_sqrt.sqrt ((IZR r - / 2) * (IZR r - / 2)) < R_sqrt.sqrt S)%R)
      by (apply sqrt_lt_1_alt; nra).
    rewrite sqrt_square in Ha, Hb by lra.
    apply Rabs_def1; lra.
  - intros H. apply Rabs_def2 in H. destruct H as [H1 H2].
    assert (Ha : (R_sqrt.sqrt S < R_sqrt.sqrt ((IZR r + / 2) * (IZR r + / 2)))%R)
      by (rewrite sqrt_square by lra; lra).
    assert (Hb : (R_sqrt.sqrt ((IZR r - / 2) * (IZR r - / 2)) < R_sqrt.sqrt S)%R)
      by (rewrite sqrt_square by lra; lra).
    apply sqrt_lt_0_alt in Ha, Hb.
    split; apply lt_IZR; rewrite HN; [rewrite Hlo|rewrite Hhi]; lra.
Qed.

(** * Drawings that do not depend on the C library *)

Lemma row_string_ext (pw pw' : float -> float) (xs : list Z) (y r : Z) :
  (forall x, In x xs -> filled pw x y r = filled pw' x y r) ->
  row_string pw xs y r = row_string pw' xs y r.
Proof.
  induction xs as [|x xs IH]; intros H; [reflexivity|].
  cbn [row_string]. rewrite (H x) by now left.
  rewrite IH; [reflexivity|]. intros x' Hx'. apply H. now right.
Qed.

Lemma grid_ext (pw pw' : float -> float) (r : Z) :
  (forall x y, -2 * r <= x <= 2 * r -> - r <= y <= r ->
     filled pw x y r = filled pw' x y r) ->
  grid pw r = grid pw' r.
Proof.
  intros H. unfold grid. apply map_ext_in. intros y Hy.
  apply py_range_In in Hy. apply row_string_ext. intros x Hx.
  apply py_range_In in Hx. apply H; lia.
Qed.

(** On the grid of a radius from 1 to [2 ^ 25 - 1] a cell is filled exactly
    when the inequality holds, whatever the faithful [pow]. *)
Lemma filled_exact (pw : float -> float) (x y r : Z) :
  faithful_pow pw -> 1 <= r < 2 ^ 25 ->
  -2 * r <= x <= 2 * r -> - r <= y <= r ->
  filled pw x y r = on_circle_exact x y r.
Proof.
  intros Hpw Hr Hx Hy. unfold filled.
  now rewrite (is_on_circle_exact pw x y r Hpw Hr Hx Hy).
Qed.

(** Below [2 ^ 25] the drawing is the same for every faithful [pow]; its
    cells can be computed with the rounded product. *)
Lemma draw_circle_ascii_small (pw : float -> float) (r : Z) (show : bool) :
  faithful_pow pw -> r < 2 ^ 25 ->
  draw_circle_ascii pw r show = draw_circle_ascii rounded_product r show.
Proof.
  intros Hpw Hr.
  assert (H510 : r < 2 ^ 510).
  { apply Z.lt_trans with (2 ^ 25); [exact Hr|]. apply Z.pow_lt_mono_r; lia. }
  rewrite (draw_circle_ascii_eq pw Hpw r show H510).
  rewrite (draw_circle_ascii_eq _ rounded_product_faithful r show H510).
  do 2 f_equal.
  destruct (Z_lt_le_dec r 0) as [Hneg|Hpos].
  { unfold grid. now rewrite !(py_range_empty (- r) (r + 1)) by lia. }
  destruct (Z.eq_dec r 0) as [->|Hnz]; [reflexivity|].
  apply grid_ext. intros x y Hx Hy.
  rewrite !filled_exact; try reflexivity; try assumption;
    try apply rounded_product_faithful; lia.
Qed.

(** * Squares beyond the doubles *)



(** * A cell beyond [2 ^ 25] *)

(** For the radius [5793 ^ 2 = 33558849], at the last column of row
    [y = 5793]: [(x/2)^2 + y^2] is [r^2 + r], whose square root
    [r + 1/2 - 1/(8r) + ...] is nearer to the double [r + 1/2] than to its
    neighbour below, so that [abs(distance - r)] is the double [0.5] and the
    test [< 0.5] fails, while the inequality over the real numbers holds.
    The square [(x/2)^2 = r^2] is a double, which every faithful [pow]
    returns. *)
Lemma cell_beyond_exactness (pw : float -> float) :
  faithful_pow pw ->
  is_on_circle pw 67117698 5793 33558849 = Return false.
Proof.
  intros Hpw. unfold is_on_circle, distance.
  assert (Eq : int_true_div 67117698 scale_x = Return 33558849%float)
    by (vm_compute; reflexivity).
  rewrite Eq. cbn [bind].
  assert (E : Prim2SF 33558849 = S754_finite false 4504192467075072 (-27))
    by (vm_compute; reflexivity).
  destruct (float_square_finite pw _ _ _ _ E) as [-> _].
  change (abs 33558849)%float with 33558849%float.
  change (33558849 =? 1)%float with false. cbv iota.
  assert (Ep : Prim2SF 1126196346204801 = S754_finite false 4504785384819204 (-2))
    by (vm_compute; reflexivity).
  rewrite (pow_exact pw 33558849 1126196346204801 _ _ _ _ Hpw E Ep).
  - vm_compute. reflexivity.
  - unfold value. rewrite E, Ep. cbn [SF2R cond_Zopp].
    change (Z.pos 4504192467075072) with (33558849 * 2 ^ 27).
    change (Z.pos 4504785384819204) with (33558849 * 33558849 * 2 ^ 2).
    rewrite !mult_IZR, !IZR_pow2 by lia.
    assert (H2 : (bpow 2 * bpow (-2) = 1)%R) by (rewrite <- bpow_add; reflexivity).
    assert (H27 : (bpow 27 * bpow (-27) = 1)%R) by (rewrite <- bpow_add; reflexivity).
    transitivity (33558849 * 33558849 * (bpow 2 * bpow (-2)))%R; [ring|].
    transitivity (33558849 * 33558849
                  * ((bpow 27 * bpow (-27)) * (bpow 27 * bpow (-27))))%R; [|ring].
    rewrite H2, H27. ring.
Qed.

(** * Radii near the least double *)

Lemma PI_bounds : (314 / 100 < PI < 315 / 100)%R.
Proof.
  pose proof pi_is_close_to_PI as H. apply Rabs_le_both in H.
  rewrite value_pi, bpow_m52 in H. lra.
Qed.

(** For the least positive double [r = 2 ^ -1074] the product [2 * pi * r]
    is rounded to [6 * 2 ^ -1074]: off the circumference [2 PI r] by more
    than four parts in a hundred. *)
Lemma circumference_of_least_double (pw : float -> float) :
  faithful_pow pw ->
  exists p, calculate_circle_properties pw 0x1p-1074 None = Return p /\
    circumference p = 0x3p-1073%float /\
    ~ within_1e9 (circumference p) (2 * PI * value 0x1p-1074).
Proof.
  intros Hpw.
  destruct (float_square_within pw 0x1p-1074 (-1073) Hpw) as (f & Hf & _).
  { vm_compute. split; [reflexivity|discriminate]. }
  { unfold_format. lia. }
  unfold calculate_circle_properties. rewrite Hf. cbn [bind].
  eexists. split; [reflexivity|]. cbn [circumference].
  assert (Ec : (2 * pi * 0x1p-1074)%float = 0x3p-1073%float)
    by (vm_compute; reflexivity).
  rewrite Ec. split; [reflexivity|].
  unfold within_1e9, value.
  assert (E1 : Prim2SF 0x3p-1073 = S754_finite false 6 (-1074))
    by (vm_compute; reflexivity).
  assert (E2 : Prim2SF 0x1p-1074 = S754_finite false 1 (-1074))
    by (vm_compute; reflexivity).
  rewrite E1, E2. cbn [SF2R cond_Zopp].
  pose proof (bpow_pos (-1074)) as Hb. pose proof PI_bounds as [H1 H2].
  set (b := bpow (-1074)) in *.
  assert (Hc1 : (314 / 100 * b < PI * b)%R) by (apply Rmult_lt_compat_r; lra).
  assert (Hc2 : (PI * b < 315 / 100 * b)%R) by (apply Rmult_lt_compat_r; lra).
  intros H. apply Rabs_le_both in H. lra.
Qed.

(** For [r = 2 ^ -537] the square [r ** 2] is the least positive double,
    and [pi * r ** 2] is rounded to [3 * 2 ^ -1074]: off the area
    [PI r^2] by more than four parts in a hundred. *)
Lemma area_of_tiny_circle (pw : float -> float) :
  faithful_pow pw ->
  exists p, calculate_circle_properties pw 0x1p-537 None = Return p /\
    area p = 0x3p-1074%float /\
    ~ within_1e9 (area p) (PI * (value 0x1p-537 * value 0x1p-537)).
Proof.
  intros Hpw.
  assert (E1 : Prim2SF 0x1p-537 = S754_finite false 4503599627370496 (-589))
    by (vm_compute; reflexivity).
  assert (E2 : Prim2SF 0x1p-1074 = S754_finite false 1 (-1074))
    by (vm_compute; reflexivity).
  assert (Hv : value 0x1p-1074 = (value 0x1p-537 * value 0x1p-537)%R).
  { unfold value. rewrite E1, E2. cbn [SF2R cond_Zopp].
    change (Z.pos 4503599627370496) with (2 ^ 52). rewrite IZR_pow2 by lia.
    rewrite <- !bpow_add. change (52 + -589 + (52 + -589)) with (-1074).
    ring. }
  pose proof (pow_exact pw _ _ _ _ _ _ Hpw E1 E2 Hv) as Hp.
  destruct (float_square_faithful pw 0x1p-537 Hpw eq_refl) as (Hsq & _ & _).
  rewrite Hp in Hsq.
  unfold calculate_circle_properties. rewrite Hsq.
  change (is_infinity 0x1p-537) with false.
  change (is_infinity 0x1p-1074) with false. cbv iota. cbn [bind].
  eexists. split; [reflexivity|]. cbn [area].
  assert (Ea : (pi * 0x1p-1074)%float = 0x3p-1074%float)
    by (vm_compute; reflexivity).
  rewrite Ea. split; [reflexivity|].
  rewrite <- Hv. unfold within_1e9, value.
  assert (E3 : Prim2SF 0x3p-1074 = S754_finite false 3 (-1074))
    by (vm_compute; reflexivity).
  rewrite E3, E2. cbn [SF2R cond_Zopp].
  pose proof (bpow_pos (-1074)) as Hb. pose proof PI_bounds as [H1 H2].
  set (b := bpow (-1074)) in *.
  assert (Hc1 : (314 / 100 * b < PI * b)%R) by (apply Rmult_lt_compat_r; lra).
  assert (Hc2 : (PI * b < 315 / 100 * b)%R) by (apply Rmult_lt_compat_r; lra).
  intros H. apply Rabs_le_both in H. lra.
Qed.

(** * The properties of the specification *)

(** C1 (counter-example). The engine does not reject [r = 0], [r = -5],
    [a = 0] or [a = 361]: on each of them it returns a record, whatever the
    C library; for [r = 0] the record of a circle reduced to a point. *)
Lemma engine_accepts_invalid_inputs :
  (forall pw,
     calculate_circle_properties pw 0 None =
     Return {| radius := 0; angle_degrees := 360; diameter := 0;
               circumference := 0; area := 0; sector_area := 0;
               arc_length := 0 |}) /\
  (forall pw, faithful_pow pw ->
     returns (calculate_circle_properties pw (-5) None) = true) /\
  (forall pw, returns (calculate_circle_properties pw 1 (Some 0%float)) = true) /\
  (forall pw, returns (calculate_circle_properties pw 1 (Some 361%float)) = true).
Proof.
  repeat split; try (intros pw; vm_compute; reflexivity).
  intros pw Hpw.
  destruct (float_square_within pw (-5) 3 Hpw) as (f & Hf & _).
  { vm_compute. split; [reflexivity|discriminate]. }
  { unfold_format. lia. }
  unfold calculate_circle_properties. rewrite Hf. reflexivity.
Qed.

(** C1 (amended). Whenever the radius is [<= 0], or the angle is [<= 0] or
    [> 360], [calculate_circle_properties] itself raises no [ValueError]; the
    rejection is the work of [main], which reports [Radius must be positive]
    or [Angle must be between 0 and 360 degrees] before the engine is
    called. Nothing is asked of the C library here. *)
Theorem validation_is_in_main (pw : float -> float) (v a : float) :
  (v <=? 0)%float = true \/ ((a <=? 0) || (360 <? a))%float = true ->
  is_value_error (calculate_circle_properties pw v (Some a)) = false /\
  main pw (Numeral v) (Numeral a) =
    ErrorLine (if (v <=? 0)%float then "Radius must be positive"
               else "Angle must be between 0 and 360 degrees").
Proof.
  intros H. split.
  - unfold calculate_circle_properties, float_square.
    destruct (is_nan v); [reflexivity|].
    destruct (is_infinity v); [reflexivity|].
    destruct (v =? 0)%float; [reflexivity|].
    destruct (_ =? 1)%float; [reflexivity|].
    destruct (is_infinity _); reflexivity.
  - unfold main, main_try. cbn [py_float line_or bind].
    destruct (v <=? 0)%float; [reflexivity|].
    destruct H as [H|H]; [discriminate|]. now rewrite H.
Qed.

Lemma validation_is_in_main_witness :
  is_value_error
    (calculate_circle_properties rounded_product 0 (Some 360%float)) = false /\
  main rounded_product (Numeral 0) (Numeral 360) =
    ErrorLine "Radius must be positive".
Proof.
  exact (validation_is_in_main rounded_product 0 360 (or_introl eq_refl)).
Defined.

(** C2 (counter-example). For the radius [2 ^ 1024] the first quotient
    [x / scale_x] is beyond the doubles: the call raises [OverflowError] and
    returns no row. For the radius [33558849] the drawing is returned, but
    its cell at [x = 67117698], [y = 5793] is blank although
    [|sqrt((x/2)^2 + y^2) - r| < 0.5] holds: in doubles the square root is
    rounded to [r + 0.5]. Both hold whatever the faithful [pow]. *)
Lemma draw_circle_ascii_departs_from_inequality :
  (exists e,
     e = OverflowError "integer division result too large for a float" /\
     forall pw, draw_circle_ascii pw (2 ^ 1024) false = Raise e) /\
  on_circle_real 67117698 5793 33558849 /\
  (forall pw, faithful_pow pw ->
     is_on_circle pw 67117698 5793 33558849 = Return false /\
     exists text,
       draw_circle_ascii pw 33558849 false = Return text /\
       cell_at (split_lines text) 33558849 67117698 5793 = Some " "%char).
Proof.
  split; [|split].
  - eexists. split; [reflexivity|]. intros pw.
    apply first_cell_raises; [discriminate|]. vm_compute. reflexivity.
  - apply on_circle_exact_spec; [lia|]. vm_compute. reflexivity.
  - intros pw Hpw. pose proof (cell_beyond_exactness pw Hpw) as Hc.
    split; [exact Hc|].
    exists (String.concat newline (grid pw 33558849)).
    split.
    + apply draw_circle_ascii_eq; [exact Hpw|reflexivity].
    + rewrite split_lines_grid by lia. rewrite grid_cell by lia.
      unfold filled. rewrite Hc. reflexivity.
Qed.

(** C2 (amended). For every integer radius [0 < r < 2 ^ 510], over a
    faithful [pow], [draw_circle_ascii] returns a text of exactly [2r+1]
    rows, each of length [4r+1], whose cell at column [x] of row [y] is
    ['*'] exactly when the test [abs(sqrt((x/2)**2 + y**2) - r) < 0.5],
    evaluated in doubles, holds, and a space otherwise. For every radius
    below [2 ^ 25] that test is the inequality
    [|sqrt((x/2)^2 + y^2) - r| < 0.5] over the real numbers, that is
    [(2r-1)^2 < x^2 + 4y^2 < (2r+1)^2]. *)
Theorem draw_circle_ascii_grid (pw : float -> float) (r : Z) (show : bool) :
  faithful_pow pw ->
  0 < r < 2 ^ 510 ->
  exists text,
    draw_circle_ascii pw r show = Return text /\
    List.length (split_lines text) = Z.to_nat (2 * r + 1) /\
    Forall (fun row => String.length row = Z.to_nat (4 * r + 1))
           (split_lines text) /\
    forall x y, -2 * r <= x <= 2 * r -> - r <= y <= r ->
      exists b, is_on_circle pw x y r = Return b /\
                cell_at (split_lines text) r x y
                  = Some (if b then "*" else " ")%char /\
                (r < 2 ^ 25 ->
                 b = on_circle_exact x y r /\
                 (b = true <-> on_circle_real x y r)).
Proof.
  intros Hpw Hr. exists (String.concat newline (grid pw r)).
  rewrite split_lines_grid by lia.
  split; [apply draw_circle_ascii_eq; [exact Hpw|lia]|].
  split; [apply grid_length|]. split; [apply grid_row_length|].
  intros x y Hx Hy.
  destruct (is_on_circle_returns pw x y r Hpw) as [b Hb]; try lia.
  exists b. split; [exact Hb|]. split.
  - rewrite grid_cell by lia. unfold filled, cell_char. now rewrite Hb.
  - intros Hsmall.
    rewrite (is_on_circle_exact pw x y r Hpw) in Hb by lia.
    assert (Eb : b = on_circle_exact x y r) by congruence.
    split; [exact Eb|]. rewrite Eb. apply on_circle_exact_spec. lia.
Qed.

Lemma draw_circle_ascii_grid_witness :
  exists text,
    draw_circle_ascii rounded_product 3 false = Return text /\
    List.length (split_lines text) = Z.to_nat (2 * 3 + 1) /\
    Forall (fun row => String.length row = Z.to_nat (4 * 3 + 1))
           (split_lines text) /\
    forall x y, -2 * 3 <= x <= 2 * 3 -> - 3 <= y <= 3 ->
      exists b, is_on_circle rounded_product x y 3 = Return b /\
                cell_at (split_lines text) 3 x y
                  = Some (if b then "*" else " ")%char /\
                (3 < 2 ^ 25 ->
                 b = on_circle_exact x y 3 /\
                 (b = true <-> on_circle_real x y 3)).
Proof.
  apply (draw_circle_ascii_grid rounded_product 3 false rounded_product_faithful).
  split; reflexivity.
Defined.

(** C3 (counter-example). The tolerance fails near the least double: for
    [r = 2 ^ -1074] the circumference returned is [6 * 2 ^ -1074], and for
    [r = 2 ^ -537] the area returned is [3 * 2 ^ -1074]; each is more than
    four parts in a hundred off [2 PI r] and [PI r^2]. Both hold whatever
    the faithful [pow]. *)
Lemma tolerance_fails_near_zero :
  ((0 <? 0x1p-1074)%float = true /\
   forall pw, faithful_pow pw ->
     exists p, calculate_circle_properties pw 0x1p-1074 None = Return p /\
       circumference p = 0x3p-1073%float /\
       ~ within_1e9 (circumference p) (2 * PI * value 0x1p-1074)) /\
  ((0 <? 0x1p-537)%float = true /\
   forall pw, faithful_pow pw ->
     exists p, calculate_circle_properties pw 0x1p-537 None = Return p /\
       area p = 0x3p-1074%float /\
       ~ within_1e9 (area p) (PI * (value 0x1p-537 * value 0x1p-537))).
Proof.
  split; (split; [reflexivity|]).
  - exact circumference_of_least_double.
  - exact area_of_tiny_circle.
Qed.

(** C3 (amended). Over a faithful [pow], for every radius [r > 0] the
    record that [calculate_circle_properties] returns has
    [diameter == 2*r], [circumference == 2*pi*r] and
    [area == pi * r**2], where [r ** 2] is the double that [pow] returns
    ([r] itself when it is the infinity); no record is returned only when
    [r ** 2] leaves the double range, in which case the call raises the
    [OverflowError] of [**]. For [2^-511 <= r <= 2^509] a record is
    returned and its three fields are within [1e-9], relatively, of the
    real numbers [2r], [2 PI r] and [PI r^2]. *)
Theorem circle_fields (pw : float -> float) (r : float) (a : option float) :
  faithful_pow pw ->
  (0 <? r)%float = true ->
  match calculate_circle_properties pw r a with
  | Return p =>
      radius p = r /\
      diameter p = (2 * r)%float /\
      circumference p = (2 * pi * r)%float /\
      area p = (pi * (if is_infinity r then r else pw r))%float
  | Raise e =>
      e = OverflowError "(34, 'Numerical result out of range')" /\
      is_infinity r = false /\ is_infinity (pw r) = true
  end /\
  ((0x1p-511 <=? r)%float = true -> (r <=? 0x1p+509)%float = true ->
   exists p,
     calculate_circle_properties pw r a = Return p /\
     within_1e9 (diameter p) (2 * value r) /\
     within_1e9 (circumference p) (2 * PI * value r) /\
     within_1e9 (area p) (PI * (value r * value r))).
Proof.
  intros Hpw Hr. unfold calculate_circle_properties.
  destruct (float_square_faithful pw r Hpw Hr) as (-> & _ & _).
  split.
  - destruct (is_infinity r); cbn [bind radius diameter circumference area].
    + repeat split.
    + destruct (is_infinity (pw r)); cbn [bind radius diameter circumference area];
        repeat split.
  - intros H1 H2.
    assert (Hin : in_range (-510) 510 r).
    { exact (in_range_between r 0x1p-511 0x1p+509 4503599627370496
               4503599627370496 (-563) 457 eq_refl eq_refl eq_refl H1 H2). }
    destruct (in_range_finite _ _ _ Hin) as [_ Hfin]. rewrite Hfin.
    destruct (pow_in_range pw r _ _ Hpw Hin
                ltac:(unfold_format; lia) ltac:(unfold_format; lia)) as [Hrr _].
    destruct (in_range_finite _ _ _ Hrr) as [_ Hfin2]. rewrite Hfin2.
    cbn [bind]. eexists. split; [reflexivity|].
    cbn [diameter circumference area]. unfold within_1e9.
    pose proof (in_range_value_pos _ _ _ Hin) as Hv.
    pose proof PI_gt_3 as H3. pose proof tolerance_1e9 as Ht.
    pose proof (diameter_close r Hin) as Hd.
    pose proof (circumference_close r Hin) as Hc.
    destruct (area_close pw r Hpw Hin) as [_ Ha].
    assert (0 < 2 * value r)%R by lra.
    assert (0 < 2 * PI * value r)%R by nra.
    assert (0 < PI * (value r * value r))%R by nra.
    repeat split.
    + eapply Rle_trans; [exact Hd|]. apply Rmult_le_compat_r; lra.
    + eapply Rle_trans; [exact Hc|]. apply Rmult_le_compat_r; lra.
    + eapply Rle_trans; [exact Ha|]. apply Rmult_le_compat_r; lra.
Qed.

Lemma circle_fields_witness :
  exists p,
    calculate_circle_properties rounded_product 10 None = Return p /\
    within_1e9 (diameter p) (2 * value 10) /\
    within_1e9 (circumference p) (2 * PI * value 10) /\
    within_1e9 (area p) (PI * (value 10 * value 10)).
Proof.
  destruct (circle_fields rounded_product 10 None rounded_product_faithful eq_refl)
    as [_ H].
  exact (H eq_refl eq_refl).
Defined.




(** C5. Over a faithful [pow], for every radius [r > 0], calling the engine
    with an angle [a == 360] gives a record whose [sector_area] is the very
    double of [area] and whose [arc_length] is the very double of
    [circumference] (the ratio [a/360] is exactly [1.0], and multiplying by
    [1.0] rounds nothing); Python's [==] holds between them. A record is
    returned unless [r ** 2] leaves the double range. *)
Theorem full_angle_is_whole_circle (pw : float -> float) (r a : float) :
  faithful_pow pw ->
  (0 <? r)%float = true -> float_eq a 360 = true ->
  match calculate_circle_properties pw r (Some a) with
  | Return p =>
      sector_area p = area p /\ arc_length p = circumference p /\
      float_eq (sector_area p) (area p) = true /\
      float_eq (arc_length p) (circumference p) = true
  | Raise e =>
      e = OverflowError "(34, 'Numerical result out of range')" /\
      is_infinity r = false /\ is_infinity (pw r) = true
  end.
Proof.
  intros Hpw Hr Ha. apply float_eq_360 in Ha. subst a.
  unfold calculate_circle_properties.
  destruct (float_square_faithful pw r Hpw Hr) as (Hsq & Hn & Hn2).
  destruct (float_square pw r) as [e|r2] eqn:E; cbn [bind].
  - destruct (is_infinity r); [discriminate Hsq|].
    destruct (is_infinity (pw r)); [|discriminate Hsq].
    injection Hsq as ->. now repeat split.
  - cbn [sector_area area arc_length circumference].
    change (360 / 360)%float with 1%float. rewrite !mul_one_l.
    repeat split; apply float_eq_refl.
    + apply (mul_finite_not_nan _ _ _ _ _ Prim2SF_pi). now apply Hn2.
    + apply (mul_finite_not_nan _ _ _ _ _ Prim2SF_two_pi). exact Hn.
Qed.

Lemma full_angle_is_whole_circle_witness :
  match calculate_circle_properties rounded_product 1 (Some 360%float) with
  | Return p =>
      sector_area p = area p /\ arc_length p = circumference p /\
      float_eq (sector_area p) (area p) = true /\
      float_eq (arc_length p) (circumference p) = true
  | Raise e =>
      e = OverflowError "(34, 'Numerical result out of range')" /\
      is_infinity 1 = false /\ is_infinity (rounded_product 1) = true
  end.
Proof.
  exact (full_angle_is_whole_circle rounded_product 1 360
           rounded_product_faithful eq_refl eq_refl).
Defined.

(** C6 (counter-example). In the drawing of radius 3 the cell at [x = 5] of
    the middle row is blank, and the row has no column [x = 7]: its columns
    run from [-6] to [6]. *)
Lemma radius_3_column_5_is_blank :
  (forall pw, faithful_pow pw ->
     draw_circle_ascii pw 3 false
       = Return (String.concat newline radius_3_rows)) /\
  cell_at radius_3_rows 3 5 0 = Some " "%char /\
  cell_at radius_3_rows 3 7 0 = None.
Proof.
  split; [|split; vm_compute; reflexivity].
  intros pw Hpw. rewrite (draw_circle_ascii_small pw 3 false Hpw eq_refl).
  vm_compute. reflexivity.
Qed.

(** C6 (amended). Over a faithful [pow], rasterizing radius 3 gives 7 rows
    of 13 characters each, and the middle row ([y = 0]) has a ['*'] exactly
    at [x = -6] and [x = 6], its first and last column; every other cell of
    it is blank. *)
Theorem radius_3_drawing (pw : float -> float) (show : bool) :
  faithful_pow pw ->
  draw_circle_ascii pw 3 show = Return (String.concat newline radius_3_rows) /\
  split_lines (String.concat newline radius_3_rows) = radius_3_rows /\
  List.length radius_3_rows = 7%nat /\
  Forall (fun row => String.length row = 13%nat) radius_3_rows /\
  nth_error radius_3_rows 3 = Some "*           *" /\
  forall x, cell_at radius_3_rows 3 x 0 = Some "*"%char <-> x = -6 \/ x = 6.
Proof.
  intros Hpw.
  split.
  { rewrite (draw_circle_ascii_small pw 3 show Hpw eq_refl).
    vm_compute. reflexivity. }
  split; [vm_compute; reflexivity|].
  split; [reflexivity|].
  split; [repeat constructor|].
  split; [reflexivity|].
  intros x.
  destruct (Z_lt_le_dec x (-6)) as [Hlo|Hlo].
  { unfold cell_at. destruct (Z.ltb_spec (x + 2 * 3) 0); [|lia]. cbn [orb].
    split; [discriminate|lia]. }
  destruct (Z_lt_le_dec 6 x) as [Hhi|Hhi].
  { unfold cell_at. destruct (Z.ltb_spec (x + 2 * 3) 0); [lia|]. cbn.
    replace (Z.to_nat (x + 6)) with (13 + Z.to_nat (x - 7))%nat by lia.
    cbn. split; [discriminate|lia]. }
  assert (H : x = -6 \/ x = -5 \/ x = -4 \/ x = -3 \/ x = -2 \/ x = -1 \/ x = 0 \/
              x = 1 \/ x = 2 \/ x = 3 \/ x = 4 \/ x = 5 \/ x = 6) by lia.
  repeat (destruct H as [->|H]); try subst x; vm_compute;
    (split; [intros E; first [now left | now right | discriminate E]
            |intros [E|E]; first [reflexivity | discriminate E]]).
Qed.

Lemma radius_3_drawing_witness :
  draw_circle_ascii rounded_product 3 true
    = Return (String.concat newline radius_3_rows) /\
  split_lines (String.concat newline radius_3_rows) = radius_3_rows /\
  List.length radius_3_rows = 7%nat /\
  Forall (fun row => String.length row = 13%nat) radius_3_rows /\
  nth_error radius_3_rows 3 = Some "*           *" /\
  forall x, cell_at radius_3_rows 3 x 0 = Some "*"%char <-> x = -6 \/ x = 6.
Proof. exact (radius_3_drawing rounded_product true rounded_product_faithful). Defined.

(** C7 (counter-example). With radius 1 and an empty answer to the angle
    prompt, [main] reports a sector of 40 degrees, not of 360, whatever the
    faithful [pow]. *)
Lemma console_default_is_40 :
  float_eq 40 360 = false /\
  forall pw, faithful_pow pw ->
    exists properties ascii_circle,
      main pw (Numeral 1) Blank = Shown properties ascii_circle /\
      angle_degrees properties = 40%float.
Proof.
  split; [reflexivity|]. intros pw Hpw.
  unfold main, main_try. cbn [py_float line_or bind].
  change (1 <=? 0)%float with false.
  change ((40 <=? 0) || (360 <? 40))%float with false. cbv iota.
  set (p := {| radius := 1; angle_degrees := 40; diameter := 2 * 1;
               circumference := 2 * pi * 1; area := pi * 1;
               sector_area := 40 / 360 * (pi * 1);
               arc_length := 40 / 360 * (2 * pi * 1) |}%float).
  assert (Ec : calculate_circle_properties pw 1 (Some 40%float) = Return p)
    by (vm_compute; reflexivity).
  rewrite Ec. cbn [bind].
  change (int_of_float 1) with (Return 1). cbn [bind].
  rewrite (draw_circle_ascii_small pw 1 true Hpw eq_refl).
  destruct (draw_circle_ascii rounded_product 1 true) as [e|text] eqn:Ed;
    [vm_compute in Ed; discriminate Ed|].
  cbn [bind].
  destruct (visualize_properties p) as [e|pc] eqn:Ev;
    [vm_compute in Ev; discriminate Ev|].
  cbn [bind]. exists p, text. split; reflexivity.
Qed.

(** C7 (amended). When the angle is omitted in a call of the engine it is
    360 (the default value of the parameter); when the user enters nothing
    at the angle prompt of [main] it is 40 (the prompt says
    [default = 40]). *)
Theorem default_angles (pw : float -> float) (v : float) :
  calculate_circle_properties pw v None =
    calculate_circle_properties pw v (Some 360%float) /\
  main pw (Numeral v) Blank = main pw (Numeral v) (Numeral 40%float).
Proof. split; reflexivity. Qed.




(** C9. For every integer radius [r > 0], in the drawing that
    [draw_circle_ascii] returns, the cell at [(x, y)] carries the same
    character as the cell at [(-x, y)] and as the cell at [(x, -y)]: one is
    filled exactly when the other is. The test itself answers the same at
    the mirrored cells, whatever the radius and whatever [pow] returns. *)
Theorem grid_is_symmetric
    (pw : float -> float) (r x y : Z) (show : bool) (text : string) :
  0 < r -> draw_circle_ascii pw r show = Return text ->
  -2 * r <= x <= 2 * r -> - r <= y <= r ->
  is_on_circle pw (- x) y r = is_on_circle pw x y r /\
  is_on_circle pw x (- y) r = is_on_circle pw x y r /\
  cell_at (split_lines text) r (- x) y = cell_at (split_lines text) r x y /\
  cell_at (split_lines text) r x (- y) = cell_at (split_lines text) r x y.
Proof.
  intros Hr Htext Hx Hy.
  apply draw_circle_ascii_inv in Htext. subst text.
  rewrite split_lines_grid by lia.
  split; [apply is_on_circle_mirror_x|]. split; [apply is_on_circle_mirror_y|].
  rewrite !grid_cell by lia. unfold filled.
  now rewrite is_on_circle_mirror_x, is_on_circle_mirror_y.
Qed.

Lemma grid_is_symmetric_witness :
  is_on_circle rounded_product (- 5) 1 3 = is_on_circle rounded_product 5 1 3 /\
  is_on_circle rounded_product 5 (- 1) 3 = is_on_circle rounded_product 5 1 3 /\
  cell_at (split_lines (String.concat newline radius_3_rows)) 3 (- 5) 1 =
    cell_at (split_lines (String.concat newline radius_3_rows)) 3 5 1 /\
  cell_at (split_lines (String.concat newline radius_3_rows)) 3 5 (- 1) =
    cell_at (split_lines (String.concat newline radius_3_rows)) 3 5 1.
Proof.
  apply (grid_is_symmetric rounded_product 3 5 1 false);
    [reflexivity|vm_compute; reflexivity|lia|lia].
Defined.



